(** * The generate–render–score feedback loop and its pixel-region analyzer

  A shallow embedding of the parts of the repository that carry its
  algorithmic content:

  - [SimplifiedPixelAnalyzer] (src/lib/simplifiedPixelAnalyzer.js): sampled
    flood fill, region consolidation, significance filter, the 0–100 score
    and the instruction generator;
  - [UniversalOrchestrator] (src/universalOrchestrator.js): the bounded
    round loop with best-round bookkeeping;
  - [PixelFeedbackLoopTest] (src/gemini_llama_orchestartor.js): the round
    loop driven by the pixel analyzer, with its repair sub-loop and the
    fallback to the last code that rendered without errors;
  - [ErrorDetector] (lib/errorDetector.js): what a page load reports;
  - [ImageEvaluator] (lib/evaluator.js): how the second judge's score is
    read from its reply;
  - [WebApi] (server.js): the creation of a session and the record of its
    progress.

  Numbers are JavaScript doubles in the source.  Every number the modelled
  code handles is an integer (pixel coordinates, byte values, sums and
  products of them, scores), so they are embedded as [Z]; the few places
  where the source divides or multiplies by a decimal fraction are
  compared exactly, as explained where they occur. *)

From Stdlib Require Import ZArith Lia Bool HexadecimalString.
From stdpp Require Import base gmap strings list sorting pretty.

#[local] Open Scope Z_scope.

(** ** JavaScript helpers *)

Module Js.

(** The quotient [a / b] of two integers, kept as a fraction.  The source
    only ever compares such a quotient with a small integer constant. *)
Record ratio := mkRatio { num : Z; den : Z }.

Definition div (a b : Z) : ratio := mkRatio a b.

(** [q > k] for [q = a / b]: [a / 0] is [+Infinity] for [a > 0], [NaN] for
    [a = 0] and [-Infinity] for [a < 0]; a comparison with [NaN] is false.
    For a non-zero denominator the rounded double quotient exceeds the
    integer [k] exactly when the real quotient does, as long as the
    operands stay far below 2^53, which pixel coordinates do. *)
Definition gtb (q : ratio) (k : Z) : bool :=
  if den q =? 0 then 0 <? num q
  else if 0 <? den q then k * den q <? num q
  else num q <? k * den q.

(** [Math.min(...l)] and [Math.max(...l)] on a non-empty argument list.
    (On an empty list JavaScript answers [Infinity] and [-Infinity]; the
    callers below never pass one, and [0] stands in for that case.) *)
Definition min_list (l : list Z) : Z :=
  match l with
  | [] => 0
  | a :: t => foldl Z.min a t
  end.

Definition max_list (l : list Z) : Z :=
  match l with
  | [] => 0
  | a :: t => foldl Z.max a t
  end.

(** Truthiness of a string value: only the empty string is falsy. *)
Definition truthy (s : string) : bool := negb (String.eqb s "").

(** Truthiness of [null] or a string. *)
Definition truthy_opt (o : option string) : bool :=
  match o with
  | Some s => truthy s
  | None => false
  end.

(** [`${n}`] for an integer [n]. *)
Definition show (n : Z) : string := pretty n.

(** [n.toString(16)] for an integer [n]. *)
Definition toString16 (n : Z) : string :=
  HexadecimalString.NilZero.string_of_int (Z.to_hex_int n).

Definition upper_ascii (c : Ascii.ascii) : Ascii.ascii :=
  let n := Ascii.nat_of_ascii c in
  if (Nat.leb 97 n && Nat.leb n 122)%bool
  then Ascii.ascii_of_nat (n - 32) else c.

Fixpoint toUpperCase (s : string) : string :=
  match s with
  | EmptyString => EmptyString
  | String c s' => String (upper_ascii c) (toUpperCase s')
  end.

(** [s.length === 1 ? '0' + s : s] *)
Definition pad2 (s : string) : string :=
  if Nat.eqb (String.length s) 1 then "0" +:+ s else s.

End Js.

(** ** The pixel-region analyzer *)

Module Bounds.
Record t := mk { x : Z; y : Z; width : Z; height : Z }.
End Bounds.

Module Rgb.
Record t := mk { r : Z; g : Z; b : Z }.
End Rgb.

Module SimplifiedPixelAnalyzer.

(** The constructor's two settings. *)
Definition colorTolerance : Z := 50.
Definition minRegionSize : Z := 1000.

Record Region := mkRegion {
  color : string;
  hex : string;
  rgb : Rgb.t;
  bounds : Bounds.t;
  area : Z;
  pixelCount : Z
}.

(** [Math.max(w, h) / Math.min(w, h)], as every caller computes it. *)
Definition aspectRatio (b : Bounds.t) : Js.ratio :=
  Js.div (Z.max (Bounds.width b) (Bounds.height b))
         (Z.min (Bounds.width b) (Bounds.height b)).

(** *** Colour classification *)

Record NamedColor := mkNamed {
  name : string; ref_r : Z; ref_g : Z; ref_b : Z; threshold : Z
}.

Definition colors : list NamedColor :=
  [ mkNamed "black" 0 0 0 80;
    mkNamed "white" 255 255 255 80;
    mkNamed "red" 255 0 0 100;
    mkNamed "red" 220 20 20 60;
    mkNamed "red" 200 0 0 60;
    mkNamed "red" 180 0 0 50;
    mkNamed "yellow" 255 255 0 80;
    mkNamed "yellow" 240 240 0 60;
    mkNamed "yellow" 255 200 0 60;
    mkNamed "blue" 0 0 255 80;
    mkNamed "blue" 0 100 200 60;
    mkNamed "gray" 128 128 128 80;
    mkNamed "gray" 160 160 160 40;
    mkNamed "gray" 100 100 100 40 ].

(** The square of the Euclidean RGB distance.  The source takes its
    square root and compares with an integer bound [t]; for integers
    [sqrt s < t] is [s < t * t] and [sqrt s > t] is [s > t * t], the
    square root of a double being correctly rounded. *)
Definition sqDistance (r g b r' g' b' : Z) : Z :=
  (r - r') ^ 2 + (g - g') ^ 2 + (b - b') ^ 2.

Definition rgbToColorName (r g b : Z) : string :=
  match find (fun c => sqDistance r g b (ref_r c) (ref_g c) (ref_b c)
                       <? threshold c * threshold c) colors with
  | Some c => name c
  | None =>
    if (150 <? r) && (g * 2 <? r) && (b * 2 <? r) then "red"
    else if (200 <? r) && (200 <? g) && (b <? 100) then "yellow"
    else if (Z.abs (r - g) <? 30) && (Z.abs (g - b) <? 30)
            && (50 <? r) && (r <? 200) then "gray"
    else if (r <? 50) && (g <? 50) && (b <? 50) then "black"
    else if (180 <? r) && (180 <? g) && (180 <? b)
            && (Z.abs (r - g) <? 30) && (Z.abs (g - b) <? 30)
            && (Z.abs (r - b) <? 30) then "white"
    else "rgb(" +:+ Js.show r +:+ "," +:+ Js.show g +:+ ","
                +:+ Js.show b +:+ ")"
  end.

Definition toHex (component : Z) : string :=
  Js.pad2 (Js.toString16 component).

Definition rgbToHex (r g b : Z) : string :=
  Js.toUpperCase ("#" +:+ toHex r +:+ toHex g +:+ toHex b).

(** *** Bounding boxes *)

Definition calculateBounds (samples : list (Z * Z)) : Bounds.t :=
  let xs := map fst samples in
  let ys := map snd samples in
  let minX := Js.min_list xs in
  let maxX := Js.max_list xs in
  let minY := Js.min_list ys in
  let maxY := Js.max_list ys in
  Bounds.mk minX minY (maxX - minX) (maxY - minY).

(** *** Consolidation of same-colour regions *)

Definition margin : Z := 3.

Definition regionsOverlap (bounds1 bounds2 : Bounds.t) : bool :=
  negb ((Bounds.x bounds1 + Bounds.width bounds1 + margin <? Bounds.x bounds2)
        || (Bounds.x bounds2 + Bounds.width bounds2 + margin <? Bounds.x bounds1)
        || (Bounds.y bounds1 + Bounds.height bounds1 + margin <? Bounds.y bounds2)
        || (Bounds.y bounds2 + Bounds.height bounds2 + margin <? Bounds.y bounds1)).

(** [const totalImageArea = 261 * 373; // Target image size] *)
Definition totalImageArea : Z := 261 * 373.

(** [a > totalImageArea * 0.5]: the product 48676.5 is an exact double,
    so the test is [2 * a > totalImageArea]. *)
Definition isVeryLarge (a : Z) : bool := totalImageArea <? 2 * a.

(** [a < totalImageArea * 0.1]: the product is a double strictly between
    9735 and 9736, so for an integer [a] the test is
    [10 * a < totalImageArea]. *)
Definition isVerySmall (a : Z) : bool := 10 * a <? totalImageArea.

Definition isHorizontalLine (b : Bounds.t) : bool :=
  Bounds.height b <? Bounds.width b.

Definition shouldMergeRegions (region1 region2 : Region) : bool :=
  if negb (regionsOverlap (bounds region1) (bounds region2)) then false
  else
    let area1 := area region1 in
    let area2 := area region2 in
    if (isVeryLarge area1 && isVerySmall area2)
       || (isVeryLarge area2 && isVerySmall area1) then false
    else
      let aspectRatio1 := aspectRatio (bounds region1) in
      let aspectRatio2 := aspectRatio (bounds region2) in
      if Js.gtb aspectRatio1 8 || Js.gtb aspectRatio2 8 then
        let isHorizontalLine1 := isHorizontalLine (bounds region1) in
        let isHorizontalLine2 := isHorizontalLine (bounds region2) in
        if isHorizontalLine1 && isHorizontalLine2 then
          Z.abs (Bounds.y (bounds region1) - Bounds.y (bounds region2)) <=? 5
        else if negb isHorizontalLine1 && negb isHorizontalLine2 then
          Z.abs (Bounds.x (bounds region1) - Bounds.x (bounds region2)) <=? 5
        else false
      else true.

(** [mergeRegions] is only called on a list of at least two regions; the
    fields copied from [regions[0]] are taken from the head. *)
Definition mergeRegions (regions : list Region) : option Region :=
  match regions with
  | [] => None
  | first :: _ =>
    let allBounds := map bounds regions in
    let minX := Js.min_list (map Bounds.x allBounds) in
    let minY := Js.min_list (map Bounds.y allBounds) in
    let maxX := Js.max_list (map (fun b => Bounds.x b + Bounds.width b) allBounds) in
    let maxY := Js.max_list (map (fun b => Bounds.y b + Bounds.height b) allBounds) in
    Some (mkRegion (color first) (hex first) (rgb first)
            (Bounds.mk minX minY (maxX - minX) (maxY - minY))
            ((maxX - minX) * (maxY - minY))
            (foldl (fun sum r => sum + pixelCount r) 0 regions))
  end.

(** The test of the inner loop of [consolidateOverlappingRegions]. *)
Definition mergeable (mainRegion otherRegion : Region) : bool :=
  String.eqb (color mainRegion) (color otherRegion)
  && shouldMergeRegions mainRegion otherRegion.

(** The inner loop [for (j = i + 1; j < regions.length; j++)]: [js] are
    the indices still to visit, [used] is the shared set of absorbed
    indices, [overlapping] the group collected so far. *)
Fixpoint collectOverlapping (regions : list Region) (mainRegion : Region)
    (js : list nat) (used : gset nat) (overlapping : list Region)
    : gset nat * list Region :=
  match js with
  | [] => (used, overlapping)
  | j :: js' =>
    if bool_decide (j ∈ used)
    then collectOverlapping regions mainRegion js' used overlapping
    else
      match regions !! j with
      | None => collectOverlapping regions mainRegion js' used overlapping
      | Some otherRegion =>
        if mergeable mainRegion otherRegion
        then collectOverlapping regions mainRegion js'
               ({[ j ]} ∪ used) (overlapping ++ [otherRegion])
        else collectOverlapping regions mainRegion js' used overlapping
      end
  end.

(** The outer loop [for (i = 0; i < regions.length; i++)]. *)
Fixpoint consolidateFrom (regions : list Region) (todo : list nat)
    (used : gset nat) (consolidated : list Region) : list Region :=
  match todo with
  | [] => consolidated
  | i :: todo' =>
    if bool_decide (i ∈ used)
    then consolidateFrom regions todo' used consolidated
    else
      match regions !! i with
      | None => consolidateFrom regions todo' used consolidated
      | Some mainRegion =>
        let '(used', overlapping) :=
          collectOverlapping regions mainRegion
            (seq (S i) (length regions - S i)) ({[ i ]} ∪ used) [mainRegion] in
        let pushed :=
          if Nat.ltb 1 (length overlapping)
          then default mainRegion (mergeRegions overlapping)
          else mainRegion in
        consolidateFrom regions todo' used' (consolidated ++ [pushed])
      end
  end.

Definition consolidateOverlappingRegions (regions : list Region) : list Region :=
  consolidateFrom regions (seq 0 (length regions)) ∅ [].

(** *** Significance filter *)

(** [region.area >= maxArea * 0.02]: the double nearest to 0.02 exceeds
    1/50 by a relative 2·10⁻¹⁷, less than half a unit in the last place,
    so the rounded product is below, equal to or above the integer
    [region.area] exactly as [maxArea / 50] is. *)
Definition isSignificant (maxArea : Z) (region : Region) : bool :=
  if String.eqb (color region) "red" then true
  else if Js.gtb (aspectRatio (bounds region)) 15 && (50 <? area region) then true
  else if Js.gtb (aspectRatio (bounds region)) 8 && (200 <? area region) then true
  else if String.eqb (color region) "black"
          && ((Bounds.width (bounds region) <=? 5)
              || (Bounds.height (bounds region) <=? 5))
          && (100 <? area region) then true
  else maxArea <=? 50 * area region.

Definition filterSignificantRegions (regions : list Region) : list Region :=
  match regions with
  | [] => regions
  | _ =>
    let maxArea := Js.max_list (map area regions) in
    filter (fun region => isSignificant maxArea region = true) regions
  end.

(** *** Sorting by area, largest first

    [regions.sort((a, b) => b.area - a.area)]: [Array.prototype.sort] is
    stable, and a stable sort by a total preorder has one result; a
    stable insertion sort computes it. *)
Fixpoint insertByArea (r : Region) (sorted : list Region) : list Region :=
  match sorted with
  | [] => [r]
  | s :: rest =>
    if area s <=? area r then r :: s :: rest
    else s :: insertByArea r rest
  end.

Definition sortByAreaDesc (regions : list Region) : list Region :=
  foldr insertByArea [] regions.

(** *** Sampled flood fill

    The flood fill is a [while] loop over a work queue.  It is embedded
    with a step budget; [steps_exhausted] is not an answer of the source
    but of the budget (see [floodFillLoop_terminates] for a budget that
    always suffices).  A read past the end of the pixel buffer would give
    [undefined] in the source; the buffers the analyzer receives hold
    exactly [4 * width * height] bytes, and the embedding reports such a
    read as [short_buffer] instead of following [undefined] through the
    arithmetic. *)
Inductive outcome (A : Type) : Type :=
| finished (a : A)
| steps_exhausted
| short_buffer.
Arguments finished {A} a.
Arguments steps_exhausted {A}.
Arguments short_buffer {A}.

Definition obind {A B} (m : outcome A) (k : A -> outcome B) : outcome B :=
  match m with
  | finished a => k a
  | steps_exhausted => steps_exhausted
  | short_buffer => short_buffer
  end.

#[local] Notation "x <-- m ;; k" := (obind m (fun x => k))
  (at level 20, m at level 99, k at level 200, only parsing).
#[local] Notation "' pat <-- m ;; k" := (obind m (fun pat => k))
  (at level 20, pat pattern, m at level 99, k at level 200, only parsing).

Fixpoint foldOutcome {A S : Type} (f : S -> A -> outcome S)
    (l : list A) (s : S) : outcome S :=
  match l with
  | [] => finished s
  | a :: l' => s' <-- f s a;; foldOutcome f l' s'
  end.

(** The four bytes of the pixel at [(x, y)]:
    [data[index]], ..., [data[index + 3]] with
    [index = (y * width + x) * 4]. *)
Definition readPixel (data : list Z) (width x y : Z) : option (Z * Z * Z * Z) :=
  let index := (y * width + x) * 4 in
  if index <? 0 then None
  else
    r ← data !! Z.to_nat index;
    g ← data !! Z.to_nat (index + 1);
    b ← data !! Z.to_nat (index + 2);
    a ← data !! Z.to_nat (index + 3);
    Some (r, g, b, a).

(** The tests one dequeued pixel passes through, in the order of the
    source: [false] where the source says [continue], [true] where the
    pixel joins the region. *)
Definition acceptsPixel (data : list Z) (width height : Z)
    (targetR targetG targetB : Z) (regionVisited visited : gset (Z * Z))
    (x y : Z) : outcome bool :=
  if bool_decide ((x, y) ∈ regionVisited) || bool_decide ((x, y) ∈ visited)
  then finished false
  else if (x <? 0) || (width <=? x) || (y <? 0) || (height <=? y)
  then finished false
  else
    match readPixel data width x y with
    | None => short_buffer
    | Some (r, g, b, a) =>
      if a <? 128 then finished false
      else if colorTolerance * colorTolerance
              <? sqDistance r g b targetR targetG targetB
      then finished false
      else finished true
    end.

(** [while (queue.length > 0)] of [floodFillRegion].  The string key
    [`${x},${y}`] is modelled by the pair it encodes. *)
Fixpoint floodFillLoop (fuel : nat) (data : list Z) (width height : Z)
    (targetR targetG targetB : Z) (step : Z)
    (queue : list (Z * Z)) (regionVisited visited : gset (Z * Z))
    (pixels : list (Z * Z)) {struct fuel}
    : outcome (list (Z * Z) * gset (Z * Z)) :=
  match queue with
  | [] => finished (pixels, visited)
  | (x, y) :: queue' =>
    match fuel with
    | O => steps_exhausted
    | S fuel' =>
      match acceptsPixel data width height targetR targetG targetB
              regionVisited visited x y with
      | finished false =>
        floodFillLoop fuel' data width height targetR targetG targetB step
          queue' regionVisited visited pixels
      | finished true =>
        let neighborStep := Z.min step 2 in
        floodFillLoop fuel' data width height targetR targetG targetB step
          (queue' ++ [ (x + neighborStep, y); (x - neighborStep, y);
                       (x, y + neighborStep); (x, y - neighborStep) ])
          ({[ (x, y) ]} ∪ regionVisited) ({[ (x, y) ]} ∪ visited)
          (pixels ++ [(x, y)])
      | steps_exhausted => steps_exhausted
      | short_buffer => short_buffer
      end
    end
  end.

(** [floodFillRegion]: the collected pixels ([null] when there are none)
    and the caller's [visited] set as the call leaves it. *)
Definition floodFillRegion (fuel : nat) (data : list Z) (width height : Z)
    (startX startY targetR targetG targetB : Z) (visited : gset (Z * Z))
    (step : Z) : outcome (option (list (Z * Z)) * gset (Z * Z)) :=
  '(pixels, visited') <--
    floodFillLoop fuel data width height targetR targetG targetB step
      [(startX, startY)] ∅ visited [];;
  finished (if Nat.ltb 0 (length pixels) then Some pixels else None, visited').

(** *** Region extraction *)

Definition step : Z := 2.

(** The values of [v] in [for (let v = 0; v < limit; v += step)]. *)
Definition gridCoordinates (limit : Z) : list Z :=
  map (fun i => step * Z.of_nat i) (seq 0 (Z.to_nat ((limit + step - 1) / step))).

Definition minAreaThreshold (color : string) (bounds : Bounds.t) : Z :=
  let aspectRatio := aspectRatio bounds in
  if Js.gtb aspectRatio 20 then 50
  else if Js.gtb aspectRatio 8 then 200
  else if String.eqb color "red" then 150
  else if String.eqb color "black"
          && ((Bounds.width bounds <=? 5) || (Bounds.height bounds <=? 5))
  then 100
  else minRegionSize.

(** The body of the two nested scanning loops, for one sampled pixel. *)
Definition scanPixel (fuel : nat) (data : list Z) (width height : Z) (y : Z)
    (st : gset (Z * Z) * list Region) (x : Z)
    : outcome (gset (Z * Z) * list Region) :=
  let '(visited, regions) := st in
  if bool_decide ((x, y) ∈ visited) then finished st
  else
    match readPixel data width x y with
    | None => short_buffer
    | Some (r, g, b, a) =>
      if a <? 128 then finished st
      else
        '(region, visited') <--
          floodFillRegion fuel data width height x y r g b visited step;;
        match region with
        | Some pixels =>
          if Nat.leb 5 (length pixels) then
            let bounds := calculateBounds pixels in
            let area := Bounds.width bounds * Bounds.height bounds in
            let color := rgbToColorName r g b in
            if minAreaThreshold color bounds <=? area
            then finished
                   (visited',
                    regions ++ [ mkRegion color (rgbToHex r g b) (Rgb.mk r g b)
                                   bounds area (Z.of_nat (length pixels)) ])
            else finished (visited', regions)
          else finished (visited', regions)
        | None => finished (visited', regions)
        end
    end.

Definition scanRow (fuel : nat) (data : list Z) (width height : Z)
    (st : gset (Z * Z) * list Region) (y : Z)
    : outcome (gset (Z * Z) * list Region) :=
  foldOutcome (scanPixel fuel data width height y) (gridCoordinates width) st.

(** The raw regions the scan admits, before consolidation. *)
Definition scanRegions (fuel : nat) (data : list Z) (width height : Z)
    : outcome (list Region) :=
  '(_, regions) <--
    foldOutcome (scanRow fuel data width height) (gridCoordinates height) (∅, []);;
  finished regions.

Definition findMajorRegions (fuel : nat) (data : list Z) (width height : Z)
    : outcome (list Region) :=
  regions <-- scanRegions fuel data width height;;
  let consolidatedRegions := consolidateOverlappingRegions regions in
  let filteredRegions := filterSignificantRegions consolidatedRegions in
  finished (sortByAreaDesc filteredRegions).

(** *** Instructions and score *)

Definition findBestColorMatch (targetRegion : Region)
    (generatedRegions : list Region) : option Region :=
  find (fun region => String.eqb (color region) (color targetRegion))
       generatedRegions.

Definition positionDiff (targetRegion matchingRegion : Region) : Z :=
  Z.abs (Bounds.x (bounds targetRegion) - Bounds.x (bounds matchingRegion))
  + Z.abs (Bounds.y (bounds targetRegion) - Bounds.y (bounds matchingRegion)).

Definition sizeDiff (targetRegion matchingRegion : Region) : Z :=
  Z.abs (Bounds.width (bounds targetRegion) - Bounds.width (bounds matchingRegion))
  + Z.abs (Bounds.height (bounds targetRegion) - Bounds.height (bounds matchingRegion)).

(** The line one target region contributes, if any. *)
Definition instructionFor (generatedRegions : list Region)
    (targetRegion : Region) : option string :=
  let b := bounds targetRegion in
  let isLine := Js.gtb (aspectRatio b) 8 in
  let shapeType := if isLine then "line" else "rectangle" in
  match findBestColorMatch targetRegion generatedRegions with
  | None =>
    if isLine then
      Some ("Add " +:+ hex targetRegion +:+ " " +:+ shapeType +:+ ": "
            +:+ (if Bounds.height b <? Bounds.width b
                 then "horizontal" else "vertical")
            +:+ " at (" +:+ Js.show (Bounds.x b) +:+ ", " +:+ Js.show (Bounds.y b)
            +:+ "), size " +:+ Js.show (Bounds.width b) +:+ "x"
            +:+ Js.show (Bounds.height b))
    else
      Some ("Add " +:+ hex targetRegion +:+ " " +:+ shapeType +:+ ": rect("
            +:+ Js.show (Bounds.x b) +:+ ", " +:+ Js.show (Bounds.y b) +:+ ", "
            +:+ Js.show (Bounds.width b) +:+ ", " +:+ Js.show (Bounds.height b)
            +:+ ")")
  | Some matchingRegion =>
    if (15 <? positionDiff targetRegion matchingRegion)
       || (15 <? sizeDiff targetRegion matchingRegion)
    then
      Some ("Fix " +:+ hex targetRegion +:+ " " +:+ shapeType +:+ ": move to ("
            +:+ Js.show (Bounds.x b) +:+ ", " +:+ Js.show (Bounds.y b)
            +:+ ") and resize to " +:+ Js.show (Bounds.width b) +:+ "x"
            +:+ Js.show (Bounds.height b))
    else None
  end.

Definition createSimpleInstructions
    (targetRegions generatedRegions : list Region) : list string :=
  let mainTargetRegions := take 5 targetRegions in
  let instructions :=
    foldl (fun instructions targetRegion =>
             match instructionFor generatedRegions targetRegion with
             | Some line => instructions ++ [line]
             | None => instructions
             end) [] mainTargetRegions in
  take 4 instructions.

(** One pass of the scoring loop body. *)
Definition scoreStep (generatedRegions : list Region)
    (score : Z) (targetRegion : Region) : Z :=
  match findBestColorMatch targetRegion generatedRegions with
  | None => score - 25
  | Some match_ =>
    let positionDiff := positionDiff targetRegion match_ in
    let sizeDiff := sizeDiff targetRegion match_ in
    let score :=
      if 50 <? positionDiff then score - 5
      else if 20 <? positionDiff then score - 2
      else score in
    if 50 <? sizeDiff then score - 5
    else if 20 <? sizeDiff then score - 2
    else score
  end.

(** [Math.max(0, Math.round(score))]; [score] is an integer, which
    [Math.round] leaves as it is. *)
Definition calculateSimpleScore
    (targetRegions generatedRegions : list Region) : Z :=
  let mainTargetRegions := take 4 targetRegions in
  let score := foldl (scoreStep generatedRegions) 100 mainTargetRegions in
  Z.max 0 score.

End SimplifiedPixelAnalyzer.

(** ** Exceptions

    Calls to the generation gateway, the renderer and the judges may throw.
    A computation either returns a value or throws an error message. *)

Module Exc.

Inductive t (A : Type) : Type :=
| Return (a : A)
| Throw (e : string).
Arguments Return {A} a.
Arguments Throw {A} e.

Definition bind {A B} (m : t A) (k : A -> t B) : t B :=
  match m with
  | Return a => k a
  | Throw e => Throw e
  end.

Module Syntax.
Notation "x <-- m ;; k" := (bind m (fun x => k))
  (at level 20, m at level 99, k at level 200, only parsing).
Notation "' pat <-- m ;; k" := (bind m (fun pat => k))
  (at level 20, pat pattern, m at level 99, k at level 200, only parsing).
End Syntax.

End Exc.

(** What [ErrorDetector.detectErrors] reports about one page load. *)
Module ErrorDetector.

Record ErrorEntry := mkError { type : string; message : string }.

Record ErrorResult := mkResult {
  hasErrors : bool;
  errors : list ErrorEntry;
  canvasExists : bool
}.

Definition newline : string := String (Ascii.ascii_of_nat 10) EmptyString.

(** [lines.join('\n')] *)
Fixpoint join (lines : list string) : string :=
  match lines with
  | [] => ""
  | [l] => l
  | l :: rest => l +:+ newline +:+ join rest
  end.

(** [list.map((item, index) => `${index + 1}. ${f(item)}`)] *)
Definition numbered {A} (f : A -> string) (l : list A) : list string :=
  imap (fun index item => Js.show (Z.of_nat index + 1) +:+ ". " +:+ f item) l.

Definition formatErrorsForGemini (errorResult : ErrorResult) : option string :=
  if negb (hasErrors errorResult) then None
  else
    Some (join ([ "JavaScript errors detected in your code:"; "" ]
                ++ numbered message (errors errorResult)
                ++ [ "";
                     "Please fix ONLY these JavaScript errors while keeping the visual intent intact." ])).

(** What the page does while [detectErrors] watches it: the messages it
    writes to the console and the exceptions it leaves uncaught, in the
    order of their arrival. *)
Inductive PageEvent : Type :=
| consoleMessage (type text : string)
| pageError (message : string).

(** How [page.goto] and the look for the canvas end. *)
Inductive PageLoad : Type :=
| pageLoaded (canvasExists : bool)
| pageLoadFailed (message : string).

(** The entries the two listeners push onto [errors]. *)
Fixpoint reportedErrors (events : list PageEvent) : list ErrorEntry :=
  match events with
  | [] => []
  | consoleMessage type text :: events' =>
    if String.eqb type "error"
    then mkError "console_error" text :: reportedErrors events'
    else reportedErrors events'
  | pageError message :: events' =>
    mkError "page_error" message :: reportedErrors events'
  end.

(** [detectErrors] for a page that could be opened.  [before] are the
    events up to the [return], [after] those that arrive while the
    [finally] block closes the page: the listeners push them onto the
    array the returned object already holds, after [hasErrors] was
    computed from its length. *)
Definition detectErrors (before : list PageEvent) (load : PageLoad)
    (after : list PageEvent) : ErrorResult :=
  match load with
  | pageLoaded canvasExists =>
    let errors :=
      reportedErrors before
      ++ (if canvasExists then []
          else [ mkError "no_canvas"
                   "No canvas element found - P5.js may not have initialized properly" ]) in
    mkResult (Nat.ltb 0 (length errors)) (errors ++ reportedErrors after) canvasExists
  | pageLoadFailed message =>
    let errors :=
      reportedErrors before
      ++ [ mkError "load_error" ("Failed to load page: " +:+ message) ] in
    mkResult true (errors ++ reportedErrors after) false
  end.

(** The line [formatErrors] writes for one error. *)
Definition describe (error : ErrorEntry) : string :=
  if String.eqb (type error) "console_error" then "Console Error: " +:+ message error
  else if String.eqb (type error) "page_error" then "JavaScript Error: " +:+ message error
  else if String.eqb (type error) "no_canvas" then "P5.js Error: " +:+ message error
  else if String.eqb (type error) "load_error" then "Loading Error: " +:+ message error
  else "Unknown Error: " +:+ message error.

Definition formatErrors (errorResult : ErrorResult) : string :=
  if negb (hasErrors errorResult) then "No JavaScript errors detected."
  else join (map describe (errors errorResult)).

End ErrorDetector.

(** ** The universal orchestrator *)

Module UniversalOrchestrator.
Import Exc Exc.Syntax ErrorDetector.

(** The [config] object handed to the constructor; [None] is an absent
    field.  The two keys stand for the field or, in its absence, the
    environment variable the constructor falls back to. *)
Record Config := mkConfig {
  geminiApiKey : option string;
  groqApiKey : option string;
  cfg_maxIterations : option Z;
  cfg_targetScore : option Z;
  cfg_evaluationMode : option string
}.

Record Orchestrator := mkOrchestrator {
  hasGroqEvaluator : bool;
  maxIterations : Z;
  targetScore : Z;
  evaluationMode : string;
  maxFixAttempts : nat
}.

(** [v || d] for an optional number: [undefined] and [0] are falsy. *)
Definition orNumber (v : option Z) (d : Z) : Z :=
  match v with
  | Some n => if n =? 0 then d else n
  | None => d
  end.

(** [v || d] for an optional string. *)
Definition orString (v : option string) (d : string) : string :=
  match v with
  | Some s => if Js.truthy s then s else d
  | None => d
  end.

Definition new (config : Config) : Exc.t Orchestrator :=
  if negb (Js.truthy_opt (geminiApiKey config))
  then Throw "Please set GEMINI_API_KEY in config or .env file"
  else
    Return
      (mkOrchestrator
         (Js.truthy_opt (groqApiKey config)
          && bool_decide (cfg_evaluationMode config = Some "dual"))
         (Z.min (Z.max (orNumber (cfg_maxIterations config) 5) 1) 7)
         (Z.min (Z.max (orNumber (cfg_targetScore config) 15) 1) 20)
         (orString (cfg_evaluationMode config) "self")
         3).

(** The answer of [geminiGenerator.compareImagesAndImprove], where the
    generator has such a method: it then catches its own errors and
    reports them in [success].  The generator of lib/geminiCodeGenerator.js
    defines [generateInitialCode] and [generateImprovedCode] only; with
    it the call itself throws a [TypeError] (see [Services]). *)
Record SelfComparison := mkSelf {
  success : bool;
  analysis : option string;
  error : option string
}.

(** The answer of [ImageEvaluator.compareImages].  Its score is parsed
    from a match of [[0-9](?:\.[0-9])?], or is 0 without a match: a
    number of tenths between 0 and 99. *)
Record GroqResult := mkGroq {
  score_tenths : N;
  description : string
}.

(** The collaborators of one session.  They are remote services; the
    leading [nat] arguments name the round (and the repair attempt) of a
    call, so that a service may answer the same request differently at
    different times.  [setupSession] stands for everything [runSession]
    does before the first round: creating the session directory and
    reading the target's dimensions.  A call of a method that the
    collaborator does not define throws a [TypeError]; it is a [Throw]
    like every other exception. *)
Record Services := mkServices {
  setupSession : Exc.t unit;
  generateInitialCode : Exc.t string;
  generateImprovedCode : nat -> option string -> option string -> Exc.t string;
  detectErrors : nat -> nat -> string -> Exc.t ErrorResult;
  fixJavaScriptErrors : nat -> nat -> string -> ErrorResult -> Exc.t string;
  captureSketch : nat -> string -> Exc.t unit;
  compareImagesAndImprove : nat -> string -> Exc.t SelfComparison;
  compareImages : nat -> string -> Exc.t GroqResult;
  createSessionSummary : Exc.t unit
}.

Definition generateCode (sv : Services) (previousCode previousFeedback : option string)
    (iteration : nat) : Exc.t string :=
  if Nat.eqb iteration 1 then generateInitialCode sv
  else generateImprovedCode sv iteration previousCode previousFeedback.

(** [handleErrors]: [attempts] are the values of [fixAttempt] still to
    run. *)
Fixpoint handleErrorsFrom (o : Orchestrator) (sv : Services) (iteration : nat)
    (attempts : list nat) (finalCode : string) : Exc.t string :=
  match attempts with
  | [] => Return finalCode
  | fixAttempt :: attempts' =>
    errorResult <-- detectErrors sv iteration fixAttempt finalCode;;
    if negb (hasErrors errorResult) && canvasExists errorResult
    then Return finalCode
    else if Nat.eqb fixAttempt (maxFixAttempts o) then Return finalCode
    else
      fixed <-- fixJavaScriptErrors sv iteration fixAttempt finalCode errorResult;;
      if Js.truthy fixed && negb (String.eqb fixed finalCode)
      then handleErrorsFrom o sv iteration attempts' fixed
      else Return finalCode
  end.

Definition handleErrors (o : Orchestrator) (sv : Services) (code : string)
    (iteration : nat) : Exc.t string :=
  handleErrorsFrom o sv iteration (seq 1 (maxFixAttempts o)) code.

Record Evaluation := mkEvaluation {
  ev_score : Z;
  ev_feedback : string;
  evaluationMethod : string
}.

(** [Math.round(groqResult.score * 2)] for a score of [n] tenths: the
    doubled score is [n / 5], never half-way between two integers. *)
Definition roundDoubled (n : N) : Z := (2 * Z.of_N n + 5) / 10.

Definition evaluateIteration (o : Orchestrator) (sv : Services)
    (code : string) (iteration : nat) : Exc.t Evaluation :=
  if String.eqb (evaluationMode o) "self" then
    result <-- compareImagesAndImprove sv iteration code;;
    Return (mkEvaluation
              (if success result then 10 else 0)
              (if Js.truthy_opt (analysis result) then default "" (analysis result)
               else if Js.truthy_opt (error result) then default "" (error result)
               else "No feedback available")
              "gemini_self")
  else if String.eqb (evaluationMode o) "dual" then
    if negb (hasGroqEvaluator o)
    then Throw "Groq evaluator not initialized. Please provide GROQ_API_KEY for dual mode."
    else
      groqResult <-- compareImages sv iteration code;;
      Return (mkEvaluation (roundDoubled (score_tenths groqResult))
                (description groqResult) "groq_llm")
  else Throw ("Unknown evaluation mode: " +:+ evaluationMode o).

(** One recorded round: what [iteration<n>.html] and
    [iteration<n>_evaluation.json] hold once the round is complete. *)
Record Iteration := mkIteration {
  iteration : nat;
  code : string;
  score : Z;
  feedback : string
}.

(** The variables of [runSession] that live across rounds, with the
    rounds recorded so far. *)
Record LoopState := mkState {
  previousCode : option string;
  previousFeedback : option string;
  bestScore : Z;
  bestIteration : nat;
  bestCode : option string;
  currentIteration : nat;
  iterations : list Iteration
}.

Definition initialState : LoopState :=
  mkState None None 0 1 None 1 [].

(** The body of the round loop.  The boolean says whether the round ended
    in [break]. *)
Definition runIteration (o : Orchestrator) (sv : Services) (n : nat)
    (st : LoopState) : Exc.t (LoopState * bool) :=
  generated <-- generateCode sv (previousCode st) (previousFeedback st) n;;
  finalCode <-- handleErrors o sv generated n;;
  _ <-- captureSketch sv n finalCode;;
  evaluation <-- evaluateIteration o sv finalCode n;;
  let recorded :=
    iterations st ++ [ mkIteration n finalCode (ev_score evaluation)
                         (ev_feedback evaluation) ] in
  let improved := bestScore st <? ev_score evaluation in
  let bestScore' := if improved then ev_score evaluation else bestScore st in
  let bestIteration' := if improved then n else bestIteration st in
  let bestCode' := if improved then Some finalCode else bestCode st in
  if targetScore o <=? ev_score evaluation
  then Return (mkState (previousCode st) (previousFeedback st)
                 bestScore' bestIteration' bestCode' n recorded, true)
  else Return (mkState (Some finalCode) (Some (ev_feedback evaluation))
                 bestScore' bestIteration' bestCode' n recorded, false).

(** How the round loop ends: by running out of rounds or by [break]
    ([loop_done]), or with an exception raised in some round
    ([loop_threw], with the state the failing round started from). *)
Inductive LoopOutcome : Type :=
| loop_done (st : LoopState)
| loop_threw (e : string) (st : LoopState).

(** [for (let iteration = 1; iteration <= this.maxIterations; iteration++)],
    [rounds] being the values of [iteration] still to run. *)
Fixpoint runIterations (o : Orchestrator) (sv : Services) (rounds : list nat)
    (st : LoopState) : LoopOutcome :=
  match rounds with
  | [] => loop_done st
  | n :: rounds' =>
    match runIteration o sv n st with
    | Throw e => loop_threw e st
    | Return (st', true) => loop_done st'
    | Return (st', false) => runIterations o sv rounds' st'
    end
  end.

Record SessionResult := mkSessionResult {
  res_bestScore : Z;
  res_bestIteration : nat;
  totalIterations : nat;
  targetReached : bool
}.

(** The end of a session: [runSession] returns its result, or rethrows
    the error it caught.  Either way the rounds recorded in the session
    directory remain. *)
Inductive SessionOutcome : Type :=
| completed (result : SessionResult) (recorded : list Iteration)
| failed (e : string) (recorded : list Iteration).

Definition recordedRounds (out : SessionOutcome) : list Iteration :=
  match out with
  | completed _ recorded => recorded
  | failed _ recorded => recorded
  end.

Definition runSession (o : Orchestrator) (sv : Services) : SessionOutcome :=
  match setupSession sv with
  | Throw e => failed e []
  | Return _ =>
    match runIterations o sv (seq 1 (Z.to_nat (maxIterations o))) initialState with
    | loop_threw e st => failed e (iterations st)
    | loop_done st =>
      match createSessionSummary sv with
      | Throw e => failed e (iterations st)
      | Return _ =>
        completed (mkSessionResult (bestScore st) (bestIteration st) (currentIteration st)
                     (targetScore o <=? bestScore st))
                  (iterations st)
      end
    end
  end.

(** A session from its configuration: construct the orchestrator, then
    run. *)
Definition session (config : Config) (sv : Services) : SessionOutcome :=
  match new config with
  | Throw e => failed e []
  | Return o => runSession o sv
  end.

End UniversalOrchestrator.

(** ** The pixel-feedback loop *)

Module PixelFeedbackLoopTest.
Import Exc Exc.Syntax ErrorDetector.
Import SimplifiedPixelAnalyzer.

(** The constructor's settings. *)
Definition maxIterations : nat := 10.
Definition targetScore : Z := 95.
Definition maxFixAttempts : nat := 5.
Definition maxFallbacks : Z := 3.

(** The collaborators of one run.  [analyzeTarget] and [analyzeGenerated]
    stand for [analyzeTargetStructure] on the target image and on the
    screenshot of a round: decoding an image file and extracting its
    regions.  As in [UniversalOrchestrator.Services], leading [nat]
    arguments name the round and the repair attempt of a call. *)
Record Services := mkServices {
  setupSession : Exc.t unit;
  analyzeTarget : Exc.t (list Region);
  generateInitialCode : Exc.t string;
  generateImprovedCode : nat -> option string -> option string -> Exc.t string;
  detectErrors : nat -> nat -> string -> Exc.t ErrorResult;
  fixJavaScriptErrors : nat -> nat -> string -> option string -> Exc.t string;
  captureSketch : nat -> string -> Exc.t unit;
  analyzeGenerated : nat -> string -> Exc.t (list Region);
  createSessionSummary : Exc.t unit
}.

Definition formatInstructionsForGemini (instructions : list string) : string :=
  if Nat.eqb (length instructions) 0
  then "Perfect! The image matches the target exactly."
  else
    join ([ "Based on precise pixel analysis, make these exact changes:"; "" ]
          ++ numbered (fun instruction => instruction) instructions
          ++ [ "";
               "Use exact coordinates and sizes as specified. Do not change other elements that are working correctly." ]).

(** One page load seen by the error detector: the code that was loaded
    and whether errors were reported.  The log of all loads of a run is
    kept to state what the fallback falls back to. *)
Record Render := mkRender {
  rendered : string;
  withErrors : bool
}.

(** The code of the most recent load without errors. *)
Definition lastCleanRender (log : list Render) : option string :=
  rendered <$> find (fun l => negb (withErrors l)) (reverse log).

Record Iteration := mkIteration {
  iteration : nat;
  code : string;
  score : Z;
  instructions : list string
}.

(** The variables of [runPixelFeedbackLoop] that live across rounds, the
    rounds recorded so far and the log of page loads. *)
Record LoopState := mkState {
  previousCode : option string;
  pixelInstructions : option string;
  bestScore : Z;
  bestIteration : nat;
  currentIteration : nat;
  lastWorkingCode : option string;
  fallbackCount : Z;
  iterations : list Iteration;
  renderLog : list Render
}.

Definition initialState : LoopState :=
  mkState None None 0 1 1 None 0 [] [].

(** What the repair loop of one round leaves behind. *)
Record Repair := mkRepair {
  finalCode : string;
  errorFixed : bool;
  rp_lastWorkingCode : option string;
  rp_renderLog : list Render
}.

(** [for (let fixAttempt = 1; fixAttempt <= this.maxFixAttempts; fixAttempt++)],
    [attempts] being the values of [fixAttempt] still to run. *)
Fixpoint fixLoop (sv : Services) (n : nat) (attempts : list nat)
    (finalCode : string) (lastWorkingCode : option string)
    (log : list Render) : Exc.t Repair :=
  match attempts with
  | [] => Return (mkRepair finalCode false lastWorkingCode log)
  | fixAttempt :: attempts' =>
    errorResult <-- detectErrors sv n fixAttempt finalCode;;
    let log' := log ++ [ mkRender finalCode (hasErrors errorResult) ] in
    if negb (hasErrors errorResult)
    then Return (mkRepair finalCode true (Some finalCode) log')
    else if Nat.eqb fixAttempt maxFixAttempts
    then Return (mkRepair finalCode false lastWorkingCode log')
    else
      let errorMessage := formatErrorsForGemini errorResult in
      fixed <-- fixJavaScriptErrors sv n fixAttempt finalCode errorMessage;;
      fixLoop sv n attempts' fixed lastWorkingCode log'
  end.

(** The fallback that follows the repair loop:
    [if (!errorFixed && lastWorkingCode && fallbackCount < this.maxFallbacks)]. *)
Definition applyFallback (rp : Repair) (fallbackCount : Z) : Repair * Z :=
  if negb (errorFixed rp) && Js.truthy_opt (rp_lastWorkingCode rp)
     && (fallbackCount <? maxFallbacks)
  then (mkRepair (default "" (rp_lastWorkingCode rp)) true
          (rp_lastWorkingCode rp) (rp_renderLog rp),
        fallbackCount + 1)
  else (rp, fallbackCount).

(** Error detection, repair and fallback of round [n] for freshly
    generated [code]. *)
Definition ensureRenderable (sv : Services) (n : nat) (code : string)
    (st : LoopState) : Exc.t (Repair * Z) :=
  rp <-- fixLoop sv n (seq 1 maxFixAttempts) code (lastWorkingCode st) (renderLog st);;
  Return (applyFallback rp (fallbackCount st)).

(** The generation request of round [n], the [if (iteration === 1)] at the
    head of the loop body. *)
Definition generate (sv : Services) (n : nat) (st : LoopState) : Exc.t string :=
  if Nat.eqb n 1 then generateInitialCode sv
  else generateImprovedCode sv n (previousCode st) (pixelInstructions st).

(** The body of the round loop; the boolean says whether the round ended
    in [break]. *)
Definition runIteration (sv : Services) (targetRegions : list Region) (n : nat)
    (st : LoopState) : Exc.t (LoopState * bool) :=
  generated <-- generate sv n st;;
  '(rp, fallbackCount') <-- ensureRenderable sv n generated st;;
  _ <-- captureSketch sv n (finalCode rp);;
  generatedRegions <-- analyzeGenerated sv n (finalCode rp);;
  let instructions := createSimpleInstructions targetRegions generatedRegions in
  let score := calculateSimpleScore targetRegions generatedRegions in
  let recorded :=
    iterations st ++ [ mkIteration n (finalCode rp) score instructions ] in
  let improved := bestScore st <? score in
  let bestScore' := if improved then score else bestScore st in
  let bestIteration' := if improved then n else bestIteration st in
  if targetScore <=? score
  then Return (mkState (previousCode st) (pixelInstructions st)
                 bestScore' bestIteration' n (rp_lastWorkingCode rp)
                 fallbackCount' recorded (rp_renderLog rp), true)
  else Return (mkState (Some (finalCode rp))
                 (Some (formatInstructionsForGemini instructions))
                 bestScore' bestIteration' n (rp_lastWorkingCode rp)
                 fallbackCount' recorded (rp_renderLog rp), false).

(** The states a run passes through between rounds. *)
Inductive reachable (sv : Services) (targetRegions : list Region)
    : nat -> LoopState -> Prop :=
| reach_start : reachable sv targetRegions 0 initialState
| reach_round n st st' :
    reachable sv targetRegions n st ->
    runIteration sv targetRegions (S n) st = Return (st', false) ->
    reachable sv targetRegions (S n) st'.

Inductive LoopOutcome : Type :=
| loop_done (st : LoopState)
| loop_threw (e : string) (st : LoopState).

Fixpoint runIterations (sv : Services) (targetRegions : list Region)
    (rounds : list nat) (st : LoopState) : LoopOutcome :=
  match rounds with
  | [] => loop_done st
  | n :: rounds' =>
    match runIteration sv targetRegions n st with
    | Throw e => loop_threw e st
    | Return (st', true) => loop_done st'
    | Return (st', false) => runIterations sv targetRegions rounds' st'
    end
  end.

(** The object [runPixelFeedbackLoop] returns: it catches every error and
    reports it in [success]. *)
Record LoopResult := mkLoopResult {
  success : bool;
  error : option string;
  res_bestScore : Z;
  res_bestIteration : nat;
  targetReached : bool;
  recorded : list Iteration
}.

Definition failure (e : string) (recorded : list Iteration) : LoopResult :=
  mkLoopResult false (Some e) 0 0 false recorded.

Definition runPixelFeedbackLoop (sv : Services) : LoopResult :=
  match setupSession sv with
  | Throw e => failure e []
  | Return _ =>
    match analyzeTarget sv with
    | Throw e => failure e []
    | Return targetRegions =>
      match runIterations sv targetRegions (seq 1 maxIterations) initialState with
      | loop_threw e st => failure e (iterations st)
      | loop_done st =>
        match createSessionSummary sv with
        | Throw e => failure e (iterations st)
        | Return _ =>
          mkLoopResult true None (bestScore st) (bestIteration st)
            (targetScore <=? bestScore st) (iterations st)
        end
      end
    end
  end.

End PixelFeedbackLoopTest.

(** ** The second judge's score

    [ImageEvaluator.compareImages] (lib/evaluator.js) reads the score out
    of the judge's reply with
    [evaluation.match(/(?:score|similarity)[:\s]*([0-9](?:\.[0-9])?)/i)]
    and [parseFloat].  A reply is a JavaScript string, a sequence of
    UTF-16 code units. *)

Module ImageEvaluator.

(** The code units of a literal of the source (ASCII). *)
Definition codeUnits (s : string) : list N :=
  map (fun c => N.of_nat (Ascii.nat_of_ascii c)) (String.list_ascii_of_string s).

(** The class [\s]: white space and line terminators. *)
Definition isWhiteSpace (c : N) : bool :=
  bool_decide (c ∈ [ 9; 10; 11; 12; 13; 32; 160; 5760; 8232; 8233; 8239; 8287;
                     12288; 65279 ]%N)
  || ((8192 <=? c) && (c <=? 8202))%N.

(** The class [[0-9]]. *)
Definition isDigit (c : N) : bool := ((48 <=? c) && (c <=? 57))%N.

(** Matching under the flag [i].  The letters of the pattern are ASCII
    and written in lower case; a code unit of the text matches such a
    letter when it is that letter or its ASCII capital (no code unit
    outside ASCII is canonicalised to an ASCII letter). *)
Definition foldCase (c : N) : N :=
  if ((65 <=? c) && (c <=? 90))%N then (c + 32)%N else c.

(** The literal [word] at the head of [text]; the rest of the text after
    it. *)
Fixpoint matchWord (word text : list N) : option (list N) :=
  match word, text with
  | [], _ => Some text
  | p :: word', c :: text' =>
    if (foldCase c =? p)%N then matchWord word' text' else None
  | _ :: _, [] => None
  end.

(** [[:\s]*], greedy.  What follows in the pattern is a digit, which is
    not in the class, so giving back separators never helps and the
    longest run is the only one that can lead to a match. *)
Fixpoint skipSeparators (text : list N) : list N :=
  match text with
  | c :: text' =>
    if (c =? 58)%N || isWhiteSpace c then skipSeparators text' else text
  | [] => []
  end.

(** The group [([0-9](?:\.[0-9])?)] at the head of [text], read by
    [parseFloat]: a number with at most one decimal, given in tenths. *)
Definition matchNumber (text : list N) : option N :=
  match text with
  | d :: rest =>
    if isDigit d then
      match rest with
      | dot :: d' :: _ =>
        if (dot =? 46)%N && isDigit d'
        then Some (10 * (d - 48) + (d' - 48))%N
        else Some (10 * (d - 48))%N
      | _ => Some (10 * (d - 48))%N
      end
    else None
  | [] => None
  end.

(** The whole pattern at the head of [text], the alternatives of
    [(?:score|similarity)] in their order. *)
Definition matchAt (text : list N) : option N :=
  match matchWord (codeUnits "score") text
        ≫= (fun rest => matchNumber (skipSeparators rest)) with
  | Some n => Some n
  | None =>
    matchWord (codeUnits "similarity") text
    ≫= (fun rest => matchNumber (skipSeparators rest))
  end.

(** [String.prototype.match] without the flag [g]: the match that starts
    leftmost. *)
Fixpoint search (text : list N) : option N :=
  match matchAt text with
  | Some n => Some n
  | None =>
    match text with
    | [] => None
    | _ :: text' => search text'
    end
  end.

(** [scoreMatch ? parseFloat(scoreMatch[1]) : 0], in tenths. *)
Definition parseScore (evaluation : list N) : N :=
  default 0%N (search evaluation).

End ImageEvaluator.

(** ** The web API

    The server (server.js of the web demo) creates an orchestrator per
    session and follows its progress. *)

Module WebApi.
Import Exc UniversalOrchestrator.

(** The parts of a request to [POST /api/sessions/create] that the
    handler reads.  The two numbers are given as [parseInt] reads them
    from the body, [None] being [NaN]; [customPrompts] is what
    [JSON.parse] makes of that field when the body has it. *)
Record CreateRequest := mkCreateRequest {
  hasFile : bool;
  body_maxIterations : option Z;
  body_targetScore : option Z;
  body_evaluationMode : option string;
  body_customPrompts : Exc.t unit
}.

(** [s] between double quotes. *)
Definition quoted (s : string) : string :=
  String (Ascii.ascii_of_nat 34) s +:+ String (Ascii.ascii_of_nat 34) EmptyString.

Inductive CreateResponse : Type :=
| status400 (error : string)
| status500 (error : string)
| sessionCreated (config : Config) (orchestrator : Orchestrator).

(** The handler of [POST /api/sessions/create].  [envGeminiKey] and
    [envGroqKey] are the keys of the environment: the configuration the
    handler builds has none of its own. *)
Definition createSession (envGeminiKey envGroqKey : option string)
    (req : CreateRequest) : CreateResponse :=
  if negb (hasFile req) then status400 "No target image uploaded"
  else
    let maxIterations := orNumber (body_maxIterations req) 5 in
    let targetScore := orNumber (body_targetScore req) 15 in
    let evaluationMode := orString (body_evaluationMode req) "self" in
    match body_customPrompts req with
    | Throw e => status500 e
    | Return _ =>
      if (maxIterations <? 1) || (7 <? maxIterations)
      then status400 "maxIterations must be between 1 and 7"
      else if (targetScore <? 1) || (20 <? targetScore)
      then status400 "targetScore must be between 1 and 20"
      else if negb (String.eqb evaluationMode "self" || String.eqb evaluationMode "dual")
      then status400 ("evaluationMode must be " +:+ quoted "self" +:+ " or "
                      +:+ quoted "dual")
      else
        let config :=
          mkConfig envGeminiKey envGroqKey (Some maxIterations) (Some targetScore)
            (Some evaluationMode) in
        match new config with
        | Throw e => status500 e
        | Return orchestrator => sessionCreated config orchestrator
        end
    end.

(** What the orchestrator tells its progress callback; [None] is a field
    the call leaves out. *)
Record ProgressReport := mkReport {
  rp_iteration : option Z;
  rp_status : option string;
  rp_bestScore : option Z;
  rp_score : option Z
}.

(** One entry of [progress.iterations].  (The excerpt of the feedback and
    the time stamp, which nothing reads back, are left out.) *)
Record IterationData := mkIterationData {
  it_iteration : Z;
  it_score : Z;
  it_status : option string
}.

Record Progress := mkProgress {
  currentIteration : Z;
  totalIterations : Z;
  pr_bestScore : Z;
  pr_targetScore : Z;
  isComplete : bool;
  pr_status : option string;
  pr_iterations : list IterationData
}.

(** The state [POST /api/sessions/create] stores. *)
Definition initialProgress (config_maxIterations config_targetScore : Z) : Progress :=
  mkProgress 0 config_maxIterations 0 config_targetScore false None [].

(** [iterations.findIndex(iter => iter.iteration === n)] *)
Fixpoint findIndex (n : Z) (iterations : list IterationData) : option nat :=
  match iterations with
  | [] => None
  | iter :: rest =>
    if it_iteration iter =? n then Some O else S <$> findIndex n rest
  end.

(** [a || b] for an optional number. *)
Definition orElse (a : option Z) (b : Z) : Z :=
  match a with
  | Some n => if n =? 0 then b else n
  | None => b
  end.

(** The [progressCallback] of [generateInBackground]. *)
Definition progressCallback (progress : Progress) (report : ProgressReport)
    : Progress :=
  let updated :=
    mkProgress
      (orElse (rp_iteration report) (currentIteration progress))
      (totalIterations progress)
      (orElse (rp_bestScore report) (pr_bestScore progress))
      (pr_targetScore progress)
      (isComplete progress)
      (Some (orString (rp_status report) "running"))
      (pr_iterations progress) in
  match rp_iteration report, rp_score report with
  | Some n, Some score =>
    if n =? 0 then updated
    else
      let iterationData := mkIterationData n score (rp_status report) in
      mkProgress
        (currentIteration updated) (totalIterations updated)
        (pr_bestScore updated) (pr_targetScore updated)
        (isComplete updated) (pr_status updated)
        (match findIndex n (pr_iterations progress) with
         | Some existingIndex =>
           <[ existingIndex := iterationData ]> (pr_iterations progress)
         | None => pr_iterations progress ++ [iterationData]
         end)
  | _, _ => updated
  end.

End WebApi.

(** * The vocabulary of the properties, and example inputs *)

Section ScoringTerms.
Import SimplifiedPixelAnalyzer.

(** A red square of 100 × 100 pixels with its corner at [(x, y)]. *)
Definition redSquareAt (x y : Z) : Region :=
  mkRegion "red" "#FF0000" (Rgb.mk 255 0 0) (Bounds.mk x y 100 100) 10000 2500.

(** Two red squares of the same size, far apart. *)
Definition twoRedSquares : list Region :=
  [ redSquareAt 0 0; redSquareAt 200 200 ].

(** A white background with one red square on it. *)
Definition redAndWhite : list Region :=
  [ mkRegion "white" "#FFFFFF" (Rgb.mk 255 255 255) (Bounds.mk 0 0 298 298) 88804 22500;
    redSquareAt 100 100 ].

End ScoringTerms.

Section PositionErrorTerms.
Import SimplifiedPixelAnalyzer.

(** [c] with the corner of its bounding box moved to [(x, y)], everything
    else as it was. *)
Definition movedTo (c : Region) (x y : Z) : Region :=
  mkRegion (color c) (hex c) (rgb c)
    (Bounds.mk x y (Bounds.width (bounds c)) (Bounds.height (bounds c)))
    (area c) (pixelCount c).

(** The points deducted for a position or size difference [d]. *)
Definition deduction (d : Z) : Z :=
  if 50 <? d then 5 else if 20 <? d then 2 else 0.

End PositionErrorTerms.

Section ColorMatchTerms.
Import SimplifiedPixelAnalyzer.

(** Largest area first. *)
Definition byAreaDesc (a b : Region) : Prop := area b <= area a.

(** A small red target region. *)
Definition smallRedTarget : Region :=
  mkRegion "red" "#FF0000" (Rgb.mk 255 0 0) (Bounds.mk 200 200 20 20) 400 100.

(** Candidates for it: a large red region far from the target, then a
    small red region exactly on it. *)
Definition largeAndExact : list Region :=
  [ redSquareAt 0 0; smallRedTarget ].

End ColorMatchTerms.

Section ConsolidationTerms.
Import SimplifiedPixelAnalyzer.

(** No region of the list would absorb a later one. *)
Fixpoint noMergeablePair (regions : list Region) : bool :=
  match regions with
  | [] => true
  | r :: rest => forallb (fun o => negb (mergeable r o)) rest && noMergeablePair rest
  end.

(** A red box of 20 × 20 pixels at [(x, 0)]. *)
Definition redBox (x : Z) : Region :=
  mkRegion "red" "#FF0000" (Rgb.mk 255 0 0) (Bounds.mk x 0 20 20) 400 100.

(** Three red boxes in a row: the second touches the first, the third is
    beyond the margin of the first but within the margin of the box that
    the first two are merged into. *)
Definition threeInARow : list Region := [ redBox 0; redBox 20; redBox 42 ].

(** Two red boxes that touch and one far from both. *)
Definition twoTouching : list Region := [ redBox 0; redBox 20; redBox 100 ].

(** An image given pixel by pixel. *)
Definition imageOf (w h : nat) (pixel : nat -> nat -> list Z) : list Z :=
  flat_map (fun y => flat_map (fun x => pixel x y) (seq 0 w)) (seq 0 h).

(** A 44 × 44 image of opaque red with a 14 × 16 patch of a darker red;
    both shades are classified "red", and they are too far apart for one
    flood fill. *)
Definition redWithDarkerPatch : list Z :=
  imageOf 44 44
    (fun x y =>
       if (Nat.leb 10 x && Nat.ltb x 24 && Nat.leb 10 y && Nat.ltb y 26)%bool
       then [190; 0; 0; 255] else [255; 0; 0; 255]).

(** The two raw regions the scan admits in that image. *)
Definition redBackground : Region :=
  mkRegion "red" "#FF0000" (Rgb.mk 255 0 0) (Bounds.mk 0 0 42 42) 1764 428.

Definition darkerPatch : Region :=
  mkRegion "red" "#BE0000" (Rgb.mk 190 0 0) (Bounds.mk 10 10 12 14) 168 56.

End ConsolidationTerms.

Section ExtractionTerms.
Import SimplifiedPixelAnalyzer.

(** The buffer of a [width] × [height] RGBA image. *)
Definition wellFormed (data : list Z) (width height : Z) : Prop :=
  0 <= width /\ 0 <= height /\ Z.of_nat (length data) = 4 * width * height.

(** Every pixel has an alpha byte below the opacity threshold. *)
Definition fullyTransparent (data : list Z) : Prop :=
  forall (i : nat) (a : Z), data !! (4 * i + 3)%nat = Some a -> a < 128.

(** Some pixel has an alpha byte at or above the opacity threshold. *)
Definition hasOpaquePixel (data : list Z) : Prop :=
  exists (i : nat) (a : Z), data !! (4 * i + 3)%nat = Some a /\ 128 <= a.

(** The coordinates of all pixels of a [w] × [h] image. *)
Definition allPixels (w h : Z) : list (Z * Z) :=
  flat_map (fun x => map (pair x) (seqZ 0 h)) (seqZ 0 w).

(** The pixels of the image that are not marked in [visited]. *)
Definition unvisited (w h : Z) (visited : gset (Z * Z)) : gset (Z * Z) :=
  list_to_set (allPixels w h) ∖ visited.

(** A step budget that suffices for every flood fill over the image. *)
Definition enoughFuel (w h : Z) : nat := 1 + 5 * (Z.to_nat w * Z.to_nat h).

(** A region whose box has no negative side and whose area is not
    negative. *)
Definition wellShaped (r : Region) : Prop :=
  0 <= Bounds.width (bounds r) /\ 0 <= Bounds.height (bounds r) /\ 0 <= area r.

(** An image of one colour. *)
Definition solidImage (w h : nat) (r g b a : Z) : list Z :=
  concat (replicate (w * h) [r; g; b; a]).

(** 10 × 10 pixels of opaque red. *)
Definition opaqueRed10 : list Z := solidImage 10 10 255 0 0 255.

(** 4 × 4 pixels of fully transparent red. *)
Definition transparent4 : list Z := solidImage 4 4 255 0 0 0.

End ExtractionTerms.

Section UniversalRoundsTerms.
Import Exc UniversalOrchestrator.

(** The first recorded round with score [s]. *)
Definition earliestWithScore (s : Z) (recorded : list Iteration) : option nat :=
  iteration <$> find (fun it => score it =? s) recorded.

(** The tracked best is the maximum of the recorded scores, first reached
    in round [bestIteration]; before any round it is the initial (0, 1). *)
Definition bestTracked (st : LoopState) : Prop :=
  match iterations st with
  | [] => bestScore st = 0 /\ bestIteration st = 1%nat
  | _ =>
    bestScore st = Js.max_list (map score (iterations st))
    /\ earliestWithScore (bestScore st) (iterations st) = Some (bestIteration st)
  end.

(** The state between rounds: [k] rounds are recorded, numbered
    [1 .. k], with scores that are not negative, and the best is
    tracked. *)
Record roundsRecorded (k : nat) (st : LoopState) : Prop := mkRecorded {
  rec_numbers : map iteration (iterations st) = seq 1 k;
  rec_current : k <> 0%nat -> currentIteration st = k;
  rec_nonneg : forall it, it ∈ iterations st -> 0 <= score it;
  rec_best : bestTracked st
}.

(** All of the recorded scores are below the target. *)
Definition allBelow (o : Orchestrator) (recorded : list Iteration) : Prop :=
  forall it, it ∈ recorded -> score it < targetScore o.

(** C1 as stated, for a session [config], [sv]: the recorded rounds never
    exceed the maximum, and there are fewer of them than the maximum if
    and only if some recorded round reaches the target. *)
Definition stopsEarlyIffTargetMet (config : Config) (sv : Services) : Prop :=
  forall o, new config = Return o ->
    let recorded := recordedRounds (runSession o sv) in
    Z.of_nat (length recorded) <= maxIterations o
    /\ (Z.of_nat (length recorded) < maxIterations o
        <-> exists it, it ∈ recorded /\ targetScore o <= score it).

(** At most three rounds, target score 5, self-evaluation. *)
Definition threeRounds : Config :=
  mkConfig (Some "key") None (Some 3) (Some 5) (Some "self").

(** Services that never fail; the self-comparison succeeds in round 3
    only. *)
Definition succeedsInRoundThree : Services :=
  mkServices
    (Return tt)
    (Return "<html>1</html>")
    (fun n _ _ => Return ("<html>" +:+ Js.show (Z.of_nat n) +:+ "</html>"))
    (fun _ _ _ => Return (ErrorDetector.mkResult false [] true))
    (fun _ _ code _ => Return code)
    (fun _ _ => Return tt)
    (fun n _ => Return (mkSelf (Nat.eqb n 3) (Some "analysis") None))
    (fun _ _ => Throw "no second judge")
    (Return tt).

(** [reaches o sv k st]: the session gets through its first [k] rounds
    without an exception and without meeting the target, and [st] is the
    state in which round [k + 1] starts. *)
Inductive reaches (o : Orchestrator) (sv : Services) : nat -> LoopState -> Prop :=
| reaches_start : reaches o sv 0 initialState
| reaches_next k st st' :
    reaches o sv k st ->
    runIteration o sv (S k) st = Return (st', false) ->
    reaches o sv (S k) st'.

(** C7 as stated, for a session [o], [sv]: when the generation call of a
    round after the first fails with [e], that round is recorded with
    score 0 and [e] as its feedback. *)
Definition laterGenerationFailureIsRecorded (o : Orchestrator) (sv : Services) : Prop :=
  forall (k : nat) (st : LoopState) (e : string),
    setupSession sv = Return tt ->
    reaches o sv k st -> (1 <= k)%nat -> Z.of_nat k < maxIterations o ->
    generateCode sv (previousCode st) (previousFeedback st) (S k) = Throw e ->
    exists it, it ∈ recordedRounds (runSession o sv)
               /\ iteration it = S k /\ score it = 0 /\ feedback it = e.

(** Services whose gateway answers the first request and fails on every
    later one; the self-comparison never succeeds. *)
Definition gatewayDownAfterFirst : Services :=
  mkServices
    (Return tt)
    (Return "<html>1</html>")
    (fun _ _ _ => Throw "Gemini API error: 503 Service Unavailable")
    (fun _ _ _ => Return (ErrorDetector.mkResult false [] true))
    (fun _ _ code _ => Return code)
    (fun _ _ => Return tt)
    (fun _ _ => Return (mkSelf false None (Some "comparison failed")))
    (fun _ _ => Throw "no second judge")
    (Return tt).

(** The orchestrator an empty configuration (with an API key) gives. *)
Definition defaultOrchestrator : Orchestrator :=
  mkOrchestrator false 5 15 "self" 3.

(** The state of a [gatewayDownAfterFirst] session after its first round. *)
Definition afterFirstRound : LoopState :=
  mkState (Some "<html>1</html>") (Some "comparison failed") 0 1 None 1
    [ mkIteration 1 "<html>1</html>" 0 "comparison failed" ].

(** The same sessions with the second judge in place of the
    self-evaluation, around a generator that has no self-comparison: at
    most three rounds and the target 5, with a judge whose reply reads 5
    in round 3 and 0 before (scores 10 and 0 after doubling); and the
    failing gateway with a judge whose replies always read 0. *)
Definition threeRoundsJudged : Config :=
  mkConfig (Some "key") (Some "key") (Some 3) (Some 5) (Some "dual").

Definition judgedFiveInRoundThree : Services :=
  mkServices
    (Return tt)
    (Return "<html>1</html>")
    (fun n _ _ => Return ("<html>" +:+ Js.show (Z.of_nat n) +:+ "</html>"))
    (fun _ _ _ => Return (ErrorDetector.mkResult false [] true))
    (fun _ _ code _ => Return code)
    (fun _ _ => Return tt)
    (fun _ _ => Throw "this.geminiGenerator.compareImagesAndImprove is not a function")
    (fun n _ => Return (mkGroq (if Nat.eqb n 3 then 50 else 0) "analysis"))
    (Return tt).

Definition gatewayDownAfterFirstJudged : Services :=
  mkServices
    (Return tt)
    (Return "<html>1</html>")
    (fun _ _ _ => Throw "Gemini API error: 503 Service Unavailable")
    (fun _ _ _ => Return (ErrorDetector.mkResult false [] true))
    (fun _ _ code _ => Return code)
    (fun _ _ => Return tt)
    (fun _ _ => Throw "this.geminiGenerator.compareImagesAndImprove is not a function")
    (fun _ _ => Return (mkGroq 0 "comparison failed"))
    (Return tt).

Definition judgingOrchestrator : Orchestrator :=
  mkOrchestrator true 5 15 "dual" 3.

End UniversalRoundsTerms.

Section RepairFallbackTerms.
Import Exc ErrorDetector SimplifiedPixelAnalyzer PixelFeedbackLoopTest.

(** The code a round goes on with when its repair loop ends with errors
    and [attempt] as the last repair attempt. *)
Definition fallbackChoice (st : LoopState) (attempt : string) : string :=
  match lastCleanRender (renderLog st) with
  | Some clean =>
    if Js.truthy clean && (fallbackCount st <? maxFallbacks) then clean
    else attempt
  | None => attempt
  end.

(** C8 as stated, for a run [sv], [targetRegions]: whenever the repair
    loop of a round ends with errors, the round goes on with the code of
    the most recent load without errors if there is one, and with the
    last repair attempt otherwise. *)
Definition fallsBackToLastCleanCode (sv : Services) (targetRegions : list Region)
    : Prop :=
  forall (n : nat) (st : LoopState) (code : string) (rp : Repair),
    reachable sv targetRegions n st ->
    generate sv (S n) st = Return code ->
    fixLoop sv (S n) (seq 1 maxFixAttempts) code (lastWorkingCode st) (renderLog st)
    = Return rp ->
    errorFixed rp = false ->
    exists rp' count',
      ensureRenderable sv (S n) code st = Return (rp', count')
      /\ finalCode rp' = default (finalCode rp) (lastCleanRender (renderLog st)).

(** Services for which only the first generated sketch ever loads
    without errors; every repair returns its input with a mark appended;
    every screenshot is empty. *)
Definition onlyFirstLoads : Services :=
  mkServices
    (Return tt)
    (Return [ redSquareAt 0 0 ])
    (Return "v1")
    (fun n _ _ => Return ("v" +:+ Js.show (Z.of_nat n)))
    (fun _ _ code =>
       Return (if String.eqb code "v1" then ErrorDetector.mkResult false [] true
               else ErrorDetector.mkResult true
                      [ mkError "page_error" "x is not defined" ] true))
    (fun _ _ code _ => Return (code +:+ "'"))
    (fun _ _ => Return tt)
    (fun _ _ => Return [])
    (Return tt).

(** Services for which no sketch ever loads without errors or draws a
    canvas: every repair returns its input with a mark appended, and the
    capture finds no canvas to take a picture of. *)
Definition brokenWithoutCanvas : Services :=
  mkServices
    (Return tt)
    (Return [ redSquareAt 0 0 ])
    (Return "v1")
    (fun n _ _ => Return ("v" +:+ Js.show (Z.of_nat n)))
    (fun _ _ _ =>
       Return (ErrorDetector.mkResult true
                 [ mkError "page_error" "x is not defined";
                   mkError "no_canvas"
                     "No canvas element found - P5.js may not have initialized properly" ]
                 false))
    (fun _ _ code _ => Return (code +:+ "'"))
    (fun _ _ => Throw "No canvas found on page")
    (fun _ _ => Return [])
    (Return tt).

(** What the repair loop of its first round returns. *)
Definition firstRepair : Repair :=
  Eval vm_compute in
    match fixLoop brokenWithoutCanvas 1 (seq 1 maxFixAttempts) "v1" None [] with
    | Return rp => rp
    | Throw _ => mkRepair "" false None []
    end.

(** The state of the [onlyFirstLoads] run after four rounds, and what the
    repair loop of its fifth round returns. *)
Definition afterFourRounds : LoopState :=
  Eval vm_compute in
    match runIterations onlyFirstLoads [ redSquareAt 0 0 ] (seq 1 4) initialState with
    | loop_done st => st
    | loop_threw _ st => st
    end.

Definition fifthRepair : Repair :=
  Eval vm_compute in
    match fixLoop onlyFirstLoads 5 (seq 1 maxFixAttempts) "v5"
            (lastWorkingCode afterFourRounds) (renderLog afterFourRounds) with
    | Return rp => rp
    | Throw _ => mkRepair "" false None []
    end.

End RepairFallbackTerms.

Section FloodFillTerms.
Import SimplifiedPixelAnalyzer.

(** The pixels a flood fill for the colour [(tR, tG, tB)] may collect:
    inside the image, opaque, and within the colour tolerance. *)
Definition similarPixel (data : list Z) (w h tR tG tB : Z) (p : Z * Z) : Prop :=
  0 <= p.1 < w /\ 0 <= p.2 < h
  /\ exists r g b a,
       readPixel data w p.1 p.2 = Some (r, g, b, a)
       /\ 128 <= a
       /\ sqDistance r g b tR tG tB <= colorTolerance * colorTolerance.

(** The four pixels the fill enqueues after collecting [p]. *)
Definition neighbours (stp : Z) (p : Z * Z) : list (Z * Z) :=
  let neighborStep := Z.min stp 2 in
  [ (p.1 + neighborStep, p.2); (p.1 - neighborStep, p.2);
    (p.1, p.2 + neighborStep); (p.1, p.2 - neighborStep) ].

(** What holds between two turns of the fill's loop, [visited0] being the
    caller's set at the start and [seed] the start pixel. *)
Record fillInvariant (data : list Z) (w h tR tG tB stp : Z)
    (visited0 : gset (Z * Z)) (seed : Z * Z)
    (queue : list (Z * Z)) (regionVisited visited : gset (Z * Z))
    (pixels : list (Z * Z)) : Prop := mkFillInvariant {
  fill_regionVisited : regionVisited = list_to_set pixels;
  fill_visited : visited = visited0 ∪ list_to_set pixels;
  fill_nodup : NoDup pixels;
  fill_sound : forall p, p ∈ pixels ->
                 (p ∉ visited0) /\ similarPixel data w h tR tG tB p;
  fill_first : pixels = [] -> forall q, q ∈ queue -> q = seed;
  fill_start : pixels <> [] -> seed ∈ pixels;
  fill_seed : seed ∈ queue \/ seed ∈ pixels \/ seed ∈ visited0
              \/ ~ similarPixel data w h tR tG tB seed;
  fill_closed : forall p q, p ∈ pixels -> q ∈ neighbours stp p ->
                  q ∈ queue \/ q ∈ pixels \/ q ∈ visited0
                  \/ ~ similarPixel data w h tR tG tB q
}.

End FloodFillTerms.

Section RegionShapeTerms.
Import SimplifiedPixelAnalyzer.

(** A region as the extractor reports them for a [w] × [h] image: its box
    lies inside the image and has sides of positive length, its area is
    the area of the box and at least the lowest admission threshold, it
    stands for at least five samples, and its colour name and hex code
    are those of its colour. *)
Record properRegion (w h : Z) (r : Region) : Prop := mkProperRegion {
  proper_x : 0 <= Bounds.x (bounds r);
  proper_y : 0 <= Bounds.y (bounds r);
  proper_width : 0 < Bounds.width (bounds r);
  proper_height : 0 < Bounds.height (bounds r);
  proper_right : Bounds.x (bounds r) + Bounds.width (bounds r) < w;
  proper_bottom : Bounds.y (bounds r) + Bounds.height (bounds r) < h;
  proper_area : area r = Bounds.width (bounds r) * Bounds.height (bounds r);
  proper_admitted : 50 <= area r;
  proper_samples : 5 <= pixelCount r;
  proper_color : color r = rgbToColorName (Rgb.r (rgb r)) (Rgb.g (rgb r)) (Rgb.b (rgb r));
  proper_hex : hex r = rgbToHex (Rgb.r (rgb r)) (Rgb.g (rgb r)) (Rgb.b (rgb r))
}.

End RegionShapeTerms.

Section ConsolidationCoverTerms.
Import SimplifiedPixelAnalyzer.

(** The box [outer] contains the box [inner]. *)
Definition encloses (outer inner : Bounds.t) : Prop :=
  Bounds.x outer <= Bounds.x inner
  /\ Bounds.y outer <= Bounds.y inner
  /\ Bounds.x inner + Bounds.width inner <= Bounds.x outer + Bounds.width outer
  /\ Bounds.y inner + Bounds.height inner <= Bounds.y outer + Bounds.height outer.

(** [c] stands for [r] after consolidation: the same colour name, and a
    box that contains the box of [r]. *)
Definition covers (c r : Region) : Prop :=
  color c = color r /\ encloses (bounds c) (bounds r).

(** The samples a list of regions stands for. *)
Definition totalPixelCount (regions : list Region) : Z :=
  foldr (fun r sum => pixelCount r + sum) 0 regions.

(** The samples of the regions at the indices [js] that are not marked
    in [used]. *)
Definition unusedPixelCount (regions : list Region) (used : gset nat)
    (js : list nat) : Z :=
  foldr (fun j sum =>
           (if bool_decide (j ∈ used) then 0
            else from_option pixelCount 0 (regions !! j)) + sum) 0 js.

End ConsolidationCoverTerms.

Section SamplingTerms.
Import SimplifiedPixelAnalyzer.

(** The pixels the scanning loops of [findMajorRegions] look at. *)
Definition gridPoints (w h : Z) : list (Z * Z) :=
  flat_map (fun y => map (fun x => (x, y)) (gridCoordinates w)) (gridCoordinates h).

(** Both coordinates are multiples of the sampling step. *)
Definition onStep (p : Z * Z) : Prop := p.1 mod step = 0 /\ p.2 mod step = 0.

(** What the scan keeps between two sampled pixels: only grid points are
    marked as visited, and the regions admitted so far stand for no more
    samples than there are marked points. *)
Definition scanInvariant (w h : Z) (st : gset (Z * Z) * list Region) : Prop :=
  st.1 ⊆ list_to_set (gridPoints w h)
  /\ totalPixelCount st.2 <= Z.of_nat (size st.1).

End SamplingTerms.

Section AdmissionTerms.
Import SimplifiedPixelAnalyzer.

(** The state of the scan when it reaches the [k]-th pixel it samples:
    the pixels flood fills have visited, and the regions admitted so
    far. *)
Definition scanBefore (fuel : nat) (data : list Z) (w h : Z) (k : nat)
    : outcome (gset (Z * Z) * list Region) :=
  foldOutcome (fun st p => scanPixel fuel data w h p.2 st p.1)
    (take k (gridPoints w h)) (∅, []).

(** The flood fill that starts at the sampled pixel [p], with [visited]
    as the scan has left it, is admitted as a region: the pixel has not
    been visited and is opaque, and the fill collects at least five
    samples whose bounding box has an area of at least the threshold for
    its shape and for the colour of [p]. *)
Definition admittedFill (fuel : nat) (data : list Z) (w h : Z)
    (visited : gset (Z * Z)) (p : Z * Z) : Prop :=
  p ∉ visited
  /\ exists r g b a pixels visited',
       readPixel data w p.1 p.2 = Some (r, g, b, a)
       /\ 128 <= a
       /\ floodFillRegion fuel data w h p.1 p.2 r g b visited step
          = finished (Some pixels, visited')
       /\ (5 <= length pixels)%nat
       /\ minAreaThreshold (rgbToColorName r g b) (calculateBounds pixels)
          <= Bounds.width (calculateBounds pixels)
             * Bounds.height (calculateBounds pixels).

(** The scan admits a region at the [k]-th pixel it samples. *)
Definition admitsAt (fuel : nat) (data : list Z) (w h : Z) (k : nat) : Prop :=
  exists p visited regions,
    gridPoints w h !! k = Some p
    /\ scanBefore fuel data w h k = finished (visited, regions)
    /\ admittedFill fuel data w h visited p.

(** 20 × 20 pixels of opaque red. *)
Definition opaqueRed20 : list Z := solidImage 20 20 255 0 0 255.

End AdmissionTerms.

Section ScoreTerms.
Import SimplifiedPixelAnalyzer.

(** The target region has a colour match among the candidates whose
    position and size both differ from the target's by at most
    [limit]. *)
Definition closeMatch (limit : Z) (generatedRegions : list Region)
    (targetRegion : Region) : Prop :=
  exists m, findBestColorMatch targetRegion generatedRegions = Some m
            /\ positionDiff targetRegion m <= limit
            /\ sizeDiff targetRegion m <= limit.

End ScoreTerms.

Section JudgeTerms.
Import Exc UniversalOrchestrator.

(** The second judge answers with scores read from its replies by
    [ImageEvaluator.parseScore]. *)
Definition parsedScores (sv : Services) : Prop :=
  forall (n : nat) (code : string) (groq : GroqResult),
    compareImages sv n code = Return groq ->
    exists evaluation, score_tenths groq = ImageEvaluator.parseScore evaluation.

(** Services that never fail, with a second judge whose every reply is
    ["Similarity score: 10/10"]. *)
Definition enthusiasticJudge : Services :=
  mkServices
    (Return tt)
    (Return "<html>1</html>")
    (fun n _ _ => Return ("<html>" +:+ Js.show (Z.of_nat n) +:+ "</html>"))
    (fun _ _ _ => Return (ErrorDetector.mkResult false [] true))
    (fun _ _ code _ => Return code)
    (fun _ _ => Return tt)
    (fun _ _ => Return (mkSelf true (Some "analysis") None))
    (fun _ _ =>
       Return (mkGroq (ImageEvaluator.parseScore
                         (ImageEvaluator.codeUnits "Similarity score: 10/10"))
                 "Similarity score: 10/10"))
    (Return tt).

End JudgeTerms.

Section ModeTerms.
Import Exc UniversalOrchestrator.

(** The configurations [evaluateIteration] can work with: self-evaluation,
    or the second judge with its evaluator constructed. *)
Definition usableMode (o : Orchestrator) : Prop :=
  evaluationMode o = "self"
  \/ (evaluationMode o = "dual" /\ hasGroqEvaluator o = true).

(** Only the key of the generator, everything else left to the
    defaults. *)
Definition defaultConfig : Config :=
  mkConfig (Some "key") None None None None.

(** The second judge requested, but no key for it. *)
Definition dualWithoutKey : Config :=
  mkConfig (Some "key") None (Some 3) (Some 12) (Some "dual").

(** The generator has no self-comparison that returns: every call of
    [compareImagesAndImprove] throws. *)
Definition noSelfComparison (sv : Services) : Prop :=
  forall (n : nat) (code : string),
    exists e, compareImagesAndImprove sv n code = Throw e.

(** Services around the generator of lib/geminiCodeGenerator.js, which
    defines no [compareImagesAndImprove] and no [fixJavaScriptErrors]:
    calling either throws the [TypeError] of a call of [undefined].  The
    generated sketches load without errors and are captured; there is no
    second judge. *)
Definition libGenerator : Services :=
  mkServices
    (Return tt)
    (Return "<html>1</html>")
    (fun n _ _ => Return ("<html>" +:+ Js.show (Z.of_nat n) +:+ "</html>"))
    (fun _ _ _ => Return (ErrorDetector.mkResult false [] true))
    (fun _ _ _ _ => Throw "this.geminiGenerator.fixJavaScriptErrors is not a function")
    (fun _ _ => Return tt)
    (fun _ _ => Throw "this.geminiGenerator.compareImagesAndImprove is not a function")
    (fun _ _ => Throw "no second judge")
    (Return tt).

End ModeTerms.

Section WebApiTerms.
Import Exc UniversalOrchestrator WebApi.

(** The entry of [progress.iterations] for iteration [n]. *)
Definition entryOf (n : Z) (progress : Progress) : option IterationData :=
  find (fun iter => it_iteration iter =? n) (pr_iterations progress).

(** A request with a file that asks for no rounds at all and names no
    mode. *)
Definition zeroRounds : CreateRequest :=
  mkCreateRequest true (Some 0) (Some 12) None (Return tt).

End WebApiTerms.

Section PixelLoopTerms.
Import Exc ErrorDetector SimplifiedPixelAnalyzer PixelFeedbackLoopTest.

(** The first recorded round of the pixel loop with score [s]. *)
Definition pixelEarliest (s : Z) (recorded : list Iteration) : option nat :=
  iteration <$> find (fun it => score it =? s) recorded.

(** The state of the pixel loop between rounds: [k] rounds are recorded,
    numbered [1 .. k], with scores between 0 and 100; the best score is
    the largest of them, first reached in round [bestIteration]; at most
    [maxFallbacks] fallbacks were used, and fewer than [k]; before the
    first round there is no last working code, and later it is the code
    of the most recent load without errors; and the code of every
    recorded round is one the error detector has loaded. *)
Record pixelRounds (k : nat) (st : LoopState) : Prop := mkPixelRounds {
  px_numbers : map iteration (iterations st) = seq 1 k;
  px_current : k <> 0%nat -> currentIteration st = k;
  px_scores : Forall (fun it => 0 <= score it <= 100) (iterations st);
  px_best :
    match iterations st with
    | [] => bestScore st = 0 /\ bestIteration st = 1%nat
    | _ =>
      bestScore st = Js.max_list (map score (iterations st))
      /\ pixelEarliest (bestScore st) (iterations st) = Some (bestIteration st)
    end;
  px_fallbacks : 0 <= fallbackCount st <= maxFallbacks
                 /\ fallbackCount st <= Z.max 0 (Z.of_nat k - 1);
  px_start : k = 0%nat -> lastWorkingCode st = None;
  px_working : lastWorkingCode st = lastCleanRender (renderLog st);
  px_loaded : Forall (fun it => code it ∈ map rendered (renderLog st)) (iterations st)
}.

(** Every recorded score is below the target. *)
Definition pixelBelow (recorded : list Iteration) : Prop :=
  Forall (fun it => score it < targetScore) recorded.

(** The state of the [onlyFirstLoads] run after its first round. *)
Definition afterRoundOne : LoopState :=
  Eval vm_compute in
    match runIterations onlyFirstLoads [ redSquareAt 0 0 ] (seq 1 1) initialState with
    | loop_done st => st
    | loop_threw _ st => st
    end.

End PixelLoopTerms.

(** * Properties *)

(** ** Lists *)

Section ListFacts.
Context {A : Type}.

Lemma find_Some_split (f : A -> bool) (l : list A) (m : A) :
  find f l = Some m ->
  exists l1 l2, l = l1 ++ m :: l2 /\ f m = true /\ Forall (fun r => f r = false) l1.
Proof.
  induction l as [|a l IH]; simpl; [discriminate|].
  destruct (f a) eqn:Hfa.
  - intros [= ->]. exists [], l. auto.
  - intros Hfind. destruct (IH Hfind) as (l1 & l2 & -> & Hm & Hl1).
    exists (a :: l1), l2. auto.
Qed.

Lemma find_None_Forall (f : A -> bool) (l : list A) :
  find f l = None -> Forall (fun r => f r = false) l.
Proof.
  induction l as [|a l IH]; simpl; [constructor|].
  destruct (f a) eqn:Hfa; [discriminate|]. auto.
Qed.

Lemma find_app_Some (f : A -> bool) (l1 l2 : list A) (m : A) :
  find f l1 = Some m -> find f (l1 ++ l2) = Some m.
Proof.
  induction l1 as [|a l1 IH]; simpl; [discriminate|].
  destruct (f a); auto.
Qed.

(** In a list whose keys are pairwise distinct, searching for the key of
    an element finds that element. *)
Lemma find_own_key (key : A -> string) (l : list A) (t : A) :
  NoDup (map key l) -> t ∈ l ->
  find (fun r => String.eqb (key r) (key t)) l = Some t.
Proof.
  induction l as [|a l IH]; simpl; intros Hnd Hin.
  - by apply elem_of_nil in Hin.
  - apply NoDup_cons in Hnd as [Hfresh Hnd].
    apply elem_of_cons in Hin as [->|Hin].
    + by rewrite String.eqb_refl.
    + destruct (String.eqb (key a) (key t)) eqn:Heq; [|auto].
      apply String.eqb_eq in Heq. exfalso. apply Hfresh.
      rewrite Heq. apply list_elem_of_fmap. eauto.
Qed.

End ListFacts.

(** ** The scorer and the instruction generator *)

Section Scoring.
Import SimplifiedPixelAnalyzer.

Lemma positionDiff_self (t : Region) : positionDiff t t = 0.
Proof. unfold positionDiff. lia. Qed.

Lemma sizeDiff_self (t : Region) : sizeDiff t t = 0.
Proof. unfold sizeDiff. lia. Qed.

(** A target region matched with itself costs nothing and asks for
    nothing. *)
Lemma scoreStep_self (gs : list Region) (s : Z) (t : Region) :
  findBestColorMatch t gs = Some t -> scoreStep gs s t = s.
Proof.
  intros H. unfold scoreStep. rewrite H, positionDiff_self, sizeDiff_self.
  reflexivity.
Qed.

Lemma instructionFor_self (gs : list Region) (t : Region) :
  findBestColorMatch t gs = Some t -> instructionFor gs t = None.
Proof.
  intros H. unfold instructionFor. rewrite H, positionDiff_self, sizeDiff_self.
  reflexivity.
Qed.

Lemma findBestColorMatch_own (R : list Region) (t : Region) :
  NoDup (map color (take 5 R)) -> t ∈ take 5 R ->
  findBestColorMatch t R = Some t.
Proof.
  intros Hnd Hin. unfold findBestColorMatch.
  rewrite <- (take_drop 5 R) at 1.
  apply find_app_Some. by apply find_own_key.
Qed.

Lemma foldl_scoreStep_self (gs ts : list Region) (s : Z) :
  (forall t, t ∈ ts -> findBestColorMatch t gs = Some t) ->
  foldl (scoreStep gs) s ts = s.
Proof.
  revert s. induction ts as [|t ts IH]; simpl; intros s H; [reflexivity|].
  rewrite scoreStep_self by (apply H; left).
  apply IH. intros t' Ht'. apply H. by right.
Qed.

Lemma foldl_instructionFor_self (gs ts : list Region) (acc : list string) :
  (forall t, t ∈ ts -> findBestColorMatch t gs = Some t) ->
  foldl (fun instructions targetRegion =>
           match instructionFor gs targetRegion with
           | Some line => instructions ++ [line]
           | None => instructions
           end) acc ts = acc.
Proof.
  revert acc. induction ts as [|t ts IH]; simpl; intros acc H; [reflexivity|].
  rewrite instructionFor_self by (apply H; left).
  apply IH. intros t' Ht'. apply H. by right.
Qed.

Lemma elem_of_take_4_5 (R : list Region) (t : Region) :
  t ∈ take 4 R -> t ∈ take 5 R.
Proof.
  intros H. replace (take 4 R) with (take 4 (take 5 R)) in H
    by (rewrite take_take; reflexivity).
  eapply subseteq_take; eauto.
Qed.

(** C3, as stated, fails: a region set with two regions of one colour,
    scored against itself, loses points for the second region (it is
    compared with the first) and gets a "Fix" instruction. *)
Lemma identical_regions_not_always_perfect :
  ~ (forall R : list Region,
       calculateSimpleScore R R = 100 /\ createSimpleInstructions R R = []).
Proof.
  intros H. destruct (H twoRedSquares) as [Hscore _].
  vm_compute in Hscore. discriminate.
Qed.

(** C3, amended: for every region set whose first five regions have
    pairwise distinct colour classifications, the scorer applied to the
    set and itself returns 100 and the instruction generator returns the
    empty list. *)
Theorem identical_regions_score_100_no_instructions (R : list Region) :
  NoDup (map color (take 5 R)) ->
  calculateSimpleScore R R = 100 /\ createSimpleInstructions R R = [].
Proof.
  intros Hnd. split.
  - unfold calculateSimpleScore.
    rewrite foldl_scoreStep_self; [reflexivity|].
    intros t Ht. apply findBestColorMatch_own; [assumption|].
    by apply elem_of_take_4_5.
  - unfold createSimpleInstructions.
    rewrite foldl_instructionFor_self; [reflexivity|].
    intros t Ht. by apply findBestColorMatch_own.
Qed.

Lemma identical_regions_score_100_no_instructions_witness :
  calculateSimpleScore redAndWhite redAndWhite = 100
  /\ createSimpleInstructions redAndWhite redAndWhite = [].
Proof.
  apply (identical_regions_score_100_no_instructions redAndWhite).
  apply (bool_decide_unpack _). vm_compute. exact I.
Defined.

End Scoring.

(** ** Position error *)

Section PositionError.
Import SimplifiedPixelAnalyzer.

Lemma deduction_mono (d1 d2 : Z) : d1 <= d2 -> deduction d1 <= deduction d2.
Proof. unfold deduction. intros H. repeat case_match; lia. Qed.

Lemma score_single_match (t c : Region) :
  color c = color t ->
  calculateSimpleScore [t] [c]
  = Z.max 0 (100 - deduction (positionDiff t c) - deduction (sizeDiff t c)).
Proof.
  intros Hc. unfold calculateSimpleScore, scoreStep, findBestColorMatch, deduction.
  simpl. rewrite Hc, String.eqb_refl. repeat case_match; lia.
Qed.

(** With colour and size held fixed, a larger position error never gives
    a larger score. *)
Lemma score_antitone_in_positionDiff (t c1 c2 : Region) :
  color c1 = color t -> color c2 = color t ->
  sizeDiff t c1 = sizeDiff t c2 ->
  positionDiff t c1 <= positionDiff t c2 ->
  calculateSimpleScore [t] [c2] <= calculateSimpleScore [t] [c1].
Proof.
  intros Hc1 Hc2 Hsize Hfar.
  rewrite (score_single_match t c1 Hc1), (score_single_match t c2 Hc2), Hsize.
  pose proof (deduction_mono _ _ Hfar). lia.
Qed.

(** C6, as stated, fails when "farther" is the straight-line distance
    between the boxes: for a red square at the origin, the candidate
    moved by (11, 10) is at distance [sqrt 221] and scores 98, while the
    candidate moved by (0, 20) is strictly farther, at distance 20, and
    scores 100.  The scorer adds the two offsets: 21 is above its first
    threshold, 20 is not. *)
Lemma farther_box_can_score_higher :
  ~ (forall (t c : Region) (x1 y1 x2 y2 : Z),
       color c = color t ->
       (Bounds.x (bounds t) - x1) ^ 2 + (Bounds.y (bounds t) - y1) ^ 2
       < (Bounds.x (bounds t) - x2) ^ 2 + (Bounds.y (bounds t) - y2) ^ 2 ->
       calculateSimpleScore [t] [movedTo c x2 y2]
       <= calculateSimpleScore [t] [movedTo c x1 y1]).
Proof.
  intros H.
  specialize (H (redSquareAt 0 0) (redSquareAt 0 0) 11 10 0 20 eq_refl).
  vm_compute in H. apply H; reflexivity.
Qed.

(** C6, amended: for a target with one region and a candidate with one
    region of the same colour, the score is monotonically non-increasing
    in the position error as the scorer measures it, the sum of the
    horizontal and the vertical offset between the corners of the two
    boxes ([positionDiff]): moving the candidate's bounding box to a
    place where this sum is not smaller, all else fixed, never increases
    the score. *)
Theorem score_monotone_in_position_error (t c : Region) (x1 y1 x2 y2 : Z) :
  color c = color t ->
  Z.abs (Bounds.x (bounds t) - x1) + Z.abs (Bounds.y (bounds t) - y1)
  <= Z.abs (Bounds.x (bounds t) - x2) + Z.abs (Bounds.y (bounds t) - y2) ->
  calculateSimpleScore [t] [movedTo c x2 y2]
  <= calculateSimpleScore [t] [movedTo c x1 y1].
Proof.
  intros Hc Hfar. by apply score_antitone_in_positionDiff.
Qed.

Lemma score_monotone_in_position_error_witness :
  calculateSimpleScore [redSquareAt 0 0] [movedTo (redSquareAt 0 0) 40 30]
  <= calculateSimpleScore [redSquareAt 0 0] [movedTo (redSquareAt 0 0) 11 10].
Proof.
  apply (score_monotone_in_position_error
           (redSquareAt 0 0) (redSquareAt 0 0) 11 10 40 30).
  - reflexivity.
  - vm_compute. discriminate.
Defined.

(** In particular the score cannot rise when the box moves away from the
    target along either axis. *)
Corollary score_monotone_per_axis (t c : Region) (x1 y1 x2 y2 : Z) :
  color c = color t ->
  Z.abs (Bounds.x (bounds t) - x1) <= Z.abs (Bounds.x (bounds t) - x2) ->
  Z.abs (Bounds.y (bounds t) - y1) <= Z.abs (Bounds.y (bounds t) - y2) ->
  calculateSimpleScore [t] [movedTo c x2 y2]
  <= calculateSimpleScore [t] [movedTo c x1 y1].
Proof.
  intros Hc Hx Hy. apply score_antitone_in_positionDiff; try done.
  unfold positionDiff, movedTo. simpl. lia.
Qed.

End PositionError.

(** ** The colour match is the first, and among sorted candidates the largest *)

Section ColorMatch.
Import SimplifiedPixelAnalyzer.

Lemma insertByArea_perm (r : Region) (l : list Region) :
  insertByArea r l ≡ₚ r :: l.
Proof.
  induction l as [|s l IH]; simpl; [reflexivity|].
  case_match; [reflexivity|].
  rewrite IH. apply Permutation_swap.
Qed.

Lemma insertByArea_sorted (r : Region) (l : list Region) :
  StronglySorted byAreaDesc l -> StronglySorted byAreaDesc (insertByArea r l).
Proof.
  induction l as [|s l IH]; simpl; intros Hs.
  - repeat constructor.
  - apply StronglySorted_inv in Hs as [Hl Hall].
    destruct (area s <=? area r) eqn:Hle.
    + apply Z.leb_le in Hle. constructor; [by constructor|].
      constructor; [exact Hle|].
      eapply Forall_impl; [exact Hall|]. unfold byAreaDesc. intros; simpl in *; lia.
    + apply Z.leb_gt in Hle. constructor; [auto|].
      rewrite insertByArea_perm. constructor; [unfold byAreaDesc; lia|exact Hall].
Qed.

Lemma sortByAreaDesc_sorted (l : list Region) :
  StronglySorted byAreaDesc (sortByAreaDesc l).
Proof.
  induction l as [|r l IH]; simpl; [constructor|].
  by apply insertByArea_sorted.
Qed.

Lemma sortByAreaDesc_perm (l : list Region) : sortByAreaDesc l ≡ₚ l.
Proof.
  induction l as [|r l IH]; simpl; [reflexivity|].
  by rewrite insertByArea_perm, IH.
Qed.

Lemma findMajorRegions_sorted (fuel : nat) (data : list Z) (w h : Z)
    (gs : list Region) :
  findMajorRegions fuel data w h = finished gs -> StronglySorted byAreaDesc gs.
Proof.
  unfold findMajorRegions, obind.
  destruct (scanRegions fuel data w h); [|discriminate..].
  intros [= <-]. apply sortByAreaDesc_sorted.
Qed.

Lemma findBestColorMatch_Some (t : Region) (gs : list Region) (m : Region) :
  findBestColorMatch t gs = Some m ->
  color m = color t
  /\ exists before after,
       gs = before ++ m :: after
       /\ forall r, r ∈ before -> color r <> color t.
Proof.
  intros H. apply find_Some_split in H as (l1 & l2 & -> & Hm & Hl1).
  apply String.eqb_eq in Hm. split; [exact Hm|].
  exists l1, l2. split; [reflexivity|].
  intros r Hr Hcol. rewrite Forall_forall in Hl1.
  specialize (Hl1 r Hr). simpl in Hl1.
  rewrite Hcol, String.eqb_refl in Hl1. discriminate.
Qed.

Lemma findBestColorMatch_None (t : Region) (gs : list Region) :
  findBestColorMatch t gs = None -> forall r, r ∈ gs -> color r <> color t.
Proof.
  intros H r Hr Hcol. apply find_None_Forall in H.
  rewrite Forall_forall in H. specialize (H r Hr). simpl in H.
  rewrite Hcol, String.eqb_refl in H. discriminate.
Qed.

Lemma findBestColorMatch_largest (t : Region) (gs : list Region) (m : Region) :
  findBestColorMatch t gs = Some m ->
  StronglySorted byAreaDesc gs ->
  forall r, r ∈ gs -> color r = color t -> area r <= area m.
Proof.
  intros H Hs r Hr Hcol.
  apply findBestColorMatch_Some in H as (_ & before & after & -> & Hbefore).
  apply elem_of_app in Hr as [Hr|Hr]; [by destruct (Hbefore r Hr)|].
  apply StronglySorted_app_1_r in Hs.
  apply StronglySorted_inv in Hs as [_ Hall].
  apply elem_of_cons in Hr as [->|Hr]; [lia|].
  rewrite Forall_forall in Hall. exact (Hall r Hr).
Qed.

Lemma findBestColorMatch_singleton (t m : Region) :
  color m = color t -> findBestColorMatch t [m] = Some m.
Proof.
  intros H. unfold findBestColorMatch. simpl. by rewrite H, String.eqb_refl.
Qed.

(** C10: the colour-match lookup returns the first candidate, in list
    order, of the target's colour; region lists produced by
    [findMajorRegions] are sorted by area, largest first, and in such a
    list the match is a largest candidate of that colour; the deductions
    and the instruction for a target are those computed against that
    match alone, even when another candidate of the colour fits the
    target exactly. *)
Theorem color_match_is_first_and_largest :
  (forall (t : Region) (gs : list Region),
     match findBestColorMatch t gs with
     | Some m =>
       color m = color t
       /\ (exists before after,
             gs = before ++ m :: after
             /\ forall r, r ∈ before -> color r <> color t)
       /\ (StronglySorted byAreaDesc gs ->
           forall r, r ∈ gs -> color r = color t -> area r <= area m)
       /\ (forall s, scoreStep gs s t = scoreStep [m] s t)
       /\ instructionFor gs t = instructionFor [m] t
     | None => forall r, r ∈ gs -> color r <> color t
     end)
  /\ (forall (fuel : nat) (data : list Z) (w h : Z) (gs : list Region),
        findMajorRegions fuel data w h = finished gs ->
        StronglySorted byAreaDesc gs)
  /\ (StronglySorted byAreaDesc largeAndExact
      /\ smallRedTarget ∈ largeAndExact
      /\ findBestColorMatch smallRedTarget largeAndExact = Some (redSquareAt 0 0)
      /\ calculateSimpleScore [smallRedTarget] largeAndExact = 90
      /\ createSimpleInstructions [smallRedTarget] largeAndExact
         = ["Fix #FF0000 rectangle: move to (200, 200) and resize to 20x20"]).
Proof.
  split; [|split].
  - intros t gs. destruct (findBestColorMatch t gs) as [m|] eqn:Hfind.
    + pose proof (findBestColorMatch_Some _ _ _ Hfind) as [Hcol Hsplit].
      split; [exact Hcol|]. split; [exact Hsplit|].
      split; [by apply findBestColorMatch_largest|].
      split.
      * intros s. unfold scoreStep.
        by rewrite Hfind, (findBestColorMatch_singleton _ _ Hcol).
      * unfold instructionFor.
        by rewrite Hfind, (findBestColorMatch_singleton _ _ Hcol).
    + by apply findBestColorMatch_None.
  - apply findMajorRegions_sorted.
  - split; [|split; [|split; [|split]]].
    + repeat constructor; unfold byAreaDesc; simpl; lia.
    + unfold largeAndExact. set_solver.
    + reflexivity.
    + reflexivity.
    + reflexivity.
Qed.

End ColorMatch.

(** ** Consolidation *)

Section Consolidation.
Import SimplifiedPixelAnalyzer.

Lemma noMergeablePair_lookup (regions : list Region) (i j : nat) (ri rj : Region) :
  noMergeablePair regions = true -> (i < j)%nat ->
  regions !! i = Some ri -> regions !! j = Some rj ->
  mergeable ri rj = false.
Proof.
  revert i j. induction regions as [|r rest IH]; intros i j Hno Hij Hi Hj.
  - by rewrite lookup_nil in Hi.
  - simpl in Hno. apply andb_true_iff in Hno as [Hr Hrest].
    destruct i as [|i].
    + simpl in Hi. injection Hi as ->.
      destruct j as [|j]; [lia|]. simpl in Hj.
      rewrite forallb_forall in Hr.
      apply negb_true_iff, Hr, list_elem_of_In, list_elem_of_lookup. eauto.
    + destruct j as [|j]; [lia|]. simpl in Hi, Hj.
      apply (IH i j); [assumption|lia|assumption..].
Qed.

Lemma collectOverlapping_none (regions : list Region) (mainRegion : Region)
    (js : list nat) (used : gset nat) (overlapping : list Region) :
  (forall j o, j ∈ js -> regions !! j = Some o -> mergeable mainRegion o = false) ->
  collectOverlapping regions mainRegion js used overlapping = (used, overlapping).
Proof.
  induction js as [|j js IH]; simpl; intros H; [reflexivity|].
  assert (Hrest : collectOverlapping regions mainRegion js used overlapping
                  = (used, overlapping)).
  { apply IH. intros j' o Hj'. apply H. by right. }
  case_bool_decide; [exact Hrest|].
  destruct (regions !! j) as [o|] eqn:Hj; [|exact Hrest].
  rewrite (H j o); [exact Hrest|by left|exact Hj].
Qed.

(** The inner loop only appends to the group, and what it appends are
    regions the main region may absorb. *)
Lemma collectOverlapping_extends (regions : list Region) (mainRegion : Region)
    (js : list nat) (used : gset nat) (overlapping : list Region) :
  exists others,
    (collectOverlapping regions mainRegion js used overlapping).2
    = overlapping ++ others
    /\ Forall (fun o => mergeable mainRegion o = true) others.
Proof.
  revert used overlapping. induction js as [|j js IH]; simpl; intros used ov.
  - exists []. by rewrite app_nil_r.
  - case_bool_decide; [apply IH|].
    destruct (regions !! j) as [o|]; [|apply IH].
    destruct (mergeable mainRegion o) eqn:Hmerge; [|apply IH].
    destruct (IH ({[ j ]} ∪ used) (ov ++ [o])) as (others & -> & Hall).
    exists (o :: others). split; [by rewrite <- app_assoc|by constructor].
Qed.

(** What it takes for the main region to absorb another one: the same
    colour classification, bounding boxes that overlap within the margin,
    and the size guard, which compares with the constant
    [totalImageArea]. *)
Lemma mergeable_guard (mainRegion otherRegion : Region) :
  mergeable mainRegion otherRegion = true ->
  color mainRegion = color otherRegion
  /\ regionsOverlap (bounds mainRegion) (bounds otherRegion) = true
  /\ ~ (totalImageArea < 2 * area mainRegion
        /\ 10 * area otherRegion < totalImageArea)
  /\ ~ (totalImageArea < 2 * area otherRegion
        /\ 10 * area mainRegion < totalImageArea).
Proof.
  unfold mergeable. intros H. apply andb_true_iff in H as [Hcolor Hguard].
  apply String.eqb_eq in Hcolor. split; [exact Hcolor|].
  revert Hguard. unfold shouldMergeRegions, isVeryLarge, isVerySmall.
  destruct (regionsOverlap (bounds mainRegion) (bounds otherRegion)); simpl;
    [|discriminate].
  destruct (_ || _) eqn:Hsizes; [discriminate|].
  intros _. apply orb_false_iff in Hsizes as [H1 H2].
  apply andb_false_iff in H1, H2. split; [reflexivity|].
  split; intros [Ha Hb]; apply Z.ltb_lt in Ha, Hb; destruct H1, H2; congruence.
Qed.

Lemma consolidateFrom_settled (regions : list Region) :
  noMergeablePair regions = true ->
  forall (k i : nat) (used : gset nat) (acc : list Region),
    (forall u, u ∈ used -> (u < i)%nat) ->
    consolidateFrom regions (seq i k) used acc = acc ++ take k (drop i regions).
Proof.
  intros Hno. induction k as [|k IH]; intros i used acc Hused; simpl.
  - by rewrite take_0, app_nil_r.
  - rewrite bool_decide_eq_false_2
      by (intros Hi; apply Hused in Hi; lia).
    destruct (regions !! i) as [mainRegion|] eqn:Hi.
    + rewrite collectOverlapping_none.
      2:{ intros j o Hj Hjo. apply elem_of_seq in Hj.
          apply (noMergeablePair_lookup regions i j mainRegion o);
            [exact Hno | lia | exact Hi | exact Hjo]. }
      simpl. rewrite IH.
      2:{ intros u Hu. apply elem_of_union in Hu as [Hu|Hu].
          - apply elem_of_singleton in Hu. lia.
          - apply Hused in Hu. lia. }
      rewrite (drop_S _ _ _ Hi). simpl. by rewrite <- app_assoc.
    + rewrite IH by (intros u Hu; apply Hused in Hu; lia).
      apply lookup_ge_None in Hi.
      rewrite !drop_ge by lia. by rewrite !take_nil.
Qed.

(** A list without a mergeable pair is returned as it is. *)
Lemma consolidate_settled (regions : list Region) :
  noMergeablePair regions = true ->
  consolidateOverlappingRegions regions = regions.
Proof.
  intros Hno. unfold consolidateOverlappingRegions.
  rewrite (consolidateFrom_settled _ Hno) by set_solver.
  simpl. by rewrite drop_0, firstn_all.
Qed.

(** C5, as stated, fails: a second pass merges what the first pass left
    apart. *)
Lemma consolidation_not_idempotent :
  ~ (forall regions : list Region,
       consolidateOverlappingRegions (consolidateOverlappingRegions regions)
       = consolidateOverlappingRegions regions).
Proof.
  intros H. specialize (H threeInARow). vm_compute in H. discriminate.
Qed.

Lemma collectOverlapping_used_mono (regions : list Region) (mainRegion : Region)
    (js : list nat) (used : gset nat) (overlapping : list Region) :
  used ⊆ (collectOverlapping regions mainRegion js used overlapping).1.
Proof.
  revert used overlapping. induction js as [|j js IH]; simpl; intros used ov;
    [done|].
  case_bool_decide; [apply IH|].
  destruct (regions !! j) as [o|]; [|apply IH].
  destruct (mergeable mainRegion o); [|apply IH].
  etransitivity; [|apply IH]. set_solver.
Qed.

(** A later region the main region can absorb is marked as used when the
    inner loop is over. *)
Lemma collectOverlapping_absorbs (regions : list Region) (mainRegion : Region)
    (js : list nat) (used : gset nat) (overlapping : list Region)
    (j : nat) (o : Region) :
  j ∈ js -> regions !! j = Some o -> mergeable mainRegion o = true ->
  j ∈ (collectOverlapping regions mainRegion js used overlapping).1.
Proof.
  revert used overlapping. induction js as [|j0 js IH]; simpl;
    intros used ov Hj Hlook Hmerge.
  - by apply elem_of_nil in Hj.
  - apply elem_of_cons in Hj as [<-|Hj].
    + case_bool_decide as Hused.
      * by apply collectOverlapping_used_mono.
      * rewrite Hlook, Hmerge.
        apply collectOverlapping_used_mono. set_solver.
    + case_bool_decide; [by apply IH|].
      destruct (regions !! j0) as [o0|]; [|by apply IH].
      destruct (mergeable mainRegion o0); by apply IH.
Qed.

Lemma length_filter_unused_mono (used used' : gset nat) (l : list nat) :
  used ⊆ used' ->
  (length (filter (fun i => i ∉ used') l) <= length (filter (fun i => i ∉ used) l))%nat.
Proof.
  intros Hsub. induction l as [|i l IH]; [done|].
  rewrite !filter_cons. repeat case_decide; simpl; try lia.
  set_solver.
Qed.

(** Every index gives at most one region of the result, and a used index
    gives none. *)
Lemma consolidateFrom_length_le (regions : list Region) (todo : list nat)
    (used : gset nat) (acc : list Region) :
  (length (consolidateFrom regions todo used acc)
   <= length acc + length (filter (fun i => i ∉ used) todo))%nat.
Proof.
  revert used acc. induction todo as [|i todo IH]; simpl; intros used acc; [lia|].
  rewrite filter_cons. case_bool_decide as Hused.
  - rewrite decide_False by auto. apply IH.
  - rewrite decide_True by auto. simpl.
    destruct (regions !! i) as [mainRegion|]; [|etransitivity; [apply IH|lia]].
    destruct (collectOverlapping _ _ _ _ _) as [used' overlapping] eqn:Hcollect.
    etransitivity; [apply IH|]. rewrite length_app. simpl.
    assert (Hsub : used ⊆ used').
    { pose proof (collectOverlapping_used_mono regions mainRegion
                    (seq (S i) (length regions - S i)) ({[ i ]} ∪ used) [mainRegion]) as Hm.
      rewrite Hcollect in Hm. simpl in Hm. set_solver. }
    pose proof (length_filter_unused_mono used used' todo Hsub). lia.
Qed.

Lemma existsb_false_all {A : Type} (f : A -> bool) (l : list A) :
  existsb f l = false -> forall x, x ∈ l -> f x = false.
Proof.
  induction l as [|a l IH]; simpl; intros H x Hx.
  - by apply elem_of_nil in Hx.
  - apply orb_false_iff in H as [Ha Hl].
    apply elem_of_cons in Hx as [->|Hx]; auto.
Qed.

(** One pass either leaves the remaining regions as they are, none of them
    absorbing a later one, or returns fewer regions than it was given. *)
Lemma consolidateFrom_settled_or_shorter (regions : list Region) :
  forall (k i : nat) (used : gset nat) (acc : list Region),
    (forall u, u ∈ used -> (u < i)%nat) -> (i + k)%nat = length regions ->
    (consolidateFrom regions (seq i k) used acc = acc ++ drop i regions
     /\ noMergeablePair (drop i regions) = true)
    \/ (length (consolidateFrom regions (seq i k) used acc) < length acc + k)%nat.
Proof.
  induction k as [|k IH]; intros i used acc Hused Hlen.
  - left. simpl. rewrite drop_ge by lia. by rewrite app_nil_r.
  - cbn [seq consolidateFrom].
    rewrite bool_decide_eq_false_2 by (intros Hi; apply Hused in Hi; lia).
    destruct (lookup_lt_is_Some_2 regions i) as [mainRegion Hi]; [lia|].
    rewrite Hi, (drop_S _ _ _ Hi).
    destruct (existsb (mergeable mainRegion) (drop (S i) regions)) eqn:Hex.
    + right. apply existsb_exists in Hex as (o & Ho & Hmerge).
      apply list_elem_of_In, list_elem_of_lookup in Ho as [j' Hj'].
      rewrite lookup_drop in Hj'.
      assert (Hj : (S i + j' < length regions)%nat) by (by eapply lookup_lt_Some).
      pose proof (collectOverlapping_absorbs regions mainRegion
                    (seq (S i) (length regions - S i)) ({[ i ]} ∪ used) [mainRegion]
                    (S i + j')%nat o) as Habsorbed.
      destruct (collectOverlapping _ _ _ _ _) as [used' overlapping].
      simpl in Habsorbed.
      eapply Nat.le_lt_trans; [apply consolidateFrom_length_le|].
      rewrite length_app. simpl.
      assert ((length (filter (fun i0 => i0 ∉ used') (seq (S i) k)) < length (seq (S i) k)))%nat.
      { apply (length_filter_lt _ _ (S i + j')%nat).
        - apply elem_of_seq. lia.
        - intros Hnot. apply Hnot, Habsorbed; [apply elem_of_seq; lia|done..]. }
      rewrite length_seq in *. lia.
    + pose proof (existsb_false_all _ _ Hex) as Hnone.
      rewrite collectOverlapping_none.
      2:{ intros j o Hj Hjo. apply Hnone. apply elem_of_seq in Hj.
          apply list_elem_of_lookup. exists (j - S i)%nat.
          rewrite lookup_drop. by replace (S i + (j - S i))%nat with j by lia. }
      simpl.
      destruct (IH (S i) ({[ i ]} ∪ used) (acc ++ [mainRegion])) as [[Heq Hno]|Hshort].
      * intros u Hu. apply elem_of_union in Hu as [Hu|Hu].
        -- apply elem_of_singleton in Hu. lia.
        -- apply Hused in Hu. lia.
      * lia.
      * left. split; [by rewrite Heq, <- app_assoc|].
        rewrite Hno, andb_true_r. apply forallb_forall.
        intros o Ho. apply negb_true_iff, Hnone, list_elem_of_In, Ho.
      * right. rewrite length_app in Hshort. simpl in Hshort. lia.
Qed.

(** A list that one pass returns unchanged has no mergeable pair. *)
Lemma consolidate_fixed_settled (regions : list Region) :
  consolidateOverlappingRegions regions = regions ->
  noMergeablePair regions = true.
Proof.
  intros Hfixed. unfold consolidateOverlappingRegions in Hfixed.
  destruct (consolidateFrom_settled_or_shorter regions (length regions) 0 ∅ [])
    as [[_ Hno]|Hshort]; [set_solver|lia|by rewrite drop_0 in Hno|].
  rewrite Hfixed in Hshort. simpl in Hshort. lia.
Qed.

(** C5, amended: consolidation is idempotent on exactly those lists of raw
    regions whose consolidation output contains no region that would
    absorb a later one (same colour and the should-merge guard passes):
    for such a list, and for no other, consolidating the output again
    yields the same region list. *)
Theorem consolidation_idempotent_iff_settled (regions : list Region) :
  consolidateOverlappingRegions (consolidateOverlappingRegions regions)
  = consolidateOverlappingRegions regions
  <-> noMergeablePair (consolidateOverlappingRegions regions) = true.
Proof.
  split; [apply consolidate_fixed_settled|apply consolidate_settled].
Qed.

Lemma consolidation_idempotent_iff_settled_witness :
  consolidateOverlappingRegions (consolidateOverlappingRegions twoTouching)
  = consolidateOverlappingRegions twoTouching.
Proof.
  apply (consolidation_idempotent_iff_settled twoTouching).
  vm_compute. reflexivity.
Defined.

(** *** The should-merge guard *)

(** C9, where the code departs from it: the guard measures "very large"
    and "very small" against the fixed area 261 × 373, not against the
    area of the analysed image.  In this 44 × 44 image the scan admits
    the background (over half of the image) and the patch (under a tenth
    of it); the guard lets them merge, and the patch is gone from the
    result. *)
Lemma guard_ignores_the_analysed_image :
  let imageArea := 44 * 44 in
  scanRegions 10000 redWithDarkerPatch 44 44
  = finished [ redBackground; darkerPatch ]
  /\ imageArea < 2 * area redBackground
  /\ 10 * area darkerPatch < imageArea
  /\ shouldMergeRegions redBackground darkerPatch = true
  /\ findMajorRegions 10000 redWithDarkerPatch 44 44
     = finished [ mkRegion "red" "#FF0000" (Rgb.mk 255 0 0)
                    (Bounds.mk 0 0 42 42) 1764 484 ].
Proof. vm_compute. repeat split; reflexivity. Qed.

End Consolidation.

(** ** Region extraction *)

Section Extraction.
Import SimplifiedPixelAnalyzer.

Lemma readPixel_in_bounds (data : list Z) (w h x y : Z) :
  wellFormed data w h -> 0 <= x < w -> 0 <= y < h ->
  exists r g b a,
    readPixel data w x y = Some (r, g, b, a)
    /\ data !! (4 * Z.to_nat (y * w + x) + 3)%nat = Some a.
Proof.
  intros (Hw & Hh & Hlen) Hx Hy. unfold readPixel.
  set (index := (y * w + x) * 4).
  assert (Hidx : 0 <= index /\ index + 3 < Z.of_nat (length data)) by (subst index; nia).
  destruct (index <? 0) eqn:Hneg; [apply Z.ltb_lt in Hneg; lia|].
  destruct (lookup_lt_is_Some_2 data (Z.to_nat index)) as [r Hr]; [lia|].
  destruct (lookup_lt_is_Some_2 data (Z.to_nat (index + 1))) as [g Hg]; [lia|].
  destruct (lookup_lt_is_Some_2 data (Z.to_nat (index + 2))) as [b Hb]; [lia|].
  destruct (lookup_lt_is_Some_2 data (Z.to_nat (index + 3))) as [a Ha]; [lia|].
  assert (Hk : (4 * Z.to_nat (y * w + x) + 3)%nat = Z.to_nat (index + 3))
    by (subst index; lia).
  exists r, g, b, a. rewrite Hr, Hg, Hb, Ha, Hk. split; [reflexivity|exact Ha].
Qed.

Lemma gridCoordinates_range (limit v : Z) :
  v ∈ gridCoordinates limit -> 0 <= v < limit.
Proof.
  unfold gridCoordinates, step. intros H.
  apply list_elem_of_fmap in H as (i & -> & Hi).
  apply elem_of_seq in Hi.
  assert (Z.of_nat i < (limit + 2 - 1) / 2) by lia.
  assert (0 < (limit + 2 - 1) / 2) by lia.
  pose proof (Z.mul_div_le (limit + 2 - 1) 2). lia.
Qed.

Lemma foldOutcome_fixed {A S : Type} (f : S -> A -> outcome S) (l : list A) (s : S) :
  (forall a, a ∈ l -> f s a = finished s) -> foldOutcome f l s = finished s.
Proof.
  induction l as [|a l IH]; simpl; intros H; [reflexivity|].
  rewrite (H a) by left. simpl. apply IH. intros a' Ha'. apply H. by right.
Qed.

(** A transparent pixel is passed over. *)
Lemma scanPixel_transparent (fuel : nat) (data : list Z) (w h x y : Z)
    (regions : list Region) :
  wellFormed data w h -> fullyTransparent data ->
  0 <= x < w -> 0 <= y < h ->
  scanPixel fuel data w h y (∅, regions) x = finished (∅, regions).
Proof.
  intros Hwf Htr Hx Hy. unfold scanPixel.
  rewrite bool_decide_eq_false_2 by set_solver.
  destruct (readPixel_in_bounds data w h x y Hwf Hx Hy)
    as (r & g & b & a & -> & Ha).
  apply Htr in Ha. by rewrite (proj2 (Z.ltb_lt a 128) Ha).
Qed.

Lemma scanRegions_transparent (fuel : nat) (data : list Z) (w h : Z) :
  wellFormed data w h -> fullyTransparent data ->
  scanRegions fuel data w h = finished [].
Proof.
  intros Hwf Htr. unfold scanRegions.
  rewrite foldOutcome_fixed; [reflexivity|].
  intros y Hy. apply gridCoordinates_range in Hy. unfold scanRow.
  apply foldOutcome_fixed. intros x Hx. apply gridCoordinates_range in Hx.
  by apply scanPixel_transparent.
Qed.

(** *** The flood fill terminates

    Every pass of the loop takes one entry off the queue; a pass that
    accepts a pixel puts four entries on it and marks a pixel of the
    image that was not marked before.  So
    [length queue + 5 * (number of unmarked pixels)] falls with every
    pass. *)

Lemma elem_of_allPixels (w h x y : Z) :
  0 <= x < w -> 0 <= y < h -> (x, y) ∈ allPixels w h.
Proof.
  intros Hx Hy. unfold allPixels. apply list_elem_of_In, in_flat_map.
  exists x. split; [apply list_elem_of_In, elem_of_seqZ; lia|].
  apply in_map, list_elem_of_In, elem_of_seqZ. lia.
Qed.

Lemma length_flat_map_const {A B : Type} (f : A -> list B) (l : list A) (c : nat) :
  (forall a, length (f a) = c) -> length (flat_map f l) = (length l * c)%nat.
Proof.
  intros Hf. induction l as [|a l IH]; simpl; [reflexivity|].
  rewrite length_app, Hf, IH. reflexivity.
Qed.

Lemma length_allPixels (w h : Z) :
  length (allPixels w h) = (Z.to_nat w * Z.to_nat h)%nat.
Proof.
  unfold allPixels.
  rewrite (length_flat_map_const _ _ (Z.to_nat h)), length_seqZ; [reflexivity|].
  intros a. by rewrite length_map, length_seqZ.
Qed.

Lemma size_list_to_set_le (l : list (Z * Z)) :
  (size (list_to_set l : gset (Z * Z)) <= length l)%nat.
Proof.
  induction l as [|a l IH].
  - rewrite list_to_set_nil, size_empty. simpl. lia.
  - rewrite list_to_set_cons, size_union_alt, size_singleton. simpl.
    assert (size (list_to_set l ∖ {[a]} : gset (Z * Z))
            <= size (list_to_set l : gset (Z * Z)))%nat
      by (apply subseteq_size; set_solver).
    lia.
Qed.

Lemma size_unvisited_le (w h : Z) (visited : gset (Z * Z)) :
  (size (unvisited w h visited) <= Z.to_nat w * Z.to_nat h)%nat.
Proof.
  rewrite <- length_allPixels.
  etransitivity; [|apply size_list_to_set_le].
  apply subseteq_size. unfold unvisited. set_solver.
Qed.

Lemma unvisited_shrinks (w h x y : Z) (visited : gset (Z * Z)) :
  0 <= x < w -> 0 <= y < h -> (x, y) ∉ visited ->
  (size (unvisited w h ({[ (x, y) ]} ∪ visited)) < size (unvisited w h visited))%nat.
Proof.
  intros Hx Hy Hfresh. apply subset_size. unfold unvisited.
  pose proof (elem_of_allPixels w h x y Hx Hy) as Hin.
  apply (elem_of_list_to_set (C := gset (Z * Z))) in Hin.
  set_solver.
Qed.

Lemma acceptsPixel_finishes (data : list Z) (w h tR tG tB : Z)
    (regionVisited visited : gset (Z * Z)) (x y : Z) :
  wellFormed data w h ->
  exists b, acceptsPixel data w h tR tG tB regionVisited visited x y = finished b
            /\ (b = true -> 0 <= x < w /\ 0 <= y < h /\ (x, y) ∉ visited).
Proof.
  intros Hwf. unfold acceptsPixel.
  destruct (bool_decide ((x, y) ∈ regionVisited)); simpl;
    [exists false; split; [reflexivity|discriminate]|].
  destruct (bool_decide ((x, y) ∈ visited)) eqn:Hv; simpl;
    [exists false; split; [reflexivity|discriminate]|].
  apply bool_decide_eq_false in Hv.
  destruct ((x <? 0) || (w <=? x) || (y <? 0) || (h <=? y)) eqn:Hout;
    [exists false; split; [reflexivity|discriminate]|].
  assert (0 <= x < w /\ 0 <= y < h) as [Hx Hy].
  { rewrite !orb_false_iff in Hout. destruct Hout as [[[H1 H2] H3] H4].
    apply Z.ltb_ge in H1, H3. apply Z.leb_gt in H2, H4. lia. }
  clear Hout.
  destruct (readPixel_in_bounds data w h x y Hwf Hx Hy)
    as (r & g & b & a & -> & _).
  destruct (a <? 128); [exists false; split; [reflexivity|discriminate]|].
  destruct (_ <? sqDistance _ _ _ _ _ _);
    [exists false; split; [reflexivity|discriminate]|].
  exists true. auto.
Qed.

Lemma floodFillLoop_terminates (data : list Z) (w h tR tG tB stp : Z) :
  wellFormed data w h ->
  forall (fuel : nat) (queue : list (Z * Z)) (regionVisited visited : gset (Z * Z))
         (pixels : list (Z * Z)),
    (length queue + 5 * size (unvisited w h visited) <= fuel)%nat ->
    exists result,
      floodFillLoop fuel data w h tR tG tB stp queue regionVisited visited pixels
      = finished result.
Proof.
  intros Hwf. induction fuel as [|fuel IH]; intros queue rv visited pixels Hfuel.
  - destruct queue as [|[x y] queue]; simpl in *; [eauto|lia].
  - destruct queue as [|[x y] queue]; simpl in *; [eauto|].
    destruct (acceptsPixel_finishes data w h tR tG tB rv visited x y Hwf)
      as (b & -> & Hb).
    destruct b.
    + destruct (Hb eq_refl) as (Hx & Hy & Hfresh).
      pose proof (unvisited_shrinks w h x y visited Hx Hy Hfresh).
      apply IH. rewrite length_app. simpl. lia.
    + apply IH. lia.
Qed.

Lemma floodFillRegion_terminates (data : list Z) (w h : Z) (fuel : nat)
    (x y tR tG tB : Z) (visited : gset (Z * Z)) (stp : Z) :
  wellFormed data w h -> (enoughFuel w h <= fuel)%nat ->
  exists result,
    floodFillRegion fuel data w h x y tR tG tB visited stp = finished result.
Proof.
  intros Hwf Hfuel. unfold floodFillRegion.
  destruct (floodFillLoop_terminates data w h tR tG tB stp Hwf fuel
              [(x, y)] ∅ visited []) as [[pixels visited'] ->].
  - pose proof (size_unvisited_le w h visited). unfold enoughFuel in Hfuel.
    simpl. lia.
  - simpl. eauto.
Qed.

Lemma foldOutcome_finishes {A S : Type} (f : S -> A -> outcome S) (l : list A) :
  (forall s a, a ∈ l -> exists s', f s a = finished s') ->
  forall s, exists s', foldOutcome f l s = finished s'.
Proof.
  induction l as [|a l IH]; simpl; intros H s; [eauto|].
  destruct (H s a) as [s' ->]; [by left|]. simpl.
  apply IH. intros s0 a' Ha'. apply H. by right.
Qed.

Lemma scanPixel_finishes (data : list Z) (w h : Z) (fuel : nat) (x y : Z)
    (st : gset (Z * Z) * list Region) :
  wellFormed data w h -> (enoughFuel w h <= fuel)%nat ->
  0 <= x < w -> 0 <= y < h ->
  exists st', scanPixel fuel data w h y st x = finished st'.
Proof.
  intros Hwf Hfuel Hx Hy. unfold scanPixel. destruct st as [visited regions].
  case_bool_decide; [eauto|].
  destruct (readPixel_in_bounds data w h x y Hwf Hx Hy)
    as (r & g & b & a & -> & _).
  destruct (a <? 128); [eauto|].
  destruct (floodFillRegion_terminates data w h fuel x y r g b visited step
              Hwf Hfuel) as [[region visited'] ->].
  cbn [obind]. destruct region as [pixels|]; [|eauto].
  destruct (Nat.leb 5 (length pixels)); [|eauto].
  destruct (minAreaThreshold _ _ <=? _); eauto.
Qed.

(** With the budget [enoughFuel] the scan of a well-formed image always
    comes to an end. *)
Lemma scanRegions_finishes (data : list Z) (w h : Z) (fuel : nat) :
  wellFormed data w h -> (enoughFuel w h <= fuel)%nat ->
  exists raw, scanRegions fuel data w h = finished raw.
Proof.
  intros Hwf Hfuel. unfold scanRegions.
  destruct (foldOutcome_finishes (scanRow fuel data w h) (gridCoordinates h))
    with (s := (∅ : gset (Z * Z), @nil Region)) as [[visited regions] ->].
  - intros s y Hy. apply gridCoordinates_range in Hy. unfold scanRow.
    apply foldOutcome_finishes. intros s' x Hx.
    apply gridCoordinates_range in Hx. by apply scanPixel_finishes.
  - simpl. eauto.
Qed.

(** *** From admitted raw regions to a non-empty result *)

Lemma foldl_min_le_init (l : list Z) (a : Z) : foldl Z.min a l <= a.
Proof.
  revert a. induction l as [|x l IH]; simpl; intros a; [lia|].
  specialize (IH (Z.min a x)). lia.
Qed.

Lemma foldl_max_ge_init (l : list Z) (a : Z) : a <= foldl Z.max a l.
Proof.
  revert a. induction l as [|x l IH]; simpl; intros a; [lia|].
  specialize (IH (Z.max a x)). lia.
Qed.

Lemma foldl_max_ge_elem (l : list Z) (a x : Z) : x ∈ l -> x <= foldl Z.max a l.
Proof.
  revert a. induction l as [|y l IH]; simpl; intros a Hx.
  - by apply elem_of_nil in Hx.
  - apply elem_of_cons in Hx as [->|Hx]; [|by apply IH].
    pose proof (foldl_max_ge_init l (Z.max a y)). lia.
Qed.

Lemma foldl_max_cases (l : list Z) (a : Z) :
  foldl Z.max a l = a \/ foldl Z.max a l ∈ l.
Proof.
  revert a. induction l as [|y l IH]; simpl; intros a; [by left|].
  destruct (IH (Z.max a y)) as [H|H].
  - rewrite H. destruct (Z.max_spec a y) as [[_ ->]|[_ ->]];
      [right; left|by left].
  - right. by right.
Qed.

Lemma max_list_ge (l : list Z) (x : Z) : x ∈ l -> x <= Js.max_list l.
Proof.
  destruct l as [|a l]; simpl; intros Hx.
  - by apply elem_of_nil in Hx.
  - apply elem_of_cons in Hx as [->|Hx];
      [apply foldl_max_ge_init|by apply foldl_max_ge_elem].
Qed.

Lemma max_list_elem (l : list Z) : l <> [] -> Js.max_list l ∈ l.
Proof.
  destruct l as [|a l]; [done|]. intros _. simpl.
  destruct (foldl_max_cases l a) as [->|H]; [left|by right].
Qed.

Lemma min_list_le_max_list (l : list Z) : Js.min_list l <= Js.max_list l.
Proof.
  destruct l as [|a l]; simpl; [lia|].
  pose proof (foldl_min_le_init l a). pose proof (foldl_max_ge_init l a). lia.
Qed.

Lemma min_list_le_head (a : Z) (l : list Z) : Js.min_list (a :: l) <= a.
Proof. apply foldl_min_le_init. Qed.

Lemma foldOutcome_invariant {A S : Type} (P : S -> Prop)
    (f : S -> A -> outcome S) (l : list A) :
  (forall s a s', P s -> f s a = finished s' -> P s') ->
  forall s s', P s -> foldOutcome f l s = finished s' -> P s'.
Proof.
  intros Hstep. induction l as [|a l IH]; simpl; intros s s' Hs Hfold.
  - by injection Hfold as <-.
  - destruct (f s a) as [s1| |] eqn:Hf; simpl in Hfold; [|discriminate..].
    eapply IH; [|exact Hfold]. eapply Hstep; eauto.
Qed.

Lemma scanPixel_wellShaped (fuel : nat) (data : list Z) (w h x y : Z)
    (st st' : gset (Z * Z) * list Region) :
  Forall wellShaped st.2 ->
  scanPixel fuel data w h y st x = finished st' ->
  Forall wellShaped st'.2.
Proof.
  destruct st as [visited regions], st' as [visited1 regions1].
  unfold scanPixel. cbn [snd]. intros Hws.
  case_bool_decide; [by intros [= <- <-]|].
  destruct (readPixel data w x y) as [[[[r g] b] a]|]; [|discriminate].
  destruct (a <? 128); [by intros [= <- <-]|].
  destruct (floodFillRegion _ _ _ _ _ _ _ _ _ _ _) as [[region visited']| |];
    cbn [obind]; [|discriminate..].
  destruct region as [pixels|]; [|by intros [= <- <-]].
  destruct (Nat.leb 5 (length pixels)); [|by intros [= <- <-]].
  destruct (minAreaThreshold _ _ <=? _); [|by intros [= <- <-]].
  intros [= <- <-]. apply Forall_app. split; [exact Hws|].
  apply Forall_singleton. unfold wellShaped, calculateBounds. simpl.
  pose proof (min_list_le_max_list (map fst pixels)).
  pose proof (min_list_le_max_list (map snd pixels)). nia.
Qed.

Lemma scanRegions_wellShaped (fuel : nat) (data : list Z) (w h : Z)
    (raw : list Region) :
  scanRegions fuel data w h = finished raw -> Forall wellShaped raw.
Proof.
  unfold scanRegions.
  destruct (foldOutcome _ _ _) as [[visited regions]| |] eqn:Hfold;
    cbn [obind]; [|discriminate..].
  intros [= <-].
  apply (foldOutcome_invariant (fun s => Forall wellShaped s.2)) in Hfold;
    [exact Hfold| |constructor].
  intros s y s' Hs. unfold scanRow.
  apply (foldOutcome_invariant (fun s => Forall wellShaped s.2)); [|exact Hs].
  intros s1 x s2. apply scanPixel_wellShaped.
Qed.

Lemma mergeRegions_wellShaped (first : Region) (rest : list Region) :
  wellShaped first ->
  wellShaped (default first (mergeRegions (first :: rest))).
Proof.
  intros (Hw & Hh & _). unfold wellShaped. cbn [mergeRegions default bounds area].
  set (allBounds := map bounds (first :: rest)).
  set (minX := Js.min_list (map Bounds.x allBounds)).
  set (minY := Js.min_list (map Bounds.y allBounds)).
  set (maxX := Js.max_list (map (fun b => Bounds.x b + Bounds.width b) allBounds)).
  set (maxY := Js.max_list (map (fun b => Bounds.y b + Bounds.height b) allBounds)).
  assert (minX <= Bounds.x (bounds first)) by apply min_list_le_head.
  assert (minY <= Bounds.y (bounds first)) by apply min_list_le_head.
  assert (Bounds.x (bounds first) + Bounds.width (bounds first) <= maxX)
    by (apply max_list_ge; left).
  assert (Bounds.y (bounds first) + Bounds.height (bounds first) <= maxY)
    by (apply max_list_ge; left).
  simpl. nia.
Qed.

Lemma consolidateFrom_extends (regions : list Region) (todo : list nat)
    (used : gset nat) (acc : list Region) :
  exists suffix, consolidateFrom regions todo used acc = acc ++ suffix.
Proof.
  revert used acc. induction todo as [|i todo IH]; simpl; intros used acc.
  - exists []. by rewrite app_nil_r.
  - case_bool_decide; [by apply IH|].
    destruct (regions !! i) as [mainRegion|]; [|by apply IH].
    destruct (collectOverlapping _ _ _ _ _) as [used' overlapping].
    match goal with
    | |- context [consolidateFrom _ _ _ (acc ++ [?p])] =>
      destruct (IH used' (acc ++ [p])) as [suffix ->]; exists (p :: suffix)
    end.
    by rewrite <- app_assoc.
Qed.

Lemma consolidateFrom_wellShaped (regions : list Region) (todo : list nat)
    (used : gset nat) (acc : list Region) :
  Forall wellShaped regions -> Forall wellShaped acc ->
  Forall wellShaped (consolidateFrom regions todo used acc).
Proof.
  intros Hregions. revert used acc.
  induction todo as [|i todo IH]; simpl; intros used acc Hacc; [exact Hacc|].
  case_bool_decide; [by apply IH|].
  destruct (regions !! i) as [mainRegion|] eqn:Hi; [|by apply IH].
  destruct (collectOverlapping _ _ _ _ _) as [used' overlapping] eqn:Hcollect.
  destruct (collectOverlapping_extends regions mainRegion
              (seq (S i) (length regions - S i)) ({[ i ]} ∪ used) [mainRegion])
    as (others & Hothers & _).
  rewrite Hcollect in Hothers. simpl in Hothers. subst overlapping.
  assert (Hmain : wellShaped mainRegion).
  { rewrite Forall_forall in Hregions. apply Hregions.
    apply list_elem_of_lookup. eauto. }
  apply IH. apply Forall_app. split; [exact Hacc|]. apply Forall_singleton.
  destruct (Nat.ltb _ _); [|exact Hmain].
  by apply mergeRegions_wellShaped.
Qed.

Lemma consolidate_wellShaped (regions : list Region) :
  Forall wellShaped regions ->
  Forall wellShaped (consolidateOverlappingRegions regions).
Proof.
  intros H. by apply consolidateFrom_wellShaped.
Qed.

Lemma consolidate_nonempty (regions : list Region) :
  regions <> [] -> consolidateOverlappingRegions regions <> [].
Proof.
  destruct regions as [|r rest]; [done|]. intros _.
  unfold consolidateOverlappingRegions. cbn [length seq consolidateFrom].
  rewrite bool_decide_eq_false_2 by set_solver. cbn [lookup list_lookup].
  destruct (collectOverlapping _ _ _ _ _) as [used' overlapping].
  match goal with
  | |- consolidateFrom ?rs ?todo ?u ([] ++ [?p]) <> [] =>
    destruct (consolidateFrom_extends rs todo u ([] ++ [p])) as [suffix ->]
  end.
  discriminate.
Qed.

(** A region of the largest area always passes the significance filter
    when that area is not negative. *)
Lemma filterSignificantRegions_nonempty (regions : list Region) :
  Forall wellShaped regions -> regions <> [] ->
  filterSignificantRegions regions <> [].
Proof.
  intros Hws Hne. unfold filterSignificantRegions.
  destruct regions as [|r0 rest] eqn:Hregions; [done|]. rewrite <- Hregions in *.
  set (maxArea := Js.max_list (map area regions)).
  assert (Hin : maxArea ∈ map area regions).
  { apply max_list_elem. rewrite Hregions. discriminate. }
  apply list_elem_of_fmap in Hin as (r & Hr & Hrin).
  assert (Hkeep : isSignificant maxArea r = true).
  { rewrite Forall_forall in Hws. destruct (Hws r Hrin) as (_ & _ & Harea).
    unfold isSignificant. repeat case_match; try reflexivity.
    apply Z.leb_le. lia. }
  intros Hnil.
  assert (Hfiltered : r ∈ filter (fun region => isSignificant maxArea region = true) regions)
    by (apply list_elem_of_filter; auto).
  rewrite Hnil in Hfiltered. by apply elem_of_nil in Hfiltered.
Qed.

Lemma sortByAreaDesc_nonempty (regions : list Region) :
  regions <> [] -> sortByAreaDesc regions <> [].
Proof.
  intros Hne Hnil. pose proof (sortByAreaDesc_perm regions) as Hperm.
  rewrite Hnil in Hperm. apply Permutation_nil_l in Hperm. by symmetry in Hperm.
Qed.

Lemma later_stages_empty_iff (raw : list Region) :
  Forall wellShaped raw ->
  sortByAreaDesc (filterSignificantRegions (consolidateOverlappingRegions raw)) = []
  <-> raw = [].
Proof.
  intros Hws. split.
  - intros Hempty. destruct raw as [|r rest] eqn:Hraw; [reflexivity|].
    rewrite <- Hraw in *. exfalso. revert Hempty.
    apply sortByAreaDesc_nonempty, filterSignificantRegions_nonempty.
    + by apply consolidate_wellShaped.
    + apply consolidate_nonempty. rewrite Hraw. discriminate.
  - intros ->. reflexivity.
Qed.

(** C4, as stated, fails: a 10 × 10 image of opaque red is flood-filled
    into one region of 25 samples whose bounding box, 8 × 8, is below the
    admission threshold for red (150), so the extractor returns the empty
    list. *)
Lemma opaque_image_without_regions :
  ~ (forall (data : list Z) (w h : Z) (fuel : nat) (out : list Region),
       wellFormed data w h -> hasOpaquePixel data ->
       findMajorRegions fuel data w h = finished out -> out <> []).
Proof.
  intros H.
  apply (H opaqueRed10 10 10 (enoughFuel 10 10) []).
  - repeat split; vm_compute; congruence.
  - exists 0%nat, 255. split; [reflexivity|lia].
  - vm_compute. reflexivity.
  - reflexivity.
Qed.

Lemma foldOutcome_app {A S : Type} (f : S -> A -> outcome S) (l1 l2 : list A) (s : S) :
  foldOutcome f (l1 ++ l2) s = obind (foldOutcome f l1 s) (foldOutcome f l2).
Proof.
  revert s. induction l1 as [|a l1 IH]; intros s; simpl; [reflexivity|].
  destruct (f s a) as [s'| |]; simpl; [apply IH|reflexivity..].
Qed.

Lemma foldOutcome_map {A B S : Type} (f : S -> B -> outcome S) (g : A -> B)
    (l : list A) (s : S) :
  foldOutcome f (map g l) s = foldOutcome (fun s a => f s (g a)) l s.
Proof.
  revert s. induction l as [|a l IH]; intros s; simpl; [reflexivity|].
  destruct (f s (g a)) as [s'| |]; simpl; [apply IH|reflexivity..].
Qed.

(** The two nested scanning loops visit the sampled pixels row by row. *)
Lemma scanRows_gridPoints (fuel : nat) (data : list Z) (w h : Z)
    (st : gset (Z * Z) * list Region) :
  foldOutcome (scanRow fuel data w h) (gridCoordinates h) st
  = foldOutcome (fun st p => scanPixel fuel data w h p.2 st p.1) (gridPoints w h) st.
Proof.
  unfold gridPoints. revert st.
  induction (gridCoordinates h) as [|y ys IH]; intros st; simpl; [reflexivity|].
  rewrite foldOutcome_app, foldOutcome_map. unfold scanRow at 1. cbn [fst snd].
  destruct (foldOutcome (scanPixel fuel data w h y) (gridCoordinates w) st)
    as [st'| |]; simpl; [apply IH|reflexivity..].
Qed.

(** What one sampled pixel does to the list of regions: it appends one
    region exactly when its flood fill is admitted. *)
Lemma scanPixel_admits (fuel : nat) (data : list Z) (w h x y : Z)
    (visited visited' : gset (Z * Z)) (regions regions' : list Region) :
  scanPixel fuel data w h y (visited, regions) x = finished (visited', regions') ->
  (regions' = regions /\ ~ admittedFill fuel data w h visited (x, y))
  \/ ((exists r, regions' = regions ++ [r])
      /\ admittedFill fuel data w h visited (x, y)).
Proof.
  unfold scanPixel, admittedFill. cbn [fst snd].
  case_bool_decide as Hvis.
  { intros [= <- <-]. left. split; [reflexivity|]. by intros [? _]. }
  destruct (readPixel data w x y) as [[[[r g] b] a]|] eqn:Hread; [|discriminate].
  destruct (a <? 128) eqn:Ha.
  { intros [= <- <-]. left. split; [reflexivity|].
    intros (_ & r' & g' & b' & a' & pixels & v' & [= <- <- <- <-] & Hop & _). lia. }
  destruct (floodFillRegion fuel data w h x y r g b visited step)
    as [[region v1]| |] eqn:Hfill; cbn [obind]; [|discriminate..].
  assert (Hsame : forall r' g' b' a' pixels' v',
            Some (r, g, b, a) = Some (r', g', b', a') ->
            floodFillRegion fuel data w h x y r' g' b' visited step
            = finished (Some pixels', v') ->
            region = Some pixels').
  { intros r' g' b' a' pixels' v' [= <- <- <- <-] Hfill'.
    rewrite Hfill in Hfill'. by injection Hfill' as -> _. }
  destruct region as [pixels|].
  2:{ intros [= <- <-]. left. split; [reflexivity|].
      intros (_ & r' & g' & b' & a' & pixels' & v' & Hpixel & _ & Hfill' & _).
      by specialize (Hsame _ _ _ _ _ _ Hpixel Hfill'). }
  destruct (Nat.leb 5 (length pixels)) eqn:Hsize.
  2:{ intros [= <- <-]. left. split; [reflexivity|].
      intros (_ & r' & g' & b' & a' & pixels' & v' & Hpixel & _ & Hfill' & Hfive & _).
      specialize (Hsame _ _ _ _ _ _ Hpixel Hfill'). injection Hsame as <-.
      apply Nat.leb_gt in Hsize. lia. }
  destruct (minAreaThreshold _ _ <=? _) eqn:Harea.
  - intros [= <- <-]. right. split; [eauto|]. split; [exact Hvis|].
    exists r, g, b, a, pixels, v1. repeat split; try done; try lia.
    by apply Nat.leb_le.
  - intros [= <- <-]. left. split; [reflexivity|].
    intros (_ & r' & g' & b' & a' & pixels' & v' & Hpixel & _ & Hfill' & _ & Hthreshold).
    specialize (Hsame _ _ _ _ _ _ Hpixel Hfill'). injection Hsame as <-.
    injection Hpixel as <- <- <- <-. lia.
Qed.

(** The regions a scan of the pixels [l] leaves behind are not empty
    exactly when there were regions before, or the fill of one of the
    pixels was admitted. *)
Lemma scan_admits (fuel : nat) (data : list Z) (w h : Z) (l : list (Z * Z)) :
  forall (st st' : gset (Z * Z) * list Region),
    foldOutcome (fun st p => scanPixel fuel data w h p.2 st p.1) l st = finished st' ->
    st'.2 <> []
    <-> st.2 <> []
        \/ exists k p visited regions,
             l !! k = Some p
             /\ foldOutcome (fun st p => scanPixel fuel data w h p.2 st p.1)
                  (take k l) st = finished (visited, regions)
             /\ admittedFill fuel data w h visited p.
Proof.
  induction l as [|[x y] l IH]; intros [visited regions] st'; cbn [foldOutcome snd].
  - intros [= <-]. cbn [snd]. split; [by left|].
    intros [H|(k & p & _ & _ & Hk & _)]; [exact H|]. by destruct k.
  - cbn [fst snd].
    destruct (scanPixel fuel data w h y (visited, regions) x) as [[v1 r1]| |] eqn:Hstep;
      cbn [obind]; [|discriminate..].
    intros Hrest. rewrite (IH _ _ Hrest). cbn [snd].
    apply scanPixel_admits in Hstep as Hcases. split.
    + intros [Hr1|(k & p & vk & rk & Hk & Hbefore & Hadm)].
      * destruct Hcases as [[-> _]|[_ Hadm]]; [by left|].
        right. exists 0%nat, (x, y), visited, regions. done.
      * right. exists (S k), p, vk, rk. split; [exact Hk|]. split; [|exact Hadm].
        cbn [take foldOutcome fst snd]. by rewrite Hstep.
    + intros [Hr|(k & p & vk & rk & Hk & Hbefore & Hadm)].
      * left. destruct Hcases as [[-> _]|[[r ->] _]]; [exact Hr|].
        by destruct regions.
      * destruct k as [|k].
        -- cbn in Hk, Hbefore. injection Hk as <-. injection Hbefore as <- <-.
           left. destruct Hcases as [[_ Hno]|[[r ->] _]]; [tauto|].
           by destruct regions.
        -- right. exists k, p, vk, rk. split; [exact Hk|]. split; [|exact Hadm].
           cbn [take foldOutcome fst snd] in Hbefore. by rewrite Hstep in Hbefore.
Qed.

(** C4, amended: for every fully transparent image the Region Extractor
    returns the empty list, whatever the step budget; and for every image
    it returns, given the step budget [enoughFuel], a list that is
    non-empty exactly when the scan admits a flood fill at one of the
    pixels it samples: the pixel is opaque and was not visited by an
    earlier fill, and the fill from it collects at least five samples
    whose bounding box has an area (width times height) of at least the
    threshold for its shape and colour.  An opaque pixel alone does not
    make the result non-empty. *)
Theorem findMajorRegions_transparent_or_admitted (data : list Z) (w h : Z) :
  wellFormed data w h ->
  (fullyTransparent data ->
   forall fuel, findMajorRegions fuel data w h = finished [])
  /\ (forall fuel, (enoughFuel w h <= fuel)%nat ->
      exists out,
        findMajorRegions fuel data w h = finished out
        /\ (out <> [] <-> exists k, admitsAt fuel data w h k)).
Proof.
  intros Hwf. split.
  - intros Htr fuel. unfold findMajorRegions.
    by rewrite scanRegions_transparent.
  - intros fuel Hfuel.
    destruct (scanRegions_finishes data w h fuel Hwf Hfuel) as [raw Hraw].
    exists (sortByAreaDesc (filterSignificantRegions
                              (consolidateOverlappingRegions raw))).
    split; [unfold findMajorRegions; by rewrite Hraw|].
    pose proof (scanRegions_wellShaped _ _ _ _ _ Hraw) as Hshaped.
    pose proof (later_stages_empty_iff raw Hshaped) as Hlater.
    unfold scanRegions in Hraw. rewrite scanRows_gridPoints in Hraw.
    destruct (foldOutcome _ (gridPoints w h) _) as [[visited regions]| |] eqn:Hscan;
      cbn [obind] in Hraw; [|discriminate..].
    injection Hraw as ->.
    pose proof (scan_admits fuel data w h _ _ _ Hscan) as Hadmits.
    cbn [snd] in Hadmits.
    transitivity (raw <> []); [tauto|].
    rewrite Hadmits. unfold admitsAt, scanBefore. split.
    + intros [Hne|(k & p & vk & rk & Hk & Hbefore & Hadm)]; [done|].
      exists k, p, vk, rk. done.
    + intros (k & p & vk & rk & Hk & Hbefore & Hadm). right.
      exists k, p, vk, rk. done.
Qed.

Lemma transparent4_fullyTransparent : fullyTransparent transparent4.
Proof.
  intros i a H.
  assert (Hi : (4 * i + 3 < 64)%nat) by (apply lookup_lt_Some in H; exact H).
  do 16 (destruct i as [|i]; [vm_compute in H; injection H as <-; lia|]).
  lia.
Qed.

Lemma findMajorRegions_transparent_or_admitted_witness :
  findMajorRegions 0 transparent4 4 4 = finished []
  /\ exists out,
       findMajorRegions (enoughFuel 20 20) opaqueRed20 20 20 = finished out
       /\ out <> [].
Proof.
  split.
  - refine (proj1 (findMajorRegions_transparent_or_admitted transparent4 4 4 _)
              transparent4_fullyTransparent 0%nat).
    repeat split; vm_compute; congruence.
  - assert (Hfill : exists pixels visited',
              floodFillRegion (enoughFuel 20 20) opaqueRed20 20 20 0 0 255 0 0 ∅ step
              = finished (Some pixels, visited')
              /\ (5 <= length pixels)%nat
              /\ minAreaThreshold (rgbToColorName 255 0 0) (calculateBounds pixels)
                 <= Bounds.width (calculateBounds pixels)
                    * Bounds.height (calculateBounds pixels)).
    { assert (Hadmitted :
        match floodFillRegion (enoughFuel 20 20) opaqueRed20 20 20 0 0 255 0 0 ∅ step with
        | finished (Some pixels, _) =>
          Nat.leb 5 (length pixels)
          && (minAreaThreshold (rgbToColorName 255 0 0) (calculateBounds pixels)
              <=? Bounds.width (calculateBounds pixels)
                  * Bounds.height (calculateBounds pixels))
        | _ => false
        end = true) by (vm_compute; reflexivity).
      destruct (floodFillRegion (enoughFuel 20 20) opaqueRed20 20 20 0 0 255 0 0 ∅ step)
        as [[[pixels|] visited']| |]; try discriminate.
      apply andb_true_iff in Hadmitted as [Hfive Harea]. exists pixels, visited'.
      split; [reflexivity|]. split; [by apply Nat.leb_le|lia]. }
    destruct Hfill as (pixels & visited' & Hfill & Hfive & Harea).
    assert (Hwf : wellFormed opaqueRed20 20 20)
      by (repeat split; vm_compute; congruence).
    destruct (proj2 (findMajorRegions_transparent_or_admitted opaqueRed20 20 20 Hwf)
                (enoughFuel 20 20) (le_n _)) as (out & Hout & Hiff).
    exists out. split; [exact Hout|]. apply Hiff.
    exists 0%nat, (0, 0), ∅, []. split; [reflexivity|]. split; [reflexivity|].
    split; [apply not_elem_of_empty|].
    exists 255, 0, 0, 255, pixels, visited'.
    split; [reflexivity|]. split; [lia|]. split; [exact Hfill|].
    split; [exact Hfive|exact Harea].
Defined.

End Extraction.

(** ** The round loop of the universal orchestrator *)

Section UniversalRounds.
Import Exc UniversalOrchestrator.

Lemma new_ranges (config : Config) (o : Orchestrator) :
  new config = Return o ->
  1 <= maxIterations o <= 7 /\ 1 <= targetScore o <= 20.
Proof.
  unfold new. destruct (negb _); [discriminate|].
  intros [= <-]. simpl. lia.
Qed.

(** Both judges answer on a scale that starts at 0. *)
Lemma evaluateIteration_nonneg (o : Orchestrator) (sv : Services)
    (code : string) (n : nat) (ev : Evaluation) :
  evaluateIteration o sv code n = Return ev -> 0 <= ev_score ev.
Proof.
  unfold evaluateIteration, bind, roundDoubled.
  destruct (String.eqb (evaluationMode o) "self").
  - destruct (compareImagesAndImprove sv n code) as [result|]; [|discriminate].
    intros [= <-]. simpl. destruct (success _); lia.
  - destruct (String.eqb (evaluationMode o) "dual"); [|discriminate].
    destruct (negb _); [discriminate|].
    destruct (compareImages sv n code) as [groq|]; [|discriminate].
    intros [= <-]. simpl.
    pose proof (N2Z.is_nonneg (score_tenths groq)).
    apply Z.div_pos; lia.
Qed.

(** What a round that does not throw leaves behind. *)
Lemma runIteration_Return (o : Orchestrator) (sv : Services) (n : nat)
    (st st' : LoopState) (stopped : bool) :
  runIteration o sv n st = Return (st', stopped) ->
  exists finalCode ev,
    evaluateIteration o sv finalCode n = Return ev
    /\ iterations st'
       = iterations st ++ [ mkIteration n finalCode (ev_score ev) (ev_feedback ev) ]
    /\ bestScore st'
       = (if bestScore st <? ev_score ev then ev_score ev else bestScore st)
    /\ bestIteration st'
       = (if bestScore st <? ev_score ev then n else bestIteration st)
    /\ currentIteration st' = n
    /\ stopped = (targetScore o <=? ev_score ev).
Proof.
  unfold runIteration, bind.
  destruct (generateCode _ _ _ _) as [generated|]; [|discriminate].
  destruct (handleErrors _ _ _ _) as [finalCode|]; [|discriminate].
  destruct (captureSketch _ _ _); [|discriminate].
  destruct (evaluateIteration _ _ _ _) as [ev|] eqn:Hev; [|discriminate].
  destruct (targetScore o <=? ev_score ev) eqn:Hstop; intros [= <- <-];
    exists finalCode, ev; simpl; repeat split; auto.
Qed.

(** *** Best-round bookkeeping *)

Lemma max_list_snoc (l : list Z) (s : Z) :
  l <> [] -> Js.max_list (l ++ [s]) = Z.max (Js.max_list l) s.
Proof.
  destruct l as [|a l]; [done|]. intros _. simpl. by rewrite foldl_app.
Qed.

Lemma find_app_None {A : Type} (f : A -> bool) (l1 l2 : list A) :
  find f l1 = None -> find f (l1 ++ l2) = find f l2.
Proof.
  induction l1 as [|a l1 IH]; simpl; [reflexivity|].
  destruct (f a); [discriminate|auto].
Qed.

Lemma find_none_below (l : list Iteration) (s : Z) :
  (forall it, it ∈ l -> score it < s) ->
  find (fun it => score it =? s) l = None.
Proof.
  induction l as [|a l IH]; simpl; intros H; [reflexivity|].
  rewrite (proj2 (Z.eqb_neq (score a) s)).
  - apply IH. intros it Hit. apply H. by right.
  - specialize (H a ltac:(left)). lia.
Qed.

Lemma roundsRecorded_initial : roundsRecorded 0 initialState.
Proof. split; simpl; try done. intros it Hit. by apply elem_of_nil in Hit. Qed.

Lemma roundsRecorded_length (k : nat) (st : LoopState) :
  roundsRecorded k st -> length (iterations st) = k.
Proof.
  intros [Hn _ _ _]. apply (f_equal length) in Hn.
  by rewrite length_map, length_seq in Hn.
Qed.

Lemma max_list_scores_bound (l : list Iteration) (it : Iteration) :
  it ∈ l -> score it <= Js.max_list (map score l).
Proof.
  intros Hit. apply max_list_ge, list_elem_of_fmap. eauto.
Qed.

(** A round that does not throw keeps the bookkeeping exact. *)
Lemma runIteration_recorded (o : Orchestrator) (sv : Services) (k : nat)
    (st st' : LoopState) (stopped : bool) :
  roundsRecorded k st ->
  runIteration o sv (S k) st = Return (st', stopped) ->
  roundsRecorded (S k) st'
  /\ exists it,
       iterations st' = iterations st ++ [it]
       /\ iteration it = S k
       /\ stopped = (targetScore o <=? score it).
Proof.
  intros [Hnum Hcur Hnonneg Hbest] Hrun.
  apply runIteration_Return in Hrun
    as (finalCode & ev & Hev & Hiter & Hbs & Hbi & Hc & Hstop).
  apply evaluateIteration_nonneg in Hev.
  set (it := mkIteration (S k) finalCode (ev_score ev) (ev_feedback ev)) in *.
  split; [|exists it; auto].
  split.
  - rewrite Hiter, map_app, Hnum, seq_S. reflexivity.
  - intros _. exact Hc.
  - intros x Hx. rewrite Hiter in Hx.
    apply elem_of_app in Hx as [Hx|Hx]; [auto|].
    apply list_elem_of_singleton in Hx as ->. exact Hev.
  - unfold bestTracked in *. rewrite Hiter, Hbs, Hbi.
    destruct (iterations st) as [|first rest] eqn:Hrec.
    + destruct Hbest as [-> ->]. simpl in Hnum.
      assert (k = 0%nat) as -> by (by destruct k).
      simpl. unfold earliestWithScore. simpl.
      destruct (0 <? ev_score ev) eqn:Hlt.
      * by rewrite Z.eqb_refl.
      * apply Z.ltb_ge in Hlt.
        assert (ev_score ev = 0) as -> by lia. done.
    + destruct Hbest as [Hmax Hearliest]. rewrite <- Hrec in *.
      assert (Hne : map score (iterations st) <> [])
        by (rewrite Hrec; discriminate).
      assert (Hcons : exists a l, iterations st ++ [it] = a :: l)
        by (rewrite Hrec; simpl; eauto).
      destruct Hcons as (a & l & Hcons). rewrite Hcons, <- Hcons.
      rewrite map_app. change (map score [it]) with [ev_score ev].
      rewrite (max_list_snoc _ _ Hne), <- Hmax.
      unfold earliestWithScore in *.
      destruct (bestScore st <? ev_score ev) eqn:Hlt.
      * apply Z.ltb_lt in Hlt. split; [lia|].
        rewrite find_app_None.
        -- simpl. by rewrite Z.eqb_refl.
        -- apply find_none_below. intros x Hx.
           pose proof (max_list_scores_bound _ _ Hx). lia.
      * apply Z.ltb_ge in Hlt. split; [lia|].
        destruct (find _ (iterations st)) as [found|] eqn:Hfind; [|discriminate].
        by rewrite (find_app_Some _ _ _ _ Hfind).
Qed.

(** *** How the loop ends *)

Lemma runIterations_spec (o : Orchestrator) (sv : Services) (m : nat) :
  forall (k : nat) (st : LoopState),
    roundsRecorded k st -> allBelow o (iterations st) ->
    match runIterations o sv (seq (S k) m) st with
    | loop_done st' =>
      exists k', roundsRecorded k' st' /\ (k <= k' <= k + m)%nat
                 /\ ((k' = (k + m)%nat /\ allBelow o (iterations st'))
                     \/ exists earlier last,
                          iterations st' = earlier ++ [last]
                          /\ allBelow o earlier
                          /\ targetScore o <= score last)
    | loop_threw e st' =>
      exists k', roundsRecorded k' st' /\ (k <= k' < k + m)%nat
                 /\ allBelow o (iterations st')
    end.
Proof.
  induction m as [|m IH]; intros k st Hrec Hbelow; simpl.
  - exists k. split; [exact Hrec|]. split; [lia|]. left. split; [lia|exact Hbelow].
  - destruct (runIteration o sv (S k) st) as [[st' stopped]|e] eqn:Hrun.
    + destruct (runIteration_recorded o sv k st st' stopped Hrec Hrun)
        as (Hrec' & it & Hiter & Hnum & Hstop).
      destruct stopped.
      * exists (S k). split; [exact Hrec'|]. split; [lia|]. right.
        exists (iterations st), it. split; [exact Hiter|]. split; [exact Hbelow|].
        symmetry in Hstop. by apply Z.leb_le in Hstop.
      * assert (Hbelow' : allBelow o (iterations st')).
        { intros x Hx. rewrite Hiter in Hx.
          apply elem_of_app in Hx as [Hx|Hx]; [by apply Hbelow|].
          apply list_elem_of_singleton in Hx as ->.
          symmetry in Hstop. by apply Z.leb_gt in Hstop. }
        specialize (IH (S k) st' Hrec' Hbelow').
        destruct (runIterations o sv (seq (S (S k)) m) st') as [st2|e st2].
        -- destruct IH as (k' & Hk' & Hrange & Hend).
           exists k'. split; [exact Hk'|]. split; [lia|].
           destruct Hend as [[-> Hb]|Hlast]; [left; split; [lia|exact Hb]|by right].
        -- destruct IH as (k' & Hk' & Hrange & Hb).
           exists k'. split; [exact Hk'|]. split; [lia|exact Hb].
    + exists k. split; [exact Hrec|]. split; [lia|exact Hbelow].
Qed.

Lemma last_round_number (k : nat) (st : LoopState) (earlier : list Iteration)
    (last : Iteration) :
  roundsRecorded k st -> iterations st = earlier ++ [last] -> iteration last = k.
Proof.
  intros Hrec Hiter. pose proof (roundsRecorded_length _ _ Hrec) as Hlen.
  destruct Hrec as [Hnum _ _ _]. rewrite Hiter in Hnum, Hlen.
  rewrite length_app in Hlen. simpl in Hlen.
  destruct k as [|k]; [lia|].
  rewrite map_app, seq_S in Hnum. simpl in Hnum.
  apply app_inj_tail in Hnum as [_ Hlast]. exact Hlast.
Qed.

(** *** The number of rounds *)

(** C1, as stated, fails: when the target is first met in the last
    permitted round, all rounds have run although a round met the
    target. *)
Lemma target_met_in_last_round :
  ~ stopsEarlyIffTargetMet threeRounds succeedsInRoundThree.
Proof.
  intros H. destruct (H _ eq_refl) as [_ [_ Hiff]].
  assert (Hlt : Z.of_nat 3 < 3); [|lia].
  apply Hiff. eexists. split; [vm_compute; do 2 right; left|]. vm_compute. discriminate.
Qed.

(** The same happens with the second judge in place of the
    self-evaluation. *)
Lemma target_met_in_last_round_judged :
  ~ stopsEarlyIffTargetMet threeRoundsJudged judgedFiveInRoundThree.
Proof.
  intros H. destruct (H _ eq_refl) as [_ [_ Hiff]].
  assert (Hlt : Z.of_nat 3 < 3); [|lia].
  apply Hiff. eexists. split; [vm_compute; do 2 right; left|]. vm_compute. discriminate.
Qed.

(** C1, amended: for every session the number of recorded rounds never
    exceeds the configured maximum; and when the session returns, the
    round count it reports is the number of recorded rounds, which is
    below the maximum if and only if some round before the last
    permitted one scored at or above the target.  (Some round scored at
    or above the target if and only if the session reports the target as
    reached; when that round is the last permitted one, the count equals
    the maximum.) *)
Theorem session_round_count (config : Config) (sv : Services) (o : Orchestrator) :
  new config = Return o ->
  let out := runSession o sv in
  Z.of_nat (length (recordedRounds out)) <= maxIterations o
  /\ forall result recorded,
       out = completed result recorded ->
       totalIterations result = length recorded
       /\ (Z.of_nat (length recorded) < maxIterations o
           <-> exists it, it ∈ recorded
                          /\ Z.of_nat (iteration it) < maxIterations o
                          /\ targetScore o <= score it)
       /\ (targetReached result = true
           <-> exists it, it ∈ recorded /\ targetScore o <= score it).
Proof.
  intros Hnew. apply new_ranges in Hnew as [Hmax Htarget].
  unfold runSession. destruct (setupSession sv); [|simpl; split; [lia|discriminate]].
  pose proof (runIterations_spec o sv (Z.to_nat (maxIterations o)) 0 initialState
                roundsRecorded_initial) as Hspec.
  assert (Hinit : allBelow o (iterations initialState))
    by (intros it Hit; by apply elem_of_nil in Hit).
  specialize (Hspec Hinit).
  destruct (runIterations o sv (seq 1 (Z.to_nat (maxIterations o))) initialState)
    as [st|e st].
  - destruct Hspec as (k & Hrec & Hrange & Hend).
    pose proof (roundsRecorded_length _ _ Hrec) as Hlen.
    assert (Hbound : Z.of_nat (length (iterations st)) <= maxIterations o) by lia.
    destruct (createSessionSummary sv); simpl; (split; [exact Hbound|]);
      [|discriminate].
    intros result recorded [= <- <-]. simpl. split; [|split].
    + destruct k as [|k]; [|rewrite (rec_current _ _ Hrec); lia].
      destruct Hend as [[Hk _]|(earlier & last & Hiter & _)]; [lia|].
      rewrite Hiter, length_app in Hlen. simpl in Hlen. lia.
    + split.
      * intros Hlt. destruct Hend as [[Hk _]|(earlier & last & Hiter & _ & Hmet)];
          [lia|].
        exists last. split; [rewrite Hiter; set_solver|].
        rewrite (last_round_number k st earlier last Hrec Hiter). split; [lia|exact Hmet].
      * intros (it & Hit & Hnum & Hmet).
        destruct Hend as [[_ Hb]|(earlier & last & Hiter & Hb & _)].
        -- specialize (Hb it Hit). lia.
        -- rewrite Hiter in Hit. apply elem_of_app in Hit as [Hit|Hit].
           ++ specialize (Hb it Hit). lia.
           ++ apply list_elem_of_singleton in Hit as ->.
              rewrite (last_round_number k st earlier last Hrec Hiter) in Hnum. lia.
    + rewrite Z.leb_le. pose proof (rec_best _ _ Hrec) as Hbest.
      unfold bestTracked in Hbest.
      destruct (iterations st) as [|first rest] eqn:Hiters.
      * destruct Hbest as [-> _]. split; [lia|].
        intros (it & Hit & _). by apply elem_of_nil in Hit.
      * destruct Hbest as [-> _]. split.
        -- intros Hreached.
           assert (Hin : Js.max_list (map score (first :: rest))
                         ∈ map score (first :: rest))
             by (apply max_list_elem; discriminate).
           apply list_elem_of_fmap in Hin as (it & Heq & Hit).
           exists it. split; [exact Hit|lia].
        -- intros (it & Hit & Hmet).
           pose proof (max_list_scores_bound _ _ Hit). lia.
  - destruct Hspec as (k & Hrec & Hrange & _).
    pose proof (roundsRecorded_length _ _ Hrec) as Hlen.
    simpl. split; [lia|discriminate].
Qed.

Lemma session_round_count_witness :
  let out := runSession (mkOrchestrator false 3 5 "self" 3) succeedsInRoundThree in
  Z.of_nat (length (recordedRounds out)) <= 3
  /\ forall result recorded,
       out = completed result recorded ->
       totalIterations result = length recorded
       /\ (Z.of_nat (length recorded) < 3
           <-> exists it, it ∈ recorded
                          /\ Z.of_nat (iteration it) < 3
                          /\ 5 <= score it)
       /\ (targetReached result = true
           <-> exists it, it ∈ recorded /\ 5 <= score it).
Proof.
  apply (session_round_count threeRounds succeedsInRoundThree
           (mkOrchestrator false 3 5 "self" 3)).
  reflexivity.
Defined.

(** *** The best round *)

Lemma prefix_best_tracked (o : Orchestrator) (sv : Services) (n : nat) :
  match runIterations o sv (seq 1 n) initialState with
  | loop_done st | loop_threw _ st => bestTracked st
  end.
Proof.
  pose proof (runIterations_spec o sv n 0 initialState roundsRecorded_initial)
    as Hspec.
  assert (Hinit : allBelow o (iterations initialState))
    by (intros it Hit; by apply elem_of_nil in Hit).
  specialize (Hspec Hinit).
  destruct (runIterations o sv (seq 1 n) initialState) as [st|e st];
    destruct Hspec as (k & Hrec & _); by destruct Hrec.
Qed.

(** C2: after every round of a session (after the first [n] rounds, for
    every [n], or where the loop stopped before), the tracked best score
    is the maximum of the recorded scores and the tracked best round is
    the first round with that score; the same holds of the best score and
    best round a completed session reports. *)
Theorem best_round_is_earliest_maximum (o : Orchestrator) (sv : Services) :
  (forall n,
     match runIterations o sv (seq 1 n) initialState with
     | loop_done st | loop_threw _ st =>
       iterations st <> [] ->
       bestScore st = Js.max_list (map score (iterations st))
       /\ earliestWithScore (bestScore st) (iterations st) = Some (bestIteration st)
     end)
  /\ (forall result recorded,
        runSession o sv = completed result recorded -> recorded <> [] ->
        res_bestScore result = Js.max_list (map score recorded)
        /\ earliestWithScore (res_bestScore result) recorded
           = Some (res_bestIteration result)).
Proof.
  split.
  - intros n. pose proof (prefix_best_tracked o sv n) as Hbest.
    destruct (runIterations o sv (seq 1 n) initialState) as [st|e st];
      intros Hne; unfold bestTracked in Hbest; destruct (iterations st); done.
  - intros result recorded. unfold runSession.
    destruct (setupSession sv); [|discriminate].
    pose proof (prefix_best_tracked o sv (Z.to_nat (maxIterations o))) as Hbest.
    destruct (runIterations o sv _ initialState) as [st|e st]; [|discriminate].
    destruct (createSessionSummary sv); [|discriminate].
    intros [= <- <-] Hne. simpl.
    unfold bestTracked in Hbest. destruct (iterations st); done.
Qed.

(** *** Failures of the generation gateway *)

Lemma reaches_recorded (o : Orchestrator) (sv : Services) (k : nat) (st : LoopState) :
  reaches o sv k st -> roundsRecorded k st.
Proof.
  induction 1 as [|k st st' _ IH Hrun]; [apply roundsRecorded_initial|].
  by destruct (runIteration_recorded o sv k st st' false IH Hrun).
Qed.

Lemma reaches_run (o : Orchestrator) (sv : Services) (k : nat) (st : LoopState) :
  reaches o sv k st ->
  forall m, runIterations o sv (seq 1 (k + m)) initialState
            = runIterations o sv (seq (S k) m) st.
Proof.
  induction 1 as [|k st st' _ IH Hrun]; intros m; [reflexivity|].
  replace (S k + m)%nat with (k + S m)%nat by lia.
  rewrite IH. simpl. by rewrite Hrun.
Qed.

Lemma gatewayDown_reaches_round_two :
  reaches defaultOrchestrator gatewayDownAfterFirst 1 afterFirstRound.
Proof. eapply reaches_next; [apply reaches_start|reflexivity]. Qed.

(** C7, as stated, fails: the generation failure of round 2 ends the
    session; round 2 is not recorded. *)
Lemma later_generation_failure_is_fatal :
  ~ laterGenerationFailureIsRecorded defaultOrchestrator gatewayDownAfterFirst.
Proof.
  intros H.
  destruct (H 1%nat afterFirstRound "Gemini API error: 503 Service Unavailable"
              eq_refl gatewayDown_reaches_round_two)
    as (it & Hit & Hnum & _); [lia|reflexivity|reflexivity|].
  vm_compute in Hit. apply list_elem_of_singleton in Hit. subst it. discriminate.
Qed.

(** The same happens with the second judge in place of the
    self-evaluation. *)
Lemma later_generation_failure_is_fatal_judged :
  ~ laterGenerationFailureIsRecorded judgingOrchestrator gatewayDownAfterFirstJudged.
Proof.
  intros H.
  assert (Hreach : reaches judgingOrchestrator gatewayDownAfterFirstJudged 1
                     afterFirstRound)
    by (eapply reaches_next; [apply reaches_start|reflexivity]).
  destruct (H 1%nat afterFirstRound "Gemini API error: 503 Service Unavailable"
              eq_refl Hreach)
    as (it & Hit & Hnum & _); [lia|reflexivity|reflexivity|].
  vm_compute in Hit. apply list_elem_of_singleton in Hit. subst it. discriminate.
Qed.

(** C7, amended: a failure of the code-generation call is fatal to the
    session in every round, the first or a later one: [runSession]
    rethrows the error, the failing round is not recorded and no later
    round runs. *)
Theorem generation_failure_fails_the_session (o : Orchestrator) (sv : Services)
    (k : nat) (st : LoopState) (e : string) :
  setupSession sv = Return tt ->
  reaches o sv k st -> Z.of_nat k < maxIterations o ->
  generateCode sv (previousCode st) (previousFeedback st) (S k) = Throw e ->
  runSession o sv = failed e (iterations st)
  /\ length (iterations st) = k.
Proof.
  intros Hsetup Hreach Hk Hgen. split.
  - unfold runSession. rewrite Hsetup.
    replace (Z.to_nat (maxIterations o))
      with (k + S (Z.to_nat (maxIterations o) - S k))%nat by lia.
    rewrite (reaches_run o sv k st Hreach). simpl.
    unfold runIteration, bind. by rewrite Hgen.
  - apply roundsRecorded_length. by eapply reaches_recorded.
Qed.

Lemma generation_failure_fails_the_session_witness :
  runSession defaultOrchestrator gatewayDownAfterFirst
  = failed "Gemini API error: 503 Service Unavailable" (iterations afterFirstRound)
  /\ length (iterations afterFirstRound) = 1%nat.
Proof.
  apply (generation_failure_fails_the_session defaultOrchestrator
           gatewayDownAfterFirst 1 afterFirstRound).
  - reflexivity.
  - exact gatewayDown_reaches_round_two.
  - vm_compute. reflexivity.
  - reflexivity.
Defined.

End UniversalRounds.

(** ** The repair sub-loop and its fallback *)

Section RepairFallback.
Import Exc ErrorDetector SimplifiedPixelAnalyzer PixelFeedbackLoopTest.

Lemma lastCleanRender_snoc_errors (log : list Render) (c : string) :
  lastCleanRender (log ++ [mkRender c true]) = lastCleanRender log.
Proof. unfold lastCleanRender. by rewrite reverse_snoc. Qed.

Lemma lastCleanRender_snoc_clean (log : list Render) (c : string) :
  lastCleanRender (log ++ [mkRender c false]) = Some c.
Proof. unfold lastCleanRender. by rewrite reverse_snoc. Qed.

(** What the repair loop leaves behind: after a load without errors, the
    loaded code is the last working code; when every load had errors,
    the last working code and the most recent clean load are those from
    before the round. *)
Lemma fixLoop_spec (sv : Services) (n : nat) (attempts : list nat) :
  forall (code : string) (lw : option string) (log : list Render) (rp : Repair),
    fixLoop sv n attempts code lw log = Return rp ->
    if errorFixed rp
    then rp_lastWorkingCode rp = Some (finalCode rp)
         /\ lastCleanRender (rp_renderLog rp) = Some (finalCode rp)
    else rp_lastWorkingCode rp = lw
         /\ lastCleanRender (rp_renderLog rp) = lastCleanRender log.
Proof.
  induction attempts as [|fixAttempt attempts IH]; simpl; intros code lw log rp.
  - intros [= <-]. simpl. auto.
  - unfold bind.
    destruct (detectErrors sv n fixAttempt code) as [errorResult|]; [|discriminate].
    destruct (hasErrors errorResult); simpl.
    + destruct (Nat.eqb fixAttempt maxFixAttempts).
      * intros [= <-]. simpl. split; [reflexivity|apply lastCleanRender_snoc_errors].
      * destruct (fixJavaScriptErrors sv n fixAttempt code _) as [fixed|];
          [|discriminate].
        intros Hrest. specialize (IH _ _ _ _ Hrest).
        destruct (errorFixed rp); [exact IH|].
        by rewrite lastCleanRender_snoc_errors in IH.
    + intros [= <-]. simpl. split; [reflexivity|apply lastCleanRender_snoc_clean].
Qed.

Lemma applyFallback_keeps (rp : Repair) (count : Z) :
  rp_lastWorkingCode (applyFallback rp count).1 = rp_lastWorkingCode rp
  /\ rp_renderLog (applyFallback rp count).1 = rp_renderLog rp.
Proof. unfold applyFallback. by destruct (_ && _). Qed.

Lemma pixel_runIteration_Return (sv : Services) (targetRegions : list Region) (n : nat)
    (st st' : LoopState) (stopped : bool) :
  runIteration sv targetRegions n st = Return (st', stopped) ->
  exists code rp,
    generate sv n st = Return code
    /\ fixLoop sv n (seq 1 maxFixAttempts) code (lastWorkingCode st) (renderLog st)
       = Return rp
    /\ lastWorkingCode st' = rp_lastWorkingCode rp
    /\ renderLog st' = rp_renderLog rp.
Proof.
  unfold runIteration, ensureRenderable, bind.
  destruct (generate sv n st) as [code|]; [|discriminate].
  destruct (fixLoop _ _ _ _ _ _) as [rp|] eqn:Hfix; [|discriminate].
  destruct (applyFallback_keeps rp (fallbackCount st)) as [Hlw Hlog].
  destruct (applyFallback rp (fallbackCount st)) as [used count'].
  simpl in Hlw, Hlog.
  destruct (captureSketch _ _ _); [|discriminate].
  destruct (analyzeGenerated _ _ _); [|discriminate].
  destruct (targetScore <=? _); intros [= <- <-]; exists code, rp; simpl; auto.
Qed.

(** Between rounds the last working code is the code of the most recent
    load without errors. *)
Lemma reachable_lastWorkingCode (sv : Services) (targetRegions : list Region)
    (n : nat) (st : LoopState) :
  reachable sv targetRegions n st ->
  lastWorkingCode st = lastCleanRender (renderLog st).
Proof.
  induction 1 as [|n st st' _ IH Hrun]; [reflexivity|].
  apply pixel_runIteration_Return in Hrun as (code & rp & _ & Hfix & -> & ->).
  apply fixLoop_spec in Hfix. destruct (errorFixed rp).
  - destruct Hfix as [-> ->]. reflexivity.
  - destruct Hfix as [-> ->]. exact IH.
Qed.

Lemma onlyFirstLoads_reaches_round_five :
  reachable onlyFirstLoads [ redSquareAt 0 0 ] 4 afterFourRounds.
Proof.
  eapply reach_round.
  { eapply reach_round.
    { eapply reach_round.
      { eapply reach_round; [apply reach_start|vm_compute; reflexivity]. }
      vm_compute; reflexivity. }
    vm_compute; reflexivity. }
  vm_compute; reflexivity.
Qed.

(** C8, as stated, fails: in the fifth round of this run the first
    sketch is still the most recent code that loaded without errors, but
    three fallbacks have been used, and the round goes on with its own
    broken repair attempt. *)
Lemma fallback_budget_exhausted :
  ~ fallsBackToLastCleanCode onlyFirstLoads [ redSquareAt 0 0 ].
Proof.
  intros H.
  destruct (H 4%nat afterFourRounds "v5" fifthRepair
              onlyFirstLoads_reaches_round_five eq_refl eq_refl eq_refl)
    as (rp' & count' & Hensure & Hcode).
  vm_compute in Hensure. injection Hensure as <- <-.
  vm_compute in Hcode. discriminate.
Qed.

Lemma reachable_run (sv : Services) (targetRegions : list Region) (k : nat)
    (st : LoopState) :
  reachable sv targetRegions k st ->
  forall m, runIterations sv targetRegions (seq 1 (k + m)) initialState
            = runIterations sv targetRegions (seq (S k) m) st.
Proof.
  induction 1 as [|k st st' _ IH Hrun]; intros m; [reflexivity|].
  replace (S k + m)%nat with (k + S m)%nat by lia.
  rewrite IH. simpl. by rewrite Hrun.
Qed.

(** An exception in a round the run gets to ends the run: it is caught
    at the end of [runPixelFeedbackLoop], which answers [success: false]. *)
Lemma round_exception_ends_the_run (sv : Services) (targetRegions : list Region)
    (n : nat) (st : LoopState) (e : string) :
  reachable sv targetRegions n st -> (n < maxIterations)%nat ->
  setupSession sv = Return tt -> analyzeTarget sv = Return targetRegions ->
  runIteration sv targetRegions (S n) st = Throw e ->
  runPixelFeedbackLoop sv = failure e (iterations st).
Proof.
  intros Hreach Hn Hsetup Htarget Hthrow. unfold runPixelFeedbackLoop.
  rewrite Hsetup, Htarget.
  replace maxIterations with (n + S (maxIterations - S n))%nat by lia.
  rewrite (reachable_run _ _ _ _ Hreach). cbn [seq runIterations].
  by rewrite Hthrow.
Qed.

(** C8, amended: whenever the repair loop of a round exhausts its
    attempts with errors still present, the round goes on with the most
    recent code that loaded without errors earlier in the run, provided
    there is one, it is not the empty string, and fewer than
    [maxFallbacks] = 3 fallbacks have been used in the run so far;
    otherwise it goes on with the last repair attempt unchanged.  The
    exhaustion itself raises no exception: the chosen code is handed to
    the capture and the analysis, and the round is recorded when both
    return.  The run is aborted, with [success: false] and the round
    unrecorded, when the capture or the analysis of the chosen code
    throws, as the capture does for code that draws no canvas. *)
Theorem exhausted_repairs_fall_back_within_budget
    (sv : Services) (targetRegions : list Region) (n : nat) (st : LoopState)
    (code : string) (rp : Repair) :
  reachable sv targetRegions n st ->
  generate sv (S n) st = Return code ->
  fixLoop sv (S n) (seq 1 maxFixAttempts) code (lastWorkingCode st) (renderLog st)
  = Return rp ->
  errorFixed rp = false ->
  let used := fallbackChoice st (finalCode rp) in
  (exists rp' count',
     ensureRenderable sv (S n) code st = Return (rp', count')
     /\ finalCode rp' = used)
  /\ (forall generatedRegions,
        captureSketch sv (S n) used = Return tt ->
        analyzeGenerated sv (S n) used = Return generatedRegions ->
        exists st' stopped,
          runIteration sv targetRegions (S n) st = Return (st', stopped)
          /\ iterations st'
             = iterations st
               ++ [ mkIteration (S n) used
                      (calculateSimpleScore targetRegions generatedRegions)
                      (createSimpleInstructions targetRegions generatedRegions) ])
  /\ (forall e,
        captureSketch sv (S n) used = Throw e
        \/ (captureSketch sv (S n) used = Return tt
            /\ analyzeGenerated sv (S n) used = Throw e) ->
        runIteration sv targetRegions (S n) st = Throw e
        /\ ((n < maxIterations)%nat ->
            setupSession sv = Return tt ->
            analyzeTarget sv = Return targetRegions ->
            runPixelFeedbackLoop sv = failure e (iterations st))).
Proof.
  intros Hreach Hgen Hfix Hbroken used.
  pose proof (reachable_lastWorkingCode _ _ _ _ Hreach) as Hlw.
  pose proof (fixLoop_spec _ _ _ _ _ _ _ Hfix) as Hspec.
  rewrite Hbroken in Hspec. destruct Hspec as [Hkept _].
  assert (Hchoice : finalCode (applyFallback rp (fallbackCount st)).1 = used).
  { subst used. unfold applyFallback, fallbackChoice.
    rewrite Hbroken, Hkept, Hlw. simpl.
    destruct (lastCleanRender (renderLog st)) as [clean|]; simpl; [|reflexivity].
    by destruct (Js.truthy clean && (fallbackCount st <? maxFallbacks)). }
  split; [|split].
  - unfold ensureRenderable, bind. rewrite Hfix.
    destruct (applyFallback rp (fallbackCount st)) as [rp' count'] eqn:Happly.
    exists rp', count'. split; [reflexivity|exact Hchoice].
  - intros generatedRegions Hcapture Hanalyze.
    unfold runIteration, ensureRenderable, bind. rewrite Hgen, Hfix.
    destruct (applyFallback rp (fallbackCount st)) as [rp' count'] eqn:Happly.
    simpl in Hchoice. rewrite Hchoice, Hcapture, Hanalyze.
    destruct (targetScore <=? _); eexists _, _; split; reflexivity.
  - intros e Hthrows.
    assert (Hround : runIteration sv targetRegions (S n) st = Throw e).
    { unfold runIteration, ensureRenderable, bind. rewrite Hgen, Hfix.
      destruct (applyFallback rp (fallbackCount st)) as [rp' count'] eqn:Happly.
      simpl in Hchoice. rewrite Hchoice.
      destruct Hthrows as [->|[-> ->]]; reflexivity. }
    split; [exact Hround|].
    intros Hn Hsetup Htarget.
    by apply (round_exception_ends_the_run sv targetRegions n st e).
Qed.

Lemma exhausted_repairs_fall_back_within_budget_witness :
  (exists st' stopped,
     runIteration onlyFirstLoads [ redSquareAt 0 0 ] 5 afterFourRounds
     = Return (st', stopped)
     /\ iterations st'
        = iterations afterFourRounds
          ++ [ mkIteration 5 (fallbackChoice afterFourRounds (finalCode fifthRepair))
                 (calculateSimpleScore [ redSquareAt 0 0 ] [])
                 (createSimpleInstructions [ redSquareAt 0 0 ] []) ])
  /\ runPixelFeedbackLoop brokenWithoutCanvas = failure "No canvas found on page" [].
Proof.
  split.
  - refine (proj1 (proj2 (exhausted_repairs_fall_back_within_budget onlyFirstLoads
                            [ redSquareAt 0 0 ] 4 afterFourRounds "v5" fifthRepair
                            onlyFirstLoads_reaches_round_five _ _ _)) [] _ _);
      reflexivity.
  - refine (proj2 (proj2 (proj2 (exhausted_repairs_fall_back_within_budget
                                   brokenWithoutCanvas [ redSquareAt 0 0 ] 0 initialState
                                   "v1" firstRepair (reach_start _ _) _ _ _))
                     "No canvas found on page" _) _ _ _).
    + reflexivity.
    + reflexivity.
    + reflexivity.
    + left. reflexivity.
    + unfold maxIterations. lia.
    + reflexivity.
    + reflexivity.
Defined.

End RepairFallback.

(** ** Bounding boxes *)

Section BoundingBox.
Import SimplifiedPixelAnalyzer.

Lemma foldl_min_le_elem (l : list Z) (a x : Z) : x ∈ l -> foldl Z.min a l <= x.
Proof.
  revert a. induction l as [|y l IH]; simpl; intros a Hx.
  - by apply elem_of_nil in Hx.
  - apply elem_of_cons in Hx as [->|Hx]; [|by apply IH].
    pose proof (foldl_min_le_init l (Z.min a y)). lia.
Qed.

Lemma foldl_min_cases (l : list Z) (a : Z) :
  foldl Z.min a l = a \/ foldl Z.min a l ∈ l.
Proof.
  revert a. induction l as [|y l IH]; simpl; intros a; [by left|].
  destruct (IH (Z.min a y)) as [H|H].
  - rewrite H. destruct (Z.min_spec a y) as [[_ ->]|[_ ->]];
      [by left|right; left].
  - right. by right.
Qed.

Lemma min_list_le (l : list Z) (x : Z) : x ∈ l -> Js.min_list l <= x.
Proof.
  destruct l as [|a l]; simpl; intros Hx.
  - by apply elem_of_nil in Hx.
  - apply elem_of_cons in Hx as [->|Hx];
      [apply foldl_min_le_init|by apply foldl_min_le_elem].
Qed.

Lemma min_list_elem (l : list Z) : l <> [] -> Js.min_list l ∈ l.
Proof.
  destruct l as [|a l]; [done|]. intros _. simpl.
  destruct (foldl_min_cases l a) as [->|H]; [left|by right].
Qed.

(** X1. The box of [calculateBounds] encloses every sample, and each of
    its four sides passes through a sample: its corner is the least [x]
    and the least [y], and its width and height are the spreads of the
    coordinates (so a single sample, a row or a column of samples has a
    box of area 0). *)
Theorem calculateBounds_encloses (samples : list (Z * Z)) (sx sy : Z) :
  (sx, sy) ∈ samples ->
  let b := calculateBounds samples in
  (Bounds.x b <= sx <= Bounds.x b + Bounds.width b
   /\ Bounds.y b <= sy <= Bounds.y b + Bounds.height b)
  /\ Bounds.x b ∈ map fst samples
  /\ Bounds.x b + Bounds.width b ∈ map fst samples
  /\ Bounds.y b ∈ map snd samples
  /\ Bounds.y b + Bounds.height b ∈ map snd samples.
Proof.
  intros Hin.
  assert (Hx : sx ∈ map fst samples) by (apply list_elem_of_fmap; by exists (sx, sy)).
  assert (Hy : sy ∈ map snd samples) by (apply list_elem_of_fmap; by exists (sx, sy)).
  assert (Hxs : map fst samples <> []) by (intros E; rewrite E in Hx; by apply elem_of_nil in Hx).
  assert (Hys : map snd samples <> []) by (intros E; rewrite E in Hy; by apply elem_of_nil in Hy).
  cbn [calculateBounds Bounds.x Bounds.y Bounds.width Bounds.height].
  unfold calculateBounds; simpl.
  pose proof (min_list_le _ _ Hx). pose proof (max_list_ge _ _ Hx).
  pose proof (min_list_le _ _ Hy). pose proof (max_list_ge _ _ Hy).
  repeat split; try lia.
  - by apply min_list_elem.
  - replace (_ + _) with (Js.max_list (map fst samples)) by lia. by apply max_list_elem.
  - by apply min_list_elem.
  - replace (_ + _) with (Js.max_list (map snd samples)) by lia. by apply max_list_elem.
Qed.

Lemma calculateBounds_encloses_witness :
  let b := calculateBounds [ (4, 2); (2, 6); (8, 4) ] in
  (Bounds.x b <= 2 <= Bounds.x b + Bounds.width b
   /\ Bounds.y b <= 6 <= Bounds.y b + Bounds.height b)
  /\ Bounds.x b ∈ map fst [ (4, 2); (2, 6); (8, 4) ]
  /\ Bounds.x b + Bounds.width b ∈ map fst [ (4, 2); (2, 6); (8, 4) ]
  /\ Bounds.y b ∈ map snd [ (4, 2); (2, 6); (8, 4) ]
  /\ Bounds.y b + Bounds.height b ∈ map snd [ (4, 2); (2, 6); (8, 4) ].
Proof.
  apply (calculateBounds_encloses [ (4, 2); (2, 6); (8, 4) ] 2 6).
  right; left.
Defined.

End BoundingBox.

(** ** The flood fill *)

Section FloodFill.
Import SimplifiedPixelAnalyzer.

Lemma acceptsPixel_true_iff (data : list Z) (w h tR tG tB : Z)
    (regionVisited visited : gset (Z * Z)) (x y : Z) :
  acceptsPixel data w h tR tG tB regionVisited visited x y = finished true
  <-> ((x, y) ∉ regionVisited) /\ ((x, y) ∉ visited)
      /\ similarPixel data w h tR tG tB (x, y).
Proof.
  unfold acceptsPixel, similarPixel. cbn [fst snd].
  destruct (bool_decide ((x, y) ∈ regionVisited)) eqn:Hrv; cbn [orb].
  { apply bool_decide_eq_true in Hrv. split; [done|]. by intros [? _]. }
  apply bool_decide_eq_false in Hrv.
  destruct (bool_decide ((x, y) ∈ visited)) eqn:Hv.
  { apply bool_decide_eq_true in Hv. split; [done|]. by intros (_ & ? & _). }
  apply bool_decide_eq_false in Hv.
  destruct ((x <? 0) || (w <=? x) || (y <? 0) || (h <=? y)) eqn:Hb.
  { split; [done|]. intros (_ & _ & Hx & Hy & _). exfalso.
    repeat (apply orb_true_iff in Hb as [Hb|Hb]); lia. }
  repeat (apply orb_false_iff in Hb as [Hb ?]).
  destruct (readPixel data w x y) as [[[[r g] b] a]|] eqn:Hread.
  - destruct (a <? 128) eqn:Ha.
    { split; [done|]. intros (_ & _ & _ & _ & r' & g' & b' & a' & [= <- <- <- <-] & ? & _).
      lia. }
    destruct (colorTolerance * colorTolerance <? sqDistance r g b tR tG tB) eqn:Hc.
    { split; [done|]. intros (_ & _ & _ & _ & r' & g' & b' & a' & [= <- <- <- <-] & _ & ?).
      lia. }
    split; [|done]. intros _. repeat split; try done; try lia.
    exists r, g, b, a. repeat split; [lia|lia].
  - split; [done|]. by intros (_ & _ & _ & _ & r' & g' & b' & a' & ? & _).
Qed.

Lemma acceptsPixel_false (data : list Z) (w h tR tG tB : Z)
    (regionVisited visited : gset (Z * Z)) (x y : Z) :
  acceptsPixel data w h tR tG tB regionVisited visited x y = finished false ->
  (x, y) ∈ regionVisited \/ (x, y) ∈ visited
  \/ ~ similarPixel data w h tR tG tB (x, y).
Proof.
  intros Hf.
  destruct (decide ((x, y) ∈ regionVisited)); [by left|].
  destruct (decide ((x, y) ∈ visited)); [by right; left|].
  right; right. intros Hs.
  assert (acceptsPixel data w h tR tG tB regionVisited visited x y = finished true)
    by (by apply acceptsPixel_true_iff).
  congruence.
Qed.

Lemma floodFillLoop_invariant (data : list Z) (w h tR tG tB stp : Z)
    (visited0 : gset (Z * Z)) (seed : Z * Z) :
  forall (fuel : nat) (queue : list (Z * Z)) (regionVisited visited : gset (Z * Z))
         (pixels result : list (Z * Z)) (visited' : gset (Z * Z)),
    fillInvariant data w h tR tG tB stp visited0 seed queue regionVisited visited pixels ->
    floodFillLoop fuel data w h tR tG tB stp queue regionVisited visited pixels
    = finished (result, visited') ->
    fillInvariant data w h tR tG tB stp visited0 seed [] (list_to_set result)
      visited' result.
Proof.
  induction fuel as [|fuel IH]; intros queue rv vis pixels result vis' Hinv.
  - destruct queue as [|[x y] queue]; simpl; [|discriminate].
    intros [= <- <-]. by destruct Hinv as [-> ? ? ? ? ? ? ?].
  - destruct queue as [|[x y] queue]; simpl.
    { intros [= <- <-]. by destruct Hinv as [-> ? ? ? ? ? ? ?]. }
    destruct (acceptsPixel data w h tR tG tB rv vis x y) as [[|]| |] eqn:Hacc;
      [| |discriminate..].
    + (* the pixel joins the region *)
      apply acceptsPixel_true_iff in Hacc as (Hrv & Hvis & Hsim).
      apply IH. destruct Hinv as [Erv Evis Hnd Hsound Hfirst Hstart Hseed Hclosed].
      subst rv vis.
      assert (Hnew : (x, y) ∉ pixels) by set_solver.
      assert (Hin : seed ∈ pixels ++ [(x, y)]).
      { destruct pixels as [|p0 pixels'].
        - rewrite (Hfirst eq_refl (x, y)); [set_solver|left].
        - apply elem_of_app. left. by apply Hstart. }
      split.
      * rewrite list_to_set_app_L. set_solver.
      * rewrite list_to_set_app_L. set_solver.
      * apply NoDup_app. split; [done|]. split; [|apply NoDup_singleton].
        intros p Hp Hp'. apply list_elem_of_singleton in Hp'. by subst p.
      * intros p Hp. apply elem_of_app in Hp as [Hp|Hp]; [by apply Hsound|].
        apply list_elem_of_singleton in Hp. subst p. split; [set_solver|done].
      * intros E. by destruct pixels.
      * intros _. exact Hin.
      * right; left. exact Hin.
      * intros p q Hp Hq. apply elem_of_app in Hp as [Hp|Hp].
        -- destruct (Hclosed p q Hp Hq) as [Hq'|[Hq'|Hq']]; [|set_solver|tauto].
           apply elem_of_cons in Hq' as [->|Hq']; set_solver.
        -- apply list_elem_of_singleton in Hp. subst p.
           left. apply elem_of_app. right. exact Hq.
    + (* the pixel is skipped *)
      apply acceptsPixel_false in Hacc.
      apply IH. destruct Hinv as [Erv Evis Hnd Hsound Hfirst Hstart Hseed Hclosed].
      subst rv vis.
      assert (Hskip : (x, y) ∈ pixels \/ (x, y) ∈ visited0
                      \/ ~ similarPixel data w h tR tG tB (x, y)) by set_solver.
      split; try done.
      * intros E q Hq. apply (Hfirst E). by right.
      * destruct Hseed as [Hs|Hs]; [|tauto].
        apply elem_of_cons in Hs as [->|Hs]; tauto.
      * intros p q Hp Hq.
        destruct (Hclosed p q Hp Hq) as [Hq'|Hq']; [|tauto].
        apply elem_of_cons in Hq' as [->|Hq']; tauto.
Qed.

Lemma floodFillRegion_sound (fuel : nat) (data : list Z) (w h : Z)
    (startX startY tR tG tB : Z) (visited : gset (Z * Z)) (stp : Z)
    (region : option (list (Z * Z))) (visited' : gset (Z * Z)) :
  floodFillRegion fuel data w h startX startY tR tG tB visited stp
  = finished (region, visited') ->
  visited' = visited ∪ list_to_set (default [] region)
  /\ NoDup (default [] region)
  /\ (forall p, p ∈ default [] region ->
        (p ∉ visited) /\ similarPixel data w h tR tG tB p).
Proof.
  unfold floodFillRegion.
  destruct (floodFillLoop _ _ _ _ _ _ _ _ _ _ _ _) as [[pixels vis']| |] eqn:Hloop;
    cbn [obind]; [|discriminate..].
  intros [= <- <-].
  apply (floodFillLoop_invariant _ _ _ _ _ _ _ visited (startX, startY)) in Hloop.
  2:{ split.
      all: try done.
      all: try set_solver.
      all: try apply NoDup_nil_2. }
  destruct Hloop as [_ Evis Hnd Hsound _ _ _ _].
  assert (Hpix : default [] (if Nat.ltb 0 (length pixels) then Some pixels else None)
                 = pixels) by (by destruct pixels).
  rewrite Hpix. done.
Qed.

(** X2. What a flood fill returns.  The pixels of the region are distinct,
    none was visited before, and each is an opaque pixel of the image
    within the colour tolerance of the target colour; the caller's visited
    set grows by exactly these pixels.  The region is [null] exactly when
    the start pixel is rejected, and otherwise contains it.  The region is
    closed: a neighbour (at the fill's step) of one of its pixels that was
    not visited before and is similar enough belongs to the region too. *)
Theorem floodFillRegion_collects (fuel : nat) (data : list Z) (w h : Z)
    (startX startY tR tG tB : Z) (visited : gset (Z * Z)) (stp : Z)
    (region : option (list (Z * Z))) (visited' : gset (Z * Z)) :
  floodFillRegion fuel data w h startX startY tR tG tB visited stp
  = finished (region, visited') ->
  let pixels := default [] region in
  visited' = visited ∪ list_to_set pixels
  /\ NoDup pixels
  /\ (forall p, p ∈ pixels ->
        (p ∉ visited) /\ similarPixel data w h tR tG tB p)
  /\ (region = None
      <-> (startX, startY) ∈ visited
          \/ ~ similarPixel data w h tR tG tB (startX, startY))
  /\ (region <> None -> (startX, startY) ∈ pixels)
  /\ (forall p q, p ∈ pixels -> q ∈ neighbours stp p ->
        q ∈ pixels \/ q ∈ visited \/ ~ similarPixel data w h tR tG tB q).
Proof.
  unfold floodFillRegion.
  destruct (floodFillLoop _ _ _ _ _ _ _ _ _ _ _ _) as [[pixels vis']| |] eqn:Hloop;
    cbn [obind]; [|discriminate..].
  intros [= <- <-].
  apply (floodFillLoop_invariant _ _ _ _ _ _ _ visited (startX, startY)) in Hloop.
  2:{ split.
      all: try done.
      all: try set_solver.
      all: try apply NoDup_nil_2. }
  destruct Hloop as [_ Evis Hnd Hsound _ Hstart Hseed Hclosed].
  assert (Hpix : default [] (if Nat.ltb 0 (length pixels) then Some pixels else None)
                 = pixels) by (by destruct pixels).
  assert (Hnone : (if Nat.ltb 0 (length pixels) then Some pixels else None) = None
                  <-> pixels = []) by (by destruct pixels).
  cbn zeta. rewrite Hpix, Hnone.
  split; [exact Evis|]. split; [exact Hnd|]. split; [exact Hsound|].
  split; [|split].
  - split.
    + intros ->. destruct Hseed as [Hs|[Hs|Hs]];
        [by apply elem_of_nil in Hs|by apply elem_of_nil in Hs|exact Hs].
    + intros Hrej. destruct pixels as [|p pixels']; [done|]. exfalso.
      destruct (Hsound (startX, startY)) as [Hv Hs]; [by apply Hstart|]. tauto.
  - intros Hne. apply Hstart. tauto.
  - intros p q Hp Hq.
    destruct (Hclosed p q Hp Hq) as [Hq'|Hq']; [by apply elem_of_nil in Hq'|exact Hq'].
Qed.

Lemma floodFillRegion_collects_witness :
  let pixels := [ (0, 0); (2, 0); (0, 2); (2, 2) ] in
  ({[ (0, 0); (2, 0); (0, 2); (2, 2) ]} : gset (Z * Z)) = ∅ ∪ list_to_set pixels
  /\ NoDup pixels
  /\ (forall p, p ∈ pixels ->
        (p ∉ (∅ : gset (Z * Z))) /\ similarPixel (solidImage 4 4 255 0 0 255) 4 4 255 0 0 p)
  /\ (Some pixels = None
      <-> (0, 0) ∈ (∅ : gset (Z * Z))
          \/ ~ similarPixel (solidImage 4 4 255 0 0 255) 4 4 255 0 0 (0, 0))
  /\ (Some pixels <> None -> (0, 0) ∈ pixels)
  /\ (forall p q, p ∈ pixels -> q ∈ neighbours 2 p ->
        q ∈ pixels \/ q ∈ (∅ : gset (Z * Z))
        \/ ~ similarPixel (solidImage 4 4 255 0 0 255) 4 4 255 0 0 q).
Proof.
  apply (floodFillRegion_collects 100 (solidImage 4 4 255 0 0 255) 4 4 0 0 255 0 0 ∅ 2
           (Some [ (0, 0); (2, 0); (0, 2); (2, 2) ])
           {[ (0, 0); (2, 0); (0, 2); (2, 2) ]}).
  vm_compute. reflexivity.
Defined.

End FloodFill.

(** ** The shape of the reported regions *)

Section RegionShape.
Import SimplifiedPixelAnalyzer.

Lemma minAreaThreshold_ge (c : string) (b : Bounds.t) : 50 <= minAreaThreshold c b.
Proof.
  unfold minAreaThreshold, minRegionSize. repeat case_match; lia.
Qed.

Lemma foldl_pixelCount_ge (l : list Region) (acc : Z) :
  Forall (fun r => 0 <= pixelCount r) l ->
  acc <= foldl (fun sum r => sum + pixelCount r) acc l.
Proof.
  revert acc. induction l as [|r l IH]; simpl; intros acc Hl; [lia|].
  apply Forall_cons in Hl as [Hr Hl]. specialize (IH (acc + pixelCount r) Hl). lia.
Qed.

Lemma min_list_Forall (P : Z -> Prop) (l : list Z) :
  l <> [] -> Forall P l -> P (Js.min_list l).
Proof.
  intros Hne Hl. eapply Forall_forall; [exact Hl|]. by apply min_list_elem.
Qed.

Lemma max_list_Forall (P : Z -> Prop) (l : list Z) :
  l <> [] -> Forall P l -> P (Js.max_list l).
Proof.
  intros Hne Hl. eapply Forall_forall; [exact Hl|]. by apply max_list_elem.
Qed.

Lemma mergeRegions_proper (w h : Z) (first : Region) (rest : list Region) :
  Forall (properRegion w h) (first :: rest) ->
  properRegion w h (default first (mergeRegions (first :: rest))).
Proof.
  intros Hall. cbn [mergeRegions default].
  set (allBounds := map bounds (first :: rest)).
  assert (HminX : 0 <= Js.min_list (map Bounds.x allBounds)).
  { apply (min_list_Forall (fun v => 0 <= v)); [done|].
    unfold allBounds. rewrite !Forall_fmap.
    eapply Forall_impl; [exact Hall|]. by intros r []. }
  assert (HminY : 0 <= Js.min_list (map Bounds.y allBounds)).
  { apply (min_list_Forall (fun v => 0 <= v)); [done|].
    unfold allBounds. rewrite !Forall_fmap.
    eapply Forall_impl; [exact Hall|]. by intros r []. }
  assert (HmaxX : Js.max_list (map (fun b => Bounds.x b + Bounds.width b) allBounds) < w).
  { apply (max_list_Forall (fun v => v < w)); [done|].
    unfold allBounds. rewrite !Forall_fmap.
    eapply Forall_impl; [exact Hall|]. by intros r []. }
  assert (HmaxY : Js.max_list (map (fun b => Bounds.y b + Bounds.height b) allBounds) < h).
  { apply (max_list_Forall (fun v => v < h)); [done|].
    unfold allBounds. rewrite !Forall_fmap.
    eapply Forall_impl; [exact Hall|]. by intros r []. }
  set (minX := Js.min_list (map Bounds.x allBounds)) in *.
  set (minY := Js.min_list (map Bounds.y allBounds)) in *.
  set (maxX := Js.max_list (map (fun b => Bounds.x b + Bounds.width b) allBounds)) in *.
  set (maxY := Js.max_list (map (fun b => Bounds.y b + Bounds.height b) allBounds)) in *.
  assert (minX <= Bounds.x (bounds first)) by apply min_list_le_head.
  assert (minY <= Bounds.y (bounds first)) by apply min_list_le_head.
  assert (Bounds.x (bounds first) + Bounds.width (bounds first) <= maxX)
    by (apply max_list_ge; left).
  assert (Bounds.y (bounds first) + Bounds.height (bounds first) <= maxY)
    by (apply max_list_ge; left).
  assert (Hfirst : properRegion w h first) by (by apply Forall_cons in Hall as [? _]).
  destruct Hfirst as [? ? ? ? ? ? Harea ? ? Hcolor Hhex].
  split; simpl; try lia; try done.
  - rewrite Harea in *. nia.
  - assert (Hpc : Forall (fun r => 0 <= pixelCount r) rest).
    { apply Forall_cons in Hall as [_ Hrest].
      eapply Forall_impl; [exact Hrest|]. intros r [? ? ? ? ? ? ? ? ? ? ?]. lia. }
    pose proof (foldl_pixelCount_ge rest (0 + pixelCount first) Hpc). lia.
Qed.

Lemma collectOverlapping_Forall (P : Region -> Prop) (regions : list Region)
    (mainRegion : Region) (js : list nat) (used : gset nat)
    (overlapping : list Region) :
  Forall P regions -> Forall P overlapping ->
  Forall P (collectOverlapping regions mainRegion js used overlapping).2.
Proof.
  intros Hregions. revert used overlapping.
  induction js as [|j js IH]; simpl; intros used overlapping Hov; [done|].
  case_bool_decide; [by apply IH|].
  destruct (regions !! j) as [o|] eqn:Hj; [|by apply IH].
  destruct (mergeable mainRegion o); [|by apply IH].
  apply IH, Forall_app. split; [done|]. apply Forall_singleton.
  eapply Forall_forall; [exact Hregions|]. apply list_elem_of_lookup. eauto.
Qed.

Lemma collectOverlapping_head (regions : list Region) (mainRegion : Region)
    (js : list nat) (used : gset nat) (first : Region) (rest : list Region) :
  exists rest',
    (collectOverlapping regions mainRegion js used (first :: rest)).2 = first :: rest'.
Proof.
  revert used rest. induction js as [|j js IH]; simpl; intros used rest; [eauto|].
  case_bool_decide; [apply IH|].
  destruct (regions !! j) as [o|]; [|apply IH].
  destruct (mergeable mainRegion o); apply IH.
Qed.

Lemma consolidateFrom_Forall (P : Region -> Prop) (regions : list Region) :
  (forall first rest,
     Forall P (first :: rest) -> P (default first (mergeRegions (first :: rest)))) ->
  Forall P regions ->
  forall (todo : list nat) (used : gset nat) (acc : list Region),
    Forall P acc -> Forall P (consolidateFrom regions todo used acc).
Proof.
  intros Hmerge Hregions. induction todo as [|i todo IH]; simpl; intros used acc Hacc;
    [done|].
  case_bool_decide; [by apply IH|].
  destruct (regions !! i) as [mainRegion|] eqn:Hi; [|by apply IH].
  assert (Hmain : P mainRegion).
  { eapply Forall_forall; [exact Hregions|]. apply list_elem_of_lookup. eauto. }
  pose proof (collectOverlapping_Forall P regions mainRegion
                (seq (S i) (length regions - S i)) ({[ i ]} ∪ used) [mainRegion]
                Hregions (proj2 (Forall_singleton P mainRegion) Hmain)) as Hov.
  destruct (collectOverlapping_head regions mainRegion
              (seq (S i) (length regions - S i)) ({[ i ]} ∪ used) mainRegion [])
    as [rest Hhead].
  destruct (collectOverlapping _ _ _ _ _) as [used' overlapping].
  cbn [snd] in Hov, Hhead. subst overlapping.
  apply IH, Forall_app. split; [done|]. apply Forall_singleton.
  destruct (Nat.ltb 1 (length (mainRegion :: rest))); [by apply Hmerge|done].
Qed.
Lemma scanPixel_proper (fuel : nat) (data : list Z) (w h x y : Z)
    (st st' : gset (Z * Z) * list Region) :
  Forall (properRegion w h) st.2 ->
  scanPixel fuel data w h y st x = finished st' ->
  Forall (properRegion w h) st'.2.
Proof.
  destruct st as [visited regions], st' as [visited1 regions1].
  unfold scanPixel. cbn [snd]. intros Hproper.
  case_bool_decide; [by intros [= <- <-]|].
  destruct (readPixel data w x y) as [[[[r g] b] a]|]; [|discriminate].
  destruct (a <? 128); [by intros [= <- <-]|].
  destruct (floodFillRegion _ _ _ _ _ _ _ _ _ _ _) as [[region visited']| |] eqn:Hfill;
    cbn [obind]; [|discriminate..].
  destruct region as [pixels|]; [|by intros [= <- <-]].
  destruct (Nat.leb 5 (length pixels)) eqn:Hcount; [|by intros [= <- <-]].
  destruct (minAreaThreshold _ _ <=? _) eqn:Harea; [|by intros [= <- <-]].
  intros [= <- <-]. apply Forall_app. split; [exact Hproper|].
  apply Forall_singleton.
  apply floodFillRegion_sound in Hfill as (_ & _ & Hsound).
  cbn [default] in Hsound.
  apply Nat.leb_le in Hcount. apply Z.leb_le in Harea.
  pose proof (minAreaThreshold_ge (rgbToColorName r g b) (calculateBounds pixels)).
  assert (Hne : pixels <> []) by (intros ->; simpl in Hcount; lia).
  assert (Hxs : Forall (fun v => 0 <= v < w) (map fst pixels)).
  { rewrite Forall_fmap. apply Forall_forall. intros p Hp.
    by destruct (Hsound p Hp) as (_ & ? & _). }
  assert (Hys : Forall (fun v => 0 <= v < h) (map snd pixels)).
  { rewrite Forall_fmap. apply Forall_forall. intros p Hp.
    by destruct (Hsound p Hp) as (_ & _ & ? & _). }
  assert (Hxne : map fst pixels <> []) by (by destruct pixels).
  assert (Hyne : map snd pixels <> []) by (by destruct pixels).
  pose proof (min_list_Forall _ _ Hxne Hxs). pose proof (max_list_Forall _ _ Hxne Hxs).
  pose proof (min_list_Forall _ _ Hyne Hys). pose proof (max_list_Forall _ _ Hyne Hys).
  pose proof (min_list_le_max_list (map fst pixels)).
  pose proof (min_list_le_max_list (map snd pixels)).
  unfold calculateBounds in *. simpl in *.
  split; simpl; try lia; try done; nia.
Qed.

(** X3. Every region that [findMajorRegions] reports for a [w] × [h]
    image is a proper region of that image: its box lies inside the image
    and has positive width and height, its area is the area of that box
    and at least 50, its sample count is at least 5, and its colour name
    and hex code are computed from its colour.  (In particular a run of
    samples in one row or one column, whose box has area 0, is never
    reported.) *)
Theorem findMajorRegions_proper (fuel : nat) (data : list Z) (w h : Z)
    (out : list Region) :
  findMajorRegions fuel data w h = finished out ->
  Forall (properRegion w h) out.
Proof.
  unfold findMajorRegions.
  destruct (scanRegions fuel data w h) as [raw| |] eqn:Hscan; cbn [obind];
    [|discriminate..].
  intros [= <-].
  assert (Hraw : Forall (properRegion w h) raw).
  { unfold scanRegions in Hscan.
    destruct (foldOutcome _ _ _) as [[visited regions]| |] eqn:Hfold;
      cbn [obind] in Hscan; [|discriminate..].
    injection Hscan as <-.
    apply (foldOutcome_invariant (fun s => Forall (properRegion w h) s.2)) in Hfold;
      [exact Hfold| |constructor].
    intros s y s' Hs. unfold scanRow.
    apply (foldOutcome_invariant (fun s => Forall (properRegion w h) s.2)); [|exact Hs].
    intros s1 x s2. apply scanPixel_proper. }
  assert (Hcons : Forall (properRegion w h) (consolidateOverlappingRegions raw)).
  { apply consolidateFrom_Forall; [apply mergeRegions_proper|exact Hraw|constructor]. }
  assert (Hfilter : Forall (properRegion w h)
                      (filterSignificantRegions (consolidateOverlappingRegions raw))).
  { unfold filterSignificantRegions.
    destruct (consolidateOverlappingRegions raw) as [|c cs]; [constructor|].
    apply Forall_forall. intros r Hr. apply list_elem_of_filter in Hr as [_ Hr].
    eapply Forall_forall; [exact Hcons|exact Hr]. }
  rewrite sortByAreaDesc_perm. exact Hfilter.
Qed.

Lemma findMajorRegions_proper_witness :
  Forall (properRegion 44 44)
    [ mkRegion "red" "#FF0000" (Rgb.mk 255 0 0) (Bounds.mk 0 0 42 42) 1764 484 ].
Proof.
  apply (findMajorRegions_proper 10000 redWithDarkerPatch 44 44).
  vm_compute. reflexivity.
Defined.

End RegionShape.

(** ** Consolidation covers its input *)

Section ConsolidationCover.
Import SimplifiedPixelAnalyzer.

Lemma covers_refl (r : Region) : covers r r.
Proof. unfold covers, encloses. split; [done|lia]. Qed.

Lemma mergeable_color (mainRegion otherRegion : Region) :
  mergeable mainRegion otherRegion = true -> color mainRegion = color otherRegion.
Proof.
  unfold mergeable. intros [H _]%andb_true_iff. by apply String.eqb_eq.
Qed.

Lemma mergeRegions_encloses (first : Region) (rest : list Region) (r : Region) :
  r ∈ first :: rest ->
  encloses (bounds (default first (mergeRegions (first :: rest)))) (bounds r).
Proof.
  intros Hr. cbn [mergeRegions default].
  set (allBounds := map bounds (first :: rest)).
  assert (Hb : bounds r ∈ allBounds) by (apply list_elem_of_fmap; eauto).
  set (minX := Js.min_list (map Bounds.x allBounds)).
  set (minY := Js.min_list (map Bounds.y allBounds)).
  set (maxX := Js.max_list (map (fun b => Bounds.x b + Bounds.width b) allBounds)).
  set (maxY := Js.max_list (map (fun b => Bounds.y b + Bounds.height b) allBounds)).
  assert (minX <= Bounds.x (bounds r))
    by (apply min_list_le, list_elem_of_fmap; eauto).
  assert (minY <= Bounds.y (bounds r))
    by (apply min_list_le, list_elem_of_fmap; eauto).
  assert (Bounds.x (bounds r) + Bounds.width (bounds r) <= maxX)
    by (apply max_list_ge, list_elem_of_fmap; eauto).
  assert (Bounds.y (bounds r) + Bounds.height (bounds r) <= maxY)
    by (apply max_list_ge, list_elem_of_fmap; eauto).
  unfold encloses. simpl. lia.
Qed.

Lemma collectOverlapping_used (regions : list Region) (mainRegion : Region)
    (js : list nat) (used : gset nat) (overlapping : list Region) (u : nat) :
  u ∈ (collectOverlapping regions mainRegion js used overlapping).1 ->
  u ∈ used
  \/ (u ∈ js
      /\ exists o, regions !! u = Some o
                   /\ o ∈ (collectOverlapping regions mainRegion js used overlapping).2).
Proof.
  revert used overlapping. induction js as [|j js IH]; simpl; intros used overlapping;
    [by left|].
  assert (Hlater : forall used' overlapping',
            u ∈ (collectOverlapping regions mainRegion js used' overlapping').1 ->
            u ∈ used'
            \/ (u ∈ j :: js
                /\ exists o, regions !! u = Some o
                     /\ o ∈ (collectOverlapping regions mainRegion js used' overlapping').2)).
  { intros used' overlapping' Hu. destruct (IH _ _ Hu) as [?|[? ?]]; [by left|].
    right. split; [by right|done]. }
  case_bool_decide; [apply Hlater|].
  destruct (regions !! j) as [o|] eqn:Hj; [|apply Hlater].
  destruct (mergeable mainRegion o); [|apply Hlater].
  intros Hu. destruct (Hlater _ _ Hu) as [Hu'|Hu']; [|by right].
  apply elem_of_union in Hu' as [Hu'|Hu']; [|by left].
  apply elem_of_singleton in Hu'. subst u. right. split; [left|].
  exists o. split; [done|].
  destruct (collectOverlapping_extends regions mainRegion js ({[ j ]} ∪ used)
              (overlapping ++ [o])) as (others & -> & _).
  apply elem_of_app. left. apply elem_of_app. right. left.
Qed.

(** The region the outer loop pushes for [mainRegion] covers every
    member of the group it was collected with. *)
Lemma pushed_covers (mainRegion : Region) (others : list Region) (o : Region) :
  Forall (fun o => mergeable mainRegion o = true) others ->
  o ∈ mainRegion :: others ->
  covers (if Nat.ltb 1 (length (mainRegion :: others))
          then default mainRegion (mergeRegions (mainRegion :: others))
          else mainRegion) o.
Proof.
  intros Hothers Ho.
  assert (Hcolor : color mainRegion = color o).
  { apply elem_of_cons in Ho as [->|Ho]; [done|].
    apply mergeable_color. exact (proj1 (Forall_forall _ _) Hothers o Ho). }
  destruct others as [|o1 others].
  - apply list_elem_of_singleton in Ho. subst o. apply covers_refl.
  - cbn [length Nat.ltb Nat.leb]. split; [exact Hcolor|].
    by apply mergeRegions_encloses.
Qed.

Lemma consolidateFrom_covers (regions : list Region) :
  forall (todo : list nat) (used : gset nat) (acc : list Region),
    (forall u r, u ∈ used -> regions !! u = Some r ->
                 exists c, c ∈ acc /\ covers c r) ->
    forall u r, u ∈ used \/ u ∈ todo -> regions !! u = Some r ->
                exists c, c ∈ consolidateFrom regions todo used acc /\ covers c r.
Proof.
  induction todo as [|i todo IH]; simpl; intros used acc Hacc u r Hu Hr.
  - destruct Hu as [Hu|Hu]; [exact (Hacc u r Hu Hr)|by apply elem_of_nil in Hu].
  - case_bool_decide as Hi.
    { apply (IH _ _ Hacc u r); [|exact Hr].
      destruct Hu as [Hu|Hu]; [by left|].
      apply elem_of_cons in Hu as [->|Hu]; [by left|by right]. }
    destruct (regions !! i) as [mainRegion|] eqn:Hmain.
    2:{ apply (IH _ _ Hacc u r); [|exact Hr].
        destruct Hu as [Hu|Hu]; [by left|].
        apply elem_of_cons in Hu as [->|Hu]; [congruence|by right]. }
    set (js := seq (S i) (length regions - S i)).
    pose proof (collectOverlapping_used regions mainRegion js ({[ i ]} ∪ used)
                  [mainRegion]) as Hused.
    pose proof (collectOverlapping_used_mono regions mainRegion js ({[ i ]} ∪ used)
                  [mainRegion]) as Hmono.
    destruct (collectOverlapping_extends regions mainRegion js ({[ i ]} ∪ used)
                [mainRegion]) as (others & Hov & Hothers).
    destruct (collectOverlapping regions mainRegion js ({[ i ]} ∪ used) [mainRegion])
      as [used' overlapping].
    cbn [fst snd] in Hused, Hmono, Hov. subst overlapping.
    set (pushed := if Nat.ltb 1 (length ([mainRegion] ++ others))
                   then default mainRegion (mergeRegions ([mainRegion] ++ others))
                   else mainRegion).
    assert (Hacc' : forall u' r', u' ∈ used' -> regions !! u' = Some r' ->
                      exists c, c ∈ acc ++ [pushed] /\ covers c r').
    { intros u' r' Hu' Hr'.
      destruct (Hused u' Hu') as [Hin|(_ & o & Ho & Hin)].
      - apply elem_of_union in Hin as [Hin|Hin].
        + apply elem_of_singleton in Hin. subst u'.
          assert (r' = mainRegion) by congruence. subst r'.
          exists pushed. split; [apply elem_of_app; right; left|].
          apply pushed_covers; [exact Hothers|left].
        + destruct (Hacc u' r' Hin Hr') as (c & Hc & Hcov).
          exists c. split; [apply elem_of_app; by left|exact Hcov].
      - assert (r' = o) by congruence. subst r'.
        exists pushed. split; [apply elem_of_app; right; left|].
        by apply pushed_covers. }
    apply (IH _ _ Hacc' u r); [|exact Hr].
    destruct Hu as [Hu|Hu]; [left; set_solver|].
    apply elem_of_cons in Hu as [->|Hu]; [left; set_solver|by right].
Qed.

(** X4. Consolidation loses no region: every region of the input is
    covered by a region of the output, one with the same colour name
    whose box contains the box of the input region. *)
Theorem consolidation_covers (regions : list Region) (r : Region) :
  r ∈ regions ->
  exists c, c ∈ consolidateOverlappingRegions regions /\ covers c r.
Proof.
  intros Hr. apply list_elem_of_lookup in Hr as [u Hu].
  apply (consolidateFrom_covers regions _ ∅ [] ltac:(set_solver) u r); [|exact Hu].
  right. apply elem_of_seq. apply lookup_lt_Some in Hu. lia.
Qed.

Lemma consolidation_covers_witness :
  exists c, c ∈ consolidateOverlappingRegions threeInARow /\ covers c (redBox 20).
Proof.
  apply (consolidation_covers threeInARow (redBox 20)). right; left.
Defined.

End ConsolidationCover.

(** ** Consolidation conserves the samples *)

Section ConsolidationCount.
Import SimplifiedPixelAnalyzer.

Lemma totalPixelCount_app (l1 l2 : list Region) :
  totalPixelCount (l1 ++ l2) = totalPixelCount l1 + totalPixelCount l2.
Proof.
  unfold totalPixelCount. induction l1 as [|r l1 IH]; simpl; lia.
Qed.

Lemma foldl_pixelCount (l : list Region) (acc : Z) :
  foldl (fun sum r => sum + pixelCount r) acc l = acc + totalPixelCount l.
Proof.
  revert acc. unfold totalPixelCount.
  induction l as [|r l IH]; simpl; intros acc; [lia|]. rewrite IH. lia.
Qed.

Lemma unusedPixelCount_cons (regions : list Region) (used : gset nat)
    (j : nat) (js : list nat) :
  unusedPixelCount regions used (j :: js)
  = (if bool_decide (j ∈ used) then 0
     else from_option pixelCount 0 (regions !! j))
    + unusedPixelCount regions used js.
Proof. reflexivity. Qed.

Lemma unusedPixelCount_insert (regions : list Region) (used : gset nat)
    (i : nat) (js : list nat) :
  i ∉ js ->
  unusedPixelCount regions ({[ i ]} ∪ used) js = unusedPixelCount regions used js.
Proof.
  induction js as [|j js IH]; [done|]. intros Hi.
  apply not_elem_of_cons in Hi as [Hij Hi].
  rewrite !unusedPixelCount_cons, (IH Hi).
  destruct (decide (j ∈ used)) as [Hj|Hj].
  - rewrite !bool_decide_eq_true_2; [done|done|set_solver].
  - rewrite !bool_decide_eq_false_2; [done|done|set_solver].
Qed.

Lemma collectOverlapping_used_within (regions : list Region) (mainRegion : Region)
    (js : list nat) (used : gset nat) (overlapping : list Region) (u : nat) :
  u ∈ (collectOverlapping regions mainRegion js used overlapping).1 ->
  u ∈ used \/ u ∈ js.
Proof.
  intros Hu. destruct (collectOverlapping_used _ _ _ _ _ _ Hu) as [?|[? _]]; auto.
Qed.

Lemma collectOverlapping_pixelCount (regions : list Region) (mainRegion : Region)
    (js : list nat) :
  NoDup js ->
  forall (used : gset nat) (overlapping : list Region),
    totalPixelCount (collectOverlapping regions mainRegion js used overlapping).2
    + unusedPixelCount regions
        (collectOverlapping regions mainRegion js used overlapping).1 js
    = totalPixelCount overlapping + unusedPixelCount regions used js.
Proof.
  induction 1 as [|j js Hj Hnd IH]; intros used overlapping; [simpl; lia|].
  rewrite !unusedPixelCount_cons. cbn [collectOverlapping].
  destruct (decide (j ∈ used)) as [Hused|Hused].
  - rewrite (bool_decide_eq_true_2 (j ∈ used)) by done.
    rewrite bool_decide_eq_true_2 by (by apply collectOverlapping_used_mono).
    specialize (IH used overlapping). lia.
  - rewrite (bool_decide_eq_false_2 (j ∈ used)) by done.
    destruct (regions !! j) as [o|] eqn:Ho; cbn [from_option].
    + destruct (mergeable mainRegion o).
      * rewrite bool_decide_eq_true_2
          by (apply collectOverlapping_used_mono; set_solver).
        specialize (IH ({[ j ]} ∪ used) (overlapping ++ [o])).
        rewrite totalPixelCount_app, unusedPixelCount_insert in IH by done.
        unfold totalPixelCount at 3 in IH. simpl in IH. lia.
      * rewrite bool_decide_eq_false_2.
        2:{ intros Hin. apply collectOverlapping_used_within in Hin. tauto. }
        specialize (IH used overlapping). lia.
    + specialize (IH used overlapping). case_bool_decide; lia.
Qed.

Lemma consolidateFrom_pixelCount (regions : list Region) :
  forall (k i : nat) (used : gset nat) (acc : list Region),
    (i + k)%nat = length regions ->
    totalPixelCount (consolidateFrom regions (seq i k) used acc)
    = totalPixelCount acc + unusedPixelCount regions used (seq i k).
Proof.
  induction k as [|k IH]; intros i used acc Hlen; [simpl; unfold unusedPixelCount; simpl; lia|].
  cbn [seq consolidateFrom]. rewrite unusedPixelCount_cons.
  destruct (decide (i ∈ used)) as [Hi|Hi].
  - rewrite !bool_decide_eq_true_2 by done. rewrite IH by lia. lia.
  - rewrite !bool_decide_eq_false_2 by done.
    destruct (regions !! i) as [mainRegion|] eqn:Hmain; [|rewrite IH by lia; simpl; lia].
    replace (length regions - S i)%nat with k by lia.
    pose proof (collectOverlapping_pixelCount regions mainRegion (seq (S i) k)
                  (NoDup_seq _ _) ({[ i ]} ∪ used) [mainRegion]) as Hpc.
    destruct (collectOverlapping_extends regions mainRegion (seq (S i) k)
                ({[ i ]} ∪ used) [mainRegion]) as (others & Hov & _).
    destruct (collectOverlapping regions mainRegion (seq (S i) k) ({[ i ]} ∪ used)
                [mainRegion]) as [used' overlapping].
    cbn [fst snd] in Hpc, Hov. subst overlapping.
    rewrite IH, totalPixelCount_app by lia.
    rewrite unusedPixelCount_insert in Hpc by (rewrite elem_of_seq; lia).
    assert (Hpushed :
              totalPixelCount
                [ if Nat.ltb 1 (length ([mainRegion] ++ others))
                  then default mainRegion (mergeRegions ([mainRegion] ++ others))
                  else mainRegion ]
              = totalPixelCount ([mainRegion] ++ others)).
    { destruct others as [|o others]; [done|].
      cbn [app length Nat.ltb Nat.leb mergeRegions from_option]. unfold id.
      unfold totalPixelCount at 1. cbn [foldr pixelCount].
      rewrite foldl_pixelCount. lia. }
    rewrite Hpushed. cbn [from_option].
    assert (totalPixelCount [mainRegion] = pixelCount mainRegion)
      by (unfold totalPixelCount; simpl; lia).
    lia.
Qed.

Lemma unusedPixelCount_all (regions : list Region) :
  forall (k i : nat),
    (i + k)%nat = length regions ->
    unusedPixelCount regions ∅ (seq i k) = totalPixelCount (drop i regions).
Proof.
  induction k as [|k IH]; intros i Hlen.
  - rewrite drop_ge by lia. done.
  - cbn [seq]. rewrite unusedPixelCount_cons, IH by lia.
    destruct (lookup_lt_is_Some_2 regions i) as [r Hr]; [lia|].
    rewrite (drop_S _ _ _ Hr), Hr. rewrite bool_decide_eq_false_2 by set_solver.
    unfold totalPixelCount. simpl. lia.
Qed.

Lemma consolidation_total (regions : list Region) :
  totalPixelCount (consolidateOverlappingRegions regions) = totalPixelCount regions.
Proof.
  unfold consolidateOverlappingRegions.
  rewrite consolidateFrom_pixelCount, unusedPixelCount_all by lia.
  unfold totalPixelCount at 1. simpl. by rewrite drop_0.
Qed.

(** X5. Consolidation conserves the samples: the sample counts of the
    output regions add up to the same total as those of the input, and
    the output never has more regions than the input. *)
Theorem consolidation_conserves_samples (regions : list Region) :
  totalPixelCount (consolidateOverlappingRegions regions) = totalPixelCount regions
  /\ (length (consolidateOverlappingRegions regions) <= length regions)%nat.
Proof.
  split; [apply consolidation_total|].
  unfold consolidateOverlappingRegions.
  pose proof (consolidateFrom_length_le regions (seq 0 (length regions)) ∅ []) as H.
  etrans; [exact H|]. simpl. etrans; [apply length_filter|]. by rewrite length_seq.
Qed.

End ConsolidationCount.

(** ** The significance filter *)

Section Significance.
Import SimplifiedPixelAnalyzer.

Lemma isSignificant_largest (maxArea : Z) (r : Region) :
  0 <= maxArea -> area r = maxArea -> isSignificant maxArea r = true.
Proof.
  intros Hmax Harea. unfold isSignificant. repeat case_match; try done.
  apply Z.leb_le. lia.
Qed.

Lemma filterSignificantRegions_max (regions : list Region) :
  Forall (fun r => 0 <= area r) regions ->
  Js.max_list (map area (filterSignificantRegions regions))
  = Js.max_list (map area regions).
Proof.
  intros Hareas. destruct regions as [|r0 regions]; [done|].
  unfold filterSignificantRegions.
  set (l := r0 :: regions) in *.
  set (maxArea := Js.max_list (map area l)).
  assert (Hne : map area l <> []) by done.
  pose proof (max_list_elem _ Hne) as Hmax. fold maxArea in Hmax.
  apply list_elem_of_fmap in Hmax as (m & Hm & Hin).
  assert (Hpos : 0 <= maxArea).
  { rewrite Hm. eapply Forall_forall in Hareas; [exact Hareas|exact Hin]. }
  assert (Hkept : m ∈ filter (fun region => isSignificant maxArea region = true) l).
  { apply list_elem_of_filter. split; [|exact Hin]. by apply isSignificant_largest. }
  apply Z.le_antisymm.
  - assert (Hne' : map area (filter (fun region => isSignificant maxArea region = true) l)
                   <> []).
    { intros E. apply fmap_nil_inv in E. rewrite E in Hkept. by apply elem_of_nil in Hkept. }
    pose proof (max_list_elem _ Hne') as Hmax'.
    apply list_elem_of_fmap in Hmax' as (m' & -> & Hin').
    apply list_elem_of_filter in Hin' as [_ Hin'].
    apply max_list_ge, list_elem_of_fmap. eauto.
  - transitivity (area m); [lia|].
    apply max_list_ge, list_elem_of_fmap. exists m. split; [done|exact Hkept].
Qed.

(** X6. The significance filter.  On regions whose areas are not
    negative it keeps every red region and every region of the largest
    area, it only removes regions (the kept ones stay in their order),
    and filtering a second time changes nothing. *)
Theorem filterSignificantRegions_idempotent (regions : list Region) :
  Forall (fun r => 0 <= area r) regions ->
  filterSignificantRegions (filterSignificantRegions regions)
  = filterSignificantRegions regions
  /\ filterSignificantRegions regions `sublist_of` regions
  /\ (forall r, r ∈ regions ->
        color r = "red" \/ area r = Js.max_list (map area regions) ->
        r ∈ filterSignificantRegions regions).
Proof.
  intros Hareas. split; [|split].
  - pose proof (filterSignificantRegions_max regions Hareas) as Hmax.
    destruct regions as [|r0 regions]; [done|].
    unfold filterSignificantRegions at 1.
    destruct (filterSignificantRegions (r0 :: regions)) as [|f fs] eqn:Hf; [done|].
    rewrite Hmax. rewrite <- Hf. unfold filterSignificantRegions.
    rewrite list_filter_filter. apply list_filter_iff. tauto.
  - destruct regions as [|r0 regions]; [done|].
    unfold filterSignificantRegions. apply sublist_filter.
  - intros r Hr Hkeep. destruct regions as [|r0 regions]; [done|].
    unfold filterSignificantRegions. apply list_elem_of_filter. split; [|exact Hr].
    destruct Hkeep as [Hred|Hmax].
    + unfold isSignificant. by rewrite Hred.
    + apply isSignificant_largest; [|exact Hmax]. rewrite <- Hmax.
      eapply Forall_forall in Hareas; [exact Hareas|exact Hr].
Qed.

Lemma filterSignificantRegions_idempotent_witness :
  filterSignificantRegions (filterSignificantRegions [ redBackground; darkerPatch ])
  = filterSignificantRegions [ redBackground; darkerPatch ]
  /\ filterSignificantRegions [ redBackground; darkerPatch ]
     `sublist_of` [ redBackground; darkerPatch ]
  /\ (forall r, r ∈ [ redBackground; darkerPatch ] ->
        color r = "red"
        \/ area r = Js.max_list (map area [ redBackground; darkerPatch ]) ->
        r ∈ filterSignificantRegions [ redBackground; darkerPatch ]).
Proof.
  apply (filterSignificantRegions_idempotent [ redBackground; darkerPatch ]).
  repeat constructor; vm_compute; discriminate.
Defined.

End Significance.

(** ** The merge test *)

Section MergeTest.
Import SimplifiedPixelAnalyzer.

Lemma regionsOverlap_sym (b1 b2 : Bounds.t) :
  regionsOverlap b1 b2 = regionsOverlap b2 b1.
Proof.
  unfold regionsOverlap. f_equal.
  destruct (_ <? _), (_ <? _), (_ <? _), (_ <? _); reflexivity.
Qed.

(** X7. The merge test does not depend on the order of its two
    arguments, and neither does the test of the consolidation loop, which
    adds the comparison of the colour names. *)
Theorem shouldMergeRegions_symmetric (region1 region2 : Region) :
  shouldMergeRegions region1 region2 = shouldMergeRegions region2 region1
  /\ mergeable region1 region2 = mergeable region2 region1.
Proof.
  assert (Hs : shouldMergeRegions region1 region2 = shouldMergeRegions region2 region1).
  { unfold shouldMergeRegions.
    rewrite (regionsOverlap_sym (bounds region2) (bounds region1)).
    destruct (regionsOverlap (bounds region1) (bounds region2)); cbn [negb]; [|done].
    rewrite (orb_comm (isVeryLarge (area region2) && isVerySmall (area region1))).
    destruct (_ || _); [done|].
    rewrite (orb_comm (Js.gtb (aspectRatio (bounds region2)) 8)).
    destruct (_ || _); [|done].
    rewrite (andb_comm (isHorizontalLine (bounds region2))).
    destruct (_ && _).
    { f_equal. lia. }
    rewrite (andb_comm (negb (isHorizontalLine (bounds region2)))).
    destruct (_ && _); [|done]. f_equal. lia. }
  split; [exact Hs|]. unfold mergeable. rewrite Hs. f_equal.
  apply String.eqb_sym.
Qed.

End MergeTest.

(** ** Hex codes *)

Section HexCode.
Import SimplifiedPixelAnalyzer.

Lemma toUpperCase_app (s1 s2 : string) :
  Js.toUpperCase (s1 +:+ s2) = Js.toUpperCase s1 +:+ Js.toUpperCase s2.
Proof. induction s1 as [|c s1 IH]; simpl; [done|]. by rewrite IH. Qed.

Lemma length_toUpperCase (s : string) :
  String.length (Js.toUpperCase s) = String.length s.
Proof. induction s as [|c s IH]; simpl; [done|]. by rewrite IH. Qed.

Lemma string_app_inj (a a' b b' : string) :
  String.length a = String.length a' ->
  a +:+ b = a' +:+ b' -> a = a' /\ b = b'.
Proof.
  revert a'. induction a as [|c a IH]; intros [|c' a']; simpl; try done.
  intros [= Hlen] [= <- Happ]. destruct (IH a' Hlen Happ) as [<- <-]. done.
Qed.

Lemma string_length_app (a b : string) :
  String.length (a +:+ b) = (String.length a + String.length b)%nat.
Proof. induction a as [|c a IH]; simpl; [done|]. by rewrite IH. Qed.

(** The two upper-case hex digits of every byte value, checked by
    enumeration: they are two characters, and different bytes have
    different digits. *)
Lemma toHex_bytes :
  forallb (fun c =>
             Nat.eqb (String.length (Js.toUpperCase (toHex c))) 2
             && forallb (fun c' =>
                           (c =? c')
                           || negb (String.eqb (Js.toUpperCase (toHex c))
                                               (Js.toUpperCase (toHex c'))))
                        (seqZ 0 256))
          (seqZ 0 256) = true.
Proof. vm_compute. reflexivity. Qed.

Lemma toHex_length (c : Z) :
  0 <= c <= 255 -> String.length (Js.toUpperCase (toHex c)) = 2%nat.
Proof.
  intros Hc. pose proof toHex_bytes as H.
  rewrite forallb_forall in H. specialize (H c).
  rewrite <- list_elem_of_In, elem_of_seqZ in H.
  apply andb_true_iff in H as [H _]; [|lia]. by apply Nat.eqb_eq.
Qed.

Lemma toHex_inj (c c' : Z) :
  0 <= c <= 255 -> 0 <= c' <= 255 ->
  Js.toUpperCase (toHex c) = Js.toUpperCase (toHex c') -> c = c'.
Proof.
  intros Hc Hc' Heq. pose proof toHex_bytes as H.
  rewrite forallb_forall in H. specialize (H c).
  rewrite <- list_elem_of_In, elem_of_seqZ in H.
  apply andb_true_iff in H as [_ H]; [|lia].
  rewrite forallb_forall in H. specialize (H c').
  rewrite <- list_elem_of_In, elem_of_seqZ in H.
  apply orb_true_iff in H as [H|H]; [lia| |lia].
  rewrite Heq, String.eqb_refl in H. discriminate.
Qed.

(** X8. For byte values the hex code is the seven characters [#RRGGBB],
    and two colours have the same code only if they are the same
    colour. *)
Theorem rgbToHex_injective (r g b r' g' b' : Z) :
  0 <= r <= 255 -> 0 <= g <= 255 -> 0 <= b <= 255 ->
  0 <= r' <= 255 -> 0 <= g' <= 255 -> 0 <= b' <= 255 ->
  String.length (rgbToHex r g b) = 7%nat
  /\ (exists digits, rgbToHex r g b = "#" +:+ digits)
  /\ (rgbToHex r g b = rgbToHex r' g' b' -> r = r' /\ g = g' /\ b = b').
Proof.
  intros Hr Hg Hb Hr' Hg' Hb'. unfold rgbToHex.
  rewrite !toUpperCase_app.
  change (Js.toUpperCase "#") with "#".
  split; [|split].
  - rewrite !string_length_app, !toHex_length by done. done.
  - eexists. reflexivity.
  - intros Heq.
    apply string_app_inj in Heq as [_ Heq]; [|done].
    apply string_app_inj in Heq as [Hrr Heq]; [|by rewrite !toHex_length].
    apply string_app_inj in Heq as [Hgg Hbb]; [|by rewrite !toHex_length].
    auto using toHex_inj.
Qed.

Lemma rgbToHex_injective_witness :
  String.length (rgbToHex 255 204 0) = 7%nat
  /\ (exists digits, rgbToHex 255 204 0 = "#" +:+ digits)
  /\ (rgbToHex 255 204 0 = rgbToHex 255 204 0 -> 255 = 255 /\ 204 = 204 /\ 0 = 0).
Proof.
  apply (rgbToHex_injective 255 204 0 255 204 0); lia.
Defined.

End HexCode.

(** ** Colour names and merged boxes *)

Section ColourNames.
Import SimplifiedPixelAnalyzer.

(** X9. The names of the greys.  A colour with three equal byte
    components [v] is named black below 50, gray from 51 to 199 and white
    from 200 on; the value 50 itself passes every rule ([r < 50] fails for
    black, [r > 50] fails for gray) and gets the fallback name
    [rgb(50,50,50)]. *)
Theorem grey_levels_named (v : Z) :
  0 <= v <= 255 ->
  rgbToColorName v v v
  = if v <? 50 then "black"
    else if v =? 50 then "rgb(50,50,50)"
    else if v <? 200 then "gray"
    else "white".
Proof.
  intros Hv.
  assert (Hall : forallb (fun v => String.eqb (rgbToColorName v v v)
                                     (if v <? 50 then "black"
                                      else if v =? 50 then "rgb(50,50,50)"
                                      else if v <? 200 then "gray"
                                      else "white"))
                   (seqZ 0 256) = true) by (vm_compute; reflexivity).
  rewrite forallb_forall in Hall. apply String.eqb_eq, Hall.
  apply list_elem_of_In, elem_of_seqZ. lia.
Qed.

Lemma grey_levels_named_witness :
  rgbToColorName 50 50 50
  = if 50 <? 50 then "black"
    else if 50 =? 50 then "rgb(50,50,50)"
    else if 50 <? 200 then "gray"
    else "white".
Proof. apply (grey_levels_named 50). lia. Defined.

End ColourNames.

Section MergedBox.
Import SimplifiedPixelAnalyzer.

(** X10. [mergeRegions] builds the bounding box of a group.  The merged
    region takes its colour name, hex code and colour from the first
    region of the group; its box contains the box of every member and is
    contained in every box that does; its area is the area of that box,
    and its sample count is the sum of the members' counts. *)
Theorem mergeRegions_bounding_box (first : Region) (rest : list Region) :
  exists merged,
    mergeRegions (first :: rest) = Some merged
    /\ color merged = color first /\ hex merged = hex first /\ rgb merged = rgb first
    /\ Forall (fun r => encloses (bounds merged) (bounds r)) (first :: rest)
    /\ (forall box,
          Forall (fun r => encloses box (bounds r)) (first :: rest) ->
          encloses box (bounds merged))
    /\ area merged = Bounds.width (bounds merged) * Bounds.height (bounds merged)
    /\ pixelCount merged = totalPixelCount (first :: rest).
Proof.
  eexists. split; [reflexivity|].
  set (allBounds := map bounds (first :: rest)).
  set (minX := Js.min_list (map Bounds.x allBounds)).
  set (minY := Js.min_list (map Bounds.y allBounds)).
  set (maxX := Js.max_list (map (fun b => Bounds.x b + Bounds.width b) allBounds)).
  set (maxY := Js.max_list (map (fun b => Bounds.y b + Bounds.height b) allBounds)).
  cbn [color hex rgb bounds area pixelCount].
  split; [done|]. split; [done|]. split; [done|]. split; [|split; [|split]].
  - apply Forall_forall. intros r Hr.
    exact (mergeRegions_encloses first rest r Hr).
  - intros box Hbox.
    assert (Hside : forall (f : Bounds.t -> Z) (v : Z),
              v ∈ map f allBounds -> exists r, r ∈ first :: rest /\ v = f (bounds r)).
    { intros f v Hv. apply list_elem_of_fmap in Hv as (b & -> & Hb).
      apply list_elem_of_fmap in Hb as (r & -> & Hr). eauto. }
    destruct (Hside Bounds.x minX) as (r1 & Hr1 & E1); [by apply min_list_elem|].
    destruct (Hside Bounds.y minY) as (r2 & Hr2 & E2); [by apply min_list_elem|].
    destruct (Hside (fun b => Bounds.x b + Bounds.width b) maxX) as (r3 & Hr3 & E3);
      [by apply max_list_elem|].
    destruct (Hside (fun b => Bounds.y b + Bounds.height b) maxY) as (r4 & Hr4 & E4);
      [by apply max_list_elem|].
    pose proof (proj1 (Forall_forall _ _) Hbox r1 Hr1) as B1.
    pose proof (proj1 (Forall_forall _ _) Hbox r2 Hr2) as B2.
    pose proof (proj1 (Forall_forall _ _) Hbox r3 Hr3) as B3.
    pose proof (proj1 (Forall_forall _ _) Hbox r4 Hr4) as B4.
    unfold encloses in *. simpl in *. lia.
  - reflexivity.
  - rewrite foldl_pixelCount. lia.
Qed.

End MergedBox.

(** ** Sampling *)

Section Sampling.
Import SimplifiedPixelAnalyzer.

Lemma floodFillLoop_Forall (P : Z * Z -> Prop) (data : list Z) (w h tR tG tB stp : Z) :
  (forall p, P p -> Forall P (neighbours stp p)) ->
  forall (fuel : nat) (queue : list (Z * Z)) (regionVisited visited : gset (Z * Z))
         (pixels result : list (Z * Z)) (visited' : gset (Z * Z)),
    Forall P queue -> Forall P pixels ->
    floodFillLoop fuel data w h tR tG tB stp queue regionVisited visited pixels
    = finished (result, visited') ->
    Forall P result.
Proof.
  intros Hstep. induction fuel as [|fuel IH];
    intros queue rv vis pixels result vis' Hq Hp.
  - destruct queue as [|[x y] queue]; simpl; [|discriminate]. by intros [= <- <-].
  - destruct queue as [|[x y] queue]; simpl; [by intros [= <- <-]|].
    apply Forall_cons in Hq as [Hxy Hq].
    destruct (acceptsPixel data w h tR tG tB rv vis x y) as [[|]| |];
      [| |discriminate..].
    + apply IH.
      * apply Forall_app. split; [exact Hq|]. exact (Hstep (x, y) Hxy).
      * apply Forall_app. split; [exact Hp|]. by apply Forall_singleton.
    + by apply IH.
Qed.

Lemma onStep_neighbours (p : Z * Z) : onStep p -> Forall onStep (neighbours step p).
Proof.
  unfold onStep, neighbours, step. intros [Hx Hy]. cbn [fst snd].
  change (Z.min 2 2) with 2.
  assert (Hup : forall a, a mod 2 = 0 -> (a + 2) mod 2 = 0).
  { intros a Ha. replace (a + 2) with (a + 1 * 2) by lia. by rewrite Z.mod_add by lia. }
  assert (Hdown : forall a, a mod 2 = 0 -> (a - 2) mod 2 = 0).
  { intros a Ha. replace (a - 2) with (a + (-1) * 2) by lia. by rewrite Z.mod_add by lia. }
  repeat constructor; cbn [fst snd]; auto.
Qed.

Lemma gridCoordinates_onStep (limit v : Z) :
  v ∈ gridCoordinates limit <-> 0 <= v < limit /\ v mod step = 0.
Proof.
  unfold gridCoordinates, step. split.
  - intros Hv. split; [by apply gridCoordinates_range|].
    apply list_elem_of_fmap in Hv as (i & -> & _).
    rewrite Z.mul_comm. apply Z.mod_mul. lia.
  - intros [Hrange Hmod]. apply list_elem_of_fmap.
    exists (Z.to_nat (v / 2)). split.
    + rewrite Z2Nat.id by (apply Z.div_pos; lia).
      pose proof (Z.div_mod v 2 ltac:(lia)). lia.
    + apply elem_of_seq. split; [lia|]. simpl.
      apply Z2Nat.inj_lt; [apply Z.div_pos; lia|apply Z.div_pos; lia|].
      apply Z.div_lt_upper_bound; [lia|].
      pose proof (Z.div_mod (limit + 2 - 1) 2 ltac:(lia)).
      pose proof (Z.mod_pos_bound (limit + 2 - 1) 2 ltac:(lia)).
      pose proof (Z.div_mod v 2 ltac:(lia)). lia.
Qed.

Lemma elem_of_gridPoints (w h : Z) (p : Z * Z) :
  p ∈ gridPoints w h <-> p.1 ∈ gridCoordinates w /\ p.2 ∈ gridCoordinates h.
Proof.
  unfold gridPoints. split.
  - intros Hp. apply list_elem_of_In, in_flat_map in Hp as (y & Hy & Hp).
    apply list_elem_of_In in Hy, Hp.
    apply list_elem_of_fmap in Hp as (x & -> & Hx). done.
  - intros [Hx Hy]. apply list_elem_of_In, in_flat_map.
    exists p.2. split; [by apply list_elem_of_In|].
    apply list_elem_of_In, list_elem_of_fmap. exists p.1. split; [by destruct p|done].
Qed.

Lemma length_gridPoints (w h : Z) :
  length (gridPoints w h)
  = (length (gridCoordinates h) * length (gridCoordinates w))%nat.
Proof.
  unfold gridPoints. apply length_flat_map_const. intros y. by rewrite length_map.
Qed.

Lemma foldOutcome_invariant_in {A S : Type} (P : S -> Prop)
    (f : S -> A -> outcome S) (l : list A) :
  (forall s a s', a ∈ l -> P s -> f s a = finished s' -> P s') ->
  forall s s', P s -> foldOutcome f l s = finished s' -> P s'.
Proof.
  induction l as [|a l IH]; simpl; intros Hstep s s' Hs.
  - by intros [= <-].
  - destruct (f s a) as [s1| |] eqn:Hf; simpl; [|discriminate..].
    apply IH.
    + intros s0 a0 s0' Ha0. apply Hstep. by right.
    + eapply Hstep; [left|exact Hs|exact Hf].
Qed.

Lemma totalPixelCount_snoc (l : list Region) (r : Region) :
  totalPixelCount (l ++ [r]) = totalPixelCount l + pixelCount r.
Proof. rewrite totalPixelCount_app. unfold totalPixelCount. simpl. lia. Qed.

Lemma scanPixel_samples (fuel : nat) (data : list Z) (w h x y : Z)
    (st st' : gset (Z * Z) * list Region) :
  x ∈ gridCoordinates w -> y ∈ gridCoordinates h ->
  scanInvariant w h st ->
  scanPixel fuel data w h y st x = finished st' ->
  scanInvariant w h st'.
Proof.
  intros Hx Hy. destruct st as [visited regions], st' as [visited1 regions1].
  unfold scanInvariant, scanPixel. cbn [fst snd]. intros [Hsub Hcount].
  case_bool_decide; [by intros [= <- <-]|].
  destruct (readPixel data w x y) as [[[[r g] b] a]|]; [|discriminate].
  destruct (a <? 128); [by intros [= <- <-]|].
  destruct (floodFillRegion _ _ _ _ _ _ _ _ _ _ _) as [[region visited']| |] eqn:Hfill;
    cbn [obind]; [|discriminate..].
  (* the pixels of the fill are new grid points *)
  assert (Hgrid : Forall (fun p => p ∈ gridPoints w h) (default [] region)).
  { pose proof Hfill as Hfill'.
    apply floodFillRegion_sound in Hfill' as (_ & _ & Hsound).
    unfold floodFillRegion in Hfill.
    destruct (floodFillLoop _ _ _ _ _ _ _ _ _ _ _ _) as [[pixels vis']| |] eqn:Hloop;
      cbn [obind] in Hfill; [|discriminate..].
    injection Hfill as <- <-.
    assert (Hpix : default [] (if Nat.ltb 0 (length pixels) then Some pixels else None)
                   = pixels) by (by destruct pixels).
    rewrite Hpix in *.
    apply (floodFillLoop_Forall onStep) in Hloop;
      [|apply onStep_neighbours| |constructor].
    2:{ apply Forall_singleton. split; simpl.
        - by apply gridCoordinates_onStep in Hx as [_ ?].
        - by apply gridCoordinates_onStep in Hy as [_ ?]. }
    apply Forall_forall. intros p Hp.
    destruct (Hsound p Hp) as (_ & Hpx & Hpy & _).
    destruct (proj1 (Forall_forall _ _) Hloop p Hp) as [Hsx Hsy].
    apply elem_of_gridPoints. split; by apply gridCoordinates_onStep. }
  apply floodFillRegion_sound in Hfill as (Hvis & Hnd & Hsound).
  assert (Hsub' : visited' ⊆ list_to_set (gridPoints w h)).
  { rewrite Hvis. apply union_least; [exact Hsub|].
    intros p Hp. apply elem_of_list_to_set in Hp. apply elem_of_list_to_set.
    by apply (proj1 (Forall_forall _ _) Hgrid). }
  assert (Hsize : size visited' = (size visited + length (default [] region))%nat).
  { rewrite Hvis, size_union.
    - by rewrite size_list_to_set.
    - intros p Hp1 Hp2. apply elem_of_list_to_set in Hp2.
      by destruct (Hsound p Hp2). }
  destruct region as [pixels|]; cbn [from_option] in *; unfold id in *;
    [|intros [= <- <-]; split; [done|simpl in Hsize; lia]].
  destruct (Nat.leb 5 (length pixels)); [|intros [= <- <-]; split; [done|lia]].
  destruct (minAreaThreshold _ _ <=? _); intros [= <- <-]; (split; [done|]).
  - rewrite totalPixelCount_snoc. cbn [pixelCount]. lia.
  - lia.
Qed.

Lemma scanRegions_samples (fuel : nat) (data : list Z) (w h : Z) (raw : list Region) :
  scanRegions fuel data w h = finished raw ->
  totalPixelCount raw
  <= Z.of_nat (length (gridCoordinates w) * length (gridCoordinates h)).
Proof.
  unfold scanRegions.
  destruct (foldOutcome _ _ _) as [[visited regions]| |] eqn:Hfold;
    cbn [obind]; [|discriminate..].
  intros [= <-].
  apply (foldOutcome_invariant_in (scanInvariant w h)) in Hfold.
  - destruct Hfold as [Hsub Hcount]. cbn [fst snd] in *.
    apply subseteq_size in Hsub.
    pose proof (size_list_to_set_le (gridPoints w h)) as Hle.
    rewrite length_gridPoints in Hle. lia.
  - intros s y s' Hy Hs. unfold scanRow.
    apply (foldOutcome_invariant_in (scanInvariant w h)); [|exact Hs].
    intros s1 x s2 Hx. by apply scanPixel_samples.
  - split; cbn [fst snd]; [set_solver|]. unfold totalPixelCount. simpl. lia.
Qed.

Lemma totalPixelCount_perm (l1 l2 : list Region) :
  l1 ≡ₚ l2 -> totalPixelCount l1 = totalPixelCount l2.
Proof.
  unfold totalPixelCount. induction 1; simpl; lia.
Qed.

Lemma totalPixelCount_filter (P : Region -> Prop) `{forall r, Decision (P r)}
    (l : list Region) :
  Forall (fun r => 0 <= pixelCount r) l ->
  totalPixelCount (filter P l) <= totalPixelCount l.
Proof.
  unfold totalPixelCount. induction 1 as [|r l Hr _ IH]; [done|].
  rewrite filter_cons. destruct (decide (P r)); simpl; lia.
Qed.

(** X11. No sample is counted twice.  The scan looks at the pixels whose
    coordinates are multiples of 2, and the sample counts of all regions
    that [findMajorRegions] reports add up to at most the number of these
    pixels. *)
Theorem findMajorRegions_samples (fuel : nat) (data : list Z) (w h : Z)
    (out : list Region) :
  findMajorRegions fuel data w h = finished out ->
  totalPixelCount out
  <= Z.of_nat (length (gridCoordinates w) * length (gridCoordinates h)).
Proof.
  unfold findMajorRegions.
  destruct (scanRegions fuel data w h) as [raw| |] eqn:Hscan; cbn [obind];
    [|discriminate..].
  intros [= <-].
  pose proof (scanRegions_samples _ _ _ _ _ Hscan) as Hraw.
  assert (Hproper : Forall (properRegion w h) raw).
  { unfold scanRegions in Hscan.
    destruct (foldOutcome _ _ _) as [[visited regions]| |] eqn:Hfold;
      cbn [obind] in Hscan; [|discriminate..].
    injection Hscan as <-.
    apply (foldOutcome_invariant (fun s => Forall (properRegion w h) s.2)) in Hfold;
      [exact Hfold| |constructor].
    intros s y s' Hs. unfold scanRow.
    apply (foldOutcome_invariant (fun s => Forall (properRegion w h) s.2)); [|exact Hs].
    intros s1 x s2. apply scanPixel_proper. }
  assert (Hcons : Forall (properRegion w h) (consolidateOverlappingRegions raw)).
  { apply consolidateFrom_Forall; [apply mergeRegions_proper|exact Hproper|constructor]. }
  rewrite (totalPixelCount_perm _ _ (sortByAreaDesc_perm _)).
  etrans; [|exact Hraw].
  rewrite <- (consolidation_total raw).
  unfold filterSignificantRegions.
  destruct (consolidateOverlappingRegions raw) as [|c cs] eqn:Hc; [done|].
  apply totalPixelCount_filter.
  eapply Forall_impl; [exact Hcons|]. intros r [? ? ? ? ? ? ? ? ? ? ?]. lia.
Qed.

Lemma findMajorRegions_samples_witness :
  totalPixelCount
    [ mkRegion "red" "#FF0000" (Rgb.mk 255 0 0) (Bounds.mk 0 0 42 42) 1764 484 ]
  <= Z.of_nat (length (gridCoordinates 44) * length (gridCoordinates 44)).
Proof.
  apply (findMajorRegions_samples 10000 redWithDarkerPatch 44 44).
  vm_compute. reflexivity.
Defined.

End Sampling.

(** ** Score and instructions *)

Section ScoreFacts.
Import SimplifiedPixelAnalyzer.

Lemma scoreStep_bounds (gs : list Region) (s : Z) (t : Region) :
  s - 25 <= scoreStep gs s t <= s.
Proof.
  unfold scoreStep. destruct (findBestColorMatch t gs); repeat case_match; lia.
Qed.

Lemma scoreStep_keeps_iff (gs : list Region) (s : Z) (t : Region) :
  scoreStep gs s t = s <-> closeMatch 20 gs t.
Proof.
  unfold scoreStep, closeMatch.
  destruct (findBestColorMatch t gs) as [m|].
  - split.
    + intros H. exists m. split; [done|].
      destruct (50 <? positionDiff t m) eqn:E1, (20 <? positionDiff t m) eqn:E2,
               (50 <? sizeDiff t m) eqn:E3, (20 <? sizeDiff t m) eqn:E4; lia.
    + intros (m' & [= <-] & Hp & Hs).
      destruct (50 <? positionDiff t m) eqn:E1, (20 <? positionDiff t m) eqn:E2,
               (50 <? sizeDiff t m) eqn:E3, (20 <? sizeDiff t m) eqn:E4; lia.
  - split; [lia|]. by intros (m' & ? & _).
Qed.

Lemma foldl_scoreStep_bounds (gs ts : list Region) (s : Z) :
  s - 25 * Z.of_nat (length ts) <= foldl (scoreStep gs) s ts <= s.
Proof.
  revert s. induction ts as [|t ts IH]; intros s; [simpl; lia|].
  cbn [foldl]. specialize (IH (scoreStep gs s t)).
  pose proof (scoreStep_bounds gs s t). rewrite length_cons. lia.
Qed.

Lemma foldl_scoreStep_keeps_iff (gs ts : list Region) (s : Z) :
  foldl (scoreStep gs) s ts = s <-> Forall (closeMatch 20 gs) ts.
Proof.
  revert s. induction ts as [|t ts IH]; intros s; [simpl; split; [constructor|done]|].
  cbn [foldl]. rewrite Forall_cons, <- (scoreStep_keeps_iff gs s t).
  pose proof (scoreStep_bounds gs s t) as Hstep.
  pose proof (foldl_scoreStep_bounds gs ts (scoreStep gs s t)) as Hfold.
  split.
  - intros Heq. assert (Hs : scoreStep gs s t = s) by lia.
    split; [exact Hs|]. apply (IH (scoreStep gs s t)). lia.
  - intros [Hs Hts]. apply (IH (scoreStep gs s t)) in Hts. lia.
Qed.

Lemma calculateSimpleScore_unclamped (targetRegions generatedRegions : list Region) :
  calculateSimpleScore targetRegions generatedRegions
  = foldl (scoreStep generatedRegions) 100 (take 4 targetRegions).
Proof.
  unfold calculateSimpleScore.
  pose proof (foldl_scoreStep_bounds generatedRegions (take 4 targetRegions) 100) as Hb.
  assert (Hlen : (length (take 4 targetRegions) <= 4)%nat)
    by (rewrite length_take; lia).
  rewrite Z.max_r by lia. done.
Qed.

Lemma calculateSimpleScore_100_iff (targetRegions generatedRegions : list Region) :
  calculateSimpleScore targetRegions generatedRegions = 100
  <-> Forall (closeMatch 20 generatedRegions) (take 4 targetRegions).
Proof.
  rewrite calculateSimpleScore_unclamped. apply foldl_scoreStep_keeps_iff.
Qed.

(** X12. The score lies between 0 and 100.  Each of the (at most four)
    target regions that are compared costs at most 25 points, so the sum
    of the deductions never falls below 0 and the final clamp
    [Math.max(0, ...)] never changes it.  The score is 100 exactly when
    every compared target region has a colour match whose position and
    whose size each differ from the target's by at most 20. *)
Theorem calculateSimpleScore_range (targetRegions generatedRegions : list Region) :
  100 - 25 * Z.of_nat (length (take 4 targetRegions))
  <= calculateSimpleScore targetRegions generatedRegions <= 100
  /\ 0 <= calculateSimpleScore targetRegions generatedRegions
  /\ calculateSimpleScore targetRegions generatedRegions
     = foldl (scoreStep generatedRegions) 100 (take 4 targetRegions)
  /\ (calculateSimpleScore targetRegions generatedRegions = 100
      <-> Forall (closeMatch 20 generatedRegions) (take 4 targetRegions)).
Proof.
  pose proof (foldl_scoreStep_bounds generatedRegions (take 4 targetRegions) 100) as Hb.
  assert (Hlen : (length (take 4 targetRegions) <= 4)%nat)
    by (rewrite length_take; lia).
  rewrite calculateSimpleScore_unclamped.
  repeat split; try lia; apply foldl_scoreStep_keeps_iff.
Qed.

Lemma foldl_instructions (gs ts : list Region) (acc : list string) :
  foldl (fun instructions targetRegion =>
           match instructionFor gs targetRegion with
           | Some line => instructions ++ [line]
           | None => instructions
           end) acc ts
  = acc ++ omap (instructionFor gs) ts.
Proof.
  revert acc. induction ts as [|t ts IH]; intros acc; simpl; [by rewrite app_nil_r|].
  rewrite IH. destruct (instructionFor gs t); [|done]. by rewrite <- app_assoc.
Qed.

Lemma instructionFor_None_iff (gs : list Region) (t : Region) :
  instructionFor gs t = None <-> closeMatch 15 gs t.
Proof.
  unfold instructionFor, closeMatch.
  destruct (findBestColorMatch t gs) as [m|].
  - destruct ((15 <? positionDiff t m) || (15 <? sizeDiff t m)) eqn:E.
    + split; [done|]. intros (m' & [= <-] & Hp & Hs).
      apply orb_true_iff in E as [E|E]; lia.
    + split; [|done]. intros _. exists m.
      apply orb_false_iff in E as [E1 E2]. split; [done|]. lia.
  - split; [by destruct (Js.gtb _ _)|]. by intros (m' & ? & _).
Qed.

Lemma omap_nil_iff {A B : Type} (f : A -> option B) (l : list A) :
  omap f l = [] <-> Forall (fun a => f a = None) l.
Proof.
  induction l as [|a l IH]; simpl; [split; [constructor|done]|].
  rewrite Forall_cons. destruct (f a); [split; [done|by intros [? _]]|].
  rewrite IH. tauto.
Qed.

Lemma createSimpleInstructions_nil_iff (targetRegions generatedRegions : list Region) :
  createSimpleInstructions targetRegions generatedRegions = []
  <-> Forall (closeMatch 15 generatedRegions) (take 5 targetRegions).
Proof.
  unfold createSimpleInstructions. rewrite foldl_instructions, app_nil_l.
  rewrite <- (Forall_iff _ _ _ (instructionFor_None_iff generatedRegions)).
  rewrite <- omap_nil_iff.
  destruct (omap _ _) as [|l ls]; [done|]. done.
Qed.

Lemma closeMatch_weaken (limit limit' : Z) (gs : list Region) (t : Region) :
  limit <= limit' -> closeMatch limit gs t -> closeMatch limit' gs t.
Proof. intros Hl (m & ? & ? & ?). exists m. repeat split; [done|lia..]. Qed.

Lemma createSimpleInstructions_perfect (targetRegions generatedRegions : list Region) :
  createSimpleInstructions targetRegions generatedRegions = [] ->
  calculateSimpleScore targetRegions generatedRegions = 100.
Proof.
  intros Hnil. apply createSimpleInstructions_nil_iff in Hnil.
  apply calculateSimpleScore_100_iff.
  apply Forall_forall. intros t Ht.
  apply (closeMatch_weaken 15 20); [lia|].
  eapply Forall_forall; [exact Hnil|]. by apply elem_of_take_4_5.
Qed.

(** X13. There are never more than four instructions.  There is none
    exactly when each of the first five target regions has a colour match
    whose position and size each differ from the target's by at most 15;
    and whenever there is no instruction, the score is 100.  (The converse
    fails: the score tolerates differences up to 20 and looks at four
    regions only.) *)
Theorem no_instructions_perfect_score (targetRegions generatedRegions : list Region) :
  (length (createSimpleInstructions targetRegions generatedRegions) <= 4)%nat
  /\ (createSimpleInstructions targetRegions generatedRegions = []
      <-> Forall (closeMatch 15 generatedRegions) (take 5 targetRegions))
  /\ (createSimpleInstructions targetRegions generatedRegions = [] ->
      calculateSimpleScore targetRegions generatedRegions = 100).
Proof.
  split; [|split].
  - unfold createSimpleInstructions. rewrite length_take. lia.
  - apply createSimpleInstructions_nil_iff.
  - apply createSimpleInstructions_perfect.
Qed.

End ScoreFacts.

(** ** The error detector *)

Section PageErrors.
Import ErrorDetector.

Lemma reportedErrors_types (events : list PageEvent) :
  Forall (fun e => type e = "console_error" \/ type e = "page_error")
    (reportedErrors events).
Proof.
  induction events as [|event events IH]; [constructor|].
  destruct event as [t text|m]; cbn [reportedErrors].
  - destruct (String.eqb t "error"); [|exact IH]. constructor; [by left|exact IH].
  - constructor; [by right|exact IH].
Qed.

(** X14. What the error detector reports about a page it could open.
    [hasErrors] is false exactly when the page loaded, a canvas was
    found, and no console error or uncaught exception arrived before the
    answer was built.  A report without a canvas always has [hasErrors]
    set, so the test [!hasErrors && canvasExists] of the universal
    orchestrator and the test [!hasErrors] of the pixel loop agree on
    every report.  [formatErrorsForGemini] answers [null] exactly when
    [hasErrors] is false, and every error has one of the four types that
    [formatErrors] names, so that its ["Unknown Error"] line is never
    written. *)
Theorem detectErrors_report (before : list PageEvent) (load : PageLoad)
    (after : list PageEvent) :
  let report := detectErrors before load after in
  (hasErrors report = false
   <-> load = pageLoaded true /\ reportedErrors before = [])
  /\ (canvasExists report = false -> hasErrors report = true)
  /\ negb (hasErrors report) && canvasExists report = negb (hasErrors report)
  /\ (formatErrorsForGemini report = None <-> hasErrors report = false)
  /\ Forall (fun e => describe e <> "Unknown Error: " +:+ message e) (errors report).
Proof.
  cbn zeta.
  assert (Hfirst : hasErrors (detectErrors before load after) = false
                   <-> load = pageLoaded true /\ reportedErrors before = []).
  { destruct load as [[|]|m]; cbn [detectErrors hasErrors].
    - rewrite app_nil_r. destruct (reportedErrors before); simpl; split; try done.
      + by intros [_ ?].
    - rewrite length_app. simpl. split; [|by intros [? _]].
      intros H. apply Nat.ltb_ge in H. lia.
    - split; [done|]. by intros [? _]. }
  assert (Hcanvas : canvasExists (detectErrors before load after) = false ->
                    hasErrors (detectErrors before load after) = true).
  { destruct load as [[|]|m]; cbn [detectErrors hasErrors canvasExists]; try done.
    intros _. rewrite length_app. simpl. apply Nat.ltb_lt. lia. }
  split; [exact Hfirst|]. split; [exact Hcanvas|]. split; [|split].
  - destruct (hasErrors _) eqn:Hh; [done|]. simpl.
    destruct (canvasExists _) eqn:Hc; [done|]. specialize (Hcanvas eq_refl). congruence.
  - unfold formatErrorsForGemini. by destruct (hasErrors _).
  - assert (Htypes : Forall (fun e => type e = "console_error" \/ type e = "page_error"
                                      \/ type e = "no_canvas" \/ type e = "load_error")
                       (errors (detectErrors before load after))).
    { assert (Hrep : forall events,
                Forall (fun e => type e = "console_error" \/ type e = "page_error"
                                 \/ type e = "no_canvas" \/ type e = "load_error")
                  (reportedErrors events)).
      { intros events. eapply Forall_impl; [apply reportedErrors_types|]. tauto. }
      destruct load as [[|]|m]; cbn [detectErrors errors];
        repeat (apply Forall_app; split); try apply Hrep; try constructor;
        try constructor; simpl; tauto. }
    eapply Forall_impl; [exact Htypes|].
    intros e [Ht|[Ht|[Ht|Ht]]]; unfold describe; rewrite Ht; simpl; discriminate.
Qed.

End PageErrors.

(** ** The second judge *)

Section Judge.
Import Exc UniversalOrchestrator ImageEvaluator.

Lemma matchNumber_bound (text : list N) (n : N) :
  matchNumber text = Some n -> (n <= 99)%N.
Proof.
  unfold matchNumber, isDigit. destruct text as [|d rest]; [done|].
  destruct ((48 <=? d) && (d <=? 57))%N eqn:Hd; [|done].
  apply andb_true_iff in Hd as [Hd1 Hd2].
  apply N.leb_le in Hd1, Hd2.
  destruct rest as [|dot [|d' rest]]; try (intros [= <-]; lia).
  destruct ((dot =? 46)%N && ((48 <=? d') && (d' <=? 57))%N) eqn:Hd'.
  - apply andb_true_iff in Hd' as [_ Hd'].
    apply andb_true_iff in Hd' as [Hd3 Hd4]. apply N.leb_le in Hd3, Hd4.
    intros [= <-]. lia.
  - intros [= <-]. lia.
Qed.

Lemma matchAt_bound (text : list N) (n : N) :
  matchAt text = Some n -> (n <= 99)%N.
Proof.
  unfold matchAt.
  destruct (matchWord (codeUnits "score") text) as [rest|]; cbn [mbind option_bind].
  - destruct (matchNumber (skipSeparators rest)) as [m|] eqn:Hm.
    + intros [= <-]. by apply matchNumber_bound in Hm.
    + destruct (matchWord (codeUnits "similarity") text) as [rest'|];
        cbn [mbind option_bind]; [|done].
      apply matchNumber_bound.
  - destruct (matchWord (codeUnits "similarity") text) as [rest'|];
      cbn [mbind option_bind]; [|done].
    apply matchNumber_bound.
Qed.

Lemma search_bound (text : list N) (n : N) :
  search text = Some n -> (n <= 99)%N.
Proof.
  induction text as [|c text IH]; cbn [search].
  - destruct (matchAt []) eqn:Hm; [|done].
    intros [= <-]. by apply matchAt_bound in Hm.
  - destruct (matchAt (c :: text)) eqn:Hm; [|exact IH].
    intros [= <-]. by apply matchAt_bound in Hm.
Qed.

Lemma parseScore_bound (evaluation : list N) : (parseScore evaluation <= 99)%N.
Proof.
  unfold parseScore.
  destruct (search evaluation) as [n|] eqn:Hs; simpl; [|lia].
  by apply search_bound in Hs.
Qed.

Lemma scores_in_recorded (P : Z -> Prop) (o : Orchestrator) (sv : Services) :
  (forall code n ev, evaluateIteration o sv code n = Return ev -> P (ev_score ev)) ->
  forall (rounds : list nat) (st : LoopState),
    Forall (fun it => P (score it)) (iterations st) ->
    match runIterations o sv rounds st with
    | loop_done st' | loop_threw _ st' => Forall (fun it => P (score it)) (iterations st')
    end.
Proof.
  intros Hev. induction rounds as [|n rounds IH]; intros st Hst; [done|].
  cbn [runIterations].
  destruct (runIteration o sv n st) as [[st' stopped]|e] eqn:Hrun; [|done].
  apply runIteration_Return in Hrun as (finalCode & ev & Heval & Hiter & _).
  assert (Hst' : Forall (fun it => P (score it)) (iterations st')).
  { rewrite Hiter. apply Forall_app. split; [done|].
    apply Forall_singleton. simpl. by apply (Hev finalCode n). }
  destruct stopped; [done|]. by apply IH.
Qed.

Lemma roundDoubled_parseScore (evaluation : list N) :
  0 <= roundDoubled (parseScore evaluation) <= 20.
Proof.
  pose proof (parseScore_bound evaluation) as Hb. unfold roundDoubled.
  split; [apply Z.div_pos; lia|].
  enough ((2 * Z.of_N (parseScore evaluation) + 5) / 10 < 21) by lia.
  apply Z.div_lt_upper_bound; lia.
Qed.

(** X15. The score read from a reply of the second judge is at most 9.9,
    whatever the reply says, so the doubled and rounded score of a round
    is at most 20.  The pattern takes one digit before the decimal point:
    of a number with two digits only the first is read, and a reply that
    announces ["10/10"] is read as 1. *)
Theorem parseScore_at_most_9_9 (evaluation : list N) :
  (parseScore evaluation <= 99)%N
  /\ 0 <= roundDoubled (parseScore evaluation) <= 20
  /\ (forall d d' rest,
        isDigit d = true -> isDigit d' = true ->
        matchNumber (d :: d' :: rest) = Some (10 * (d - 48))%N)
  /\ parseScore (codeUnits "Similarity score: 10/10") = 10%N.
Proof.
  split; [apply parseScore_bound|]. split; [apply roundDoubled_parseScore|].
  split; [|vm_compute; reflexivity].
  intros d d' rest Hd Hd'. unfold matchNumber. rewrite Hd.
  destruct rest as [|d'' rest]; [done|].
  destruct (d' =? 46)%N eqn:Hdot; [|done].
  apply N.eqb_eq in Hdot. subst d'. discriminate.
Qed.

(** X16. With a second judge whose scores are read from its replies,
    every round of a session that returns scores between 0 and 20, and
    so does the best score the session reports. *)
Theorem parsed_scores_stay_in_scale (o : Orchestrator) (sv : Services)
    (result : SessionResult) (recorded : list Iteration) :
  parsedScores sv ->
  runSession o sv = completed result recorded ->
  Forall (fun it => 0 <= score it <= 20) recorded
  /\ 0 <= res_bestScore result <= 20.
Proof.
  intros Hparsed.
  assert (Hev : forall code n ev,
            evaluateIteration o sv code n = Return ev -> 0 <= ev_score ev <= 20).
  { intros code n ev. unfold evaluateIteration, bind.
    destruct (String.eqb (evaluationMode o) "self").
    - destruct (compareImagesAndImprove sv n code) as [self|]; [|discriminate].
      intros [= <-]. simpl. destruct (success _); lia.
    - destruct (String.eqb (evaluationMode o) "dual"); [|discriminate].
      destruct (negb _); [discriminate|].
      destruct (compareImages sv n code) as [groq|] eqn:Hgroq; [|discriminate].
      intros [= <-]. simpl.
      destruct (Hparsed n code groq Hgroq) as [evaluation ->].
      apply roundDoubled_parseScore. }
  unfold runSession. destruct (setupSession sv); [|discriminate].
  pose proof (scores_in_recorded (fun s => 0 <= s <= 20) o sv Hev
                (seq 1 (Z.to_nat (maxIterations o))) initialState
                (Forall_nil_2 _)) as Hscores.
  pose proof (prefix_best_tracked o sv (Z.to_nat (maxIterations o))) as Hbest.
  destruct (runIterations o sv (seq 1 (Z.to_nat (maxIterations o))) initialState)
    as [st|e st]; [|discriminate].
  destruct (createSessionSummary sv); [|discriminate].
  intros [= <- <-]. simpl. split; [exact Hscores|].
  unfold bestTracked in Hbest.
  destruct (iterations st) as [|first rest] eqn:Hiters.
  - destruct Hbest as [-> _]. lia.
  - destruct Hbest as [-> _].
    assert (Hin : Js.max_list (map score (first :: rest)) ∈ map score (first :: rest))
      by (apply max_list_elem; discriminate).
    apply list_elem_of_fmap in Hin as (it & -> & Hit).
    eapply Forall_forall in Hscores; [exact Hscores|exact Hit].
Qed.

Lemma enthusiasticJudge_parsed : parsedScores enthusiasticJudge.
Proof. intros n code groq [= <-]. eexists. reflexivity. Qed.

Lemma parsed_scores_stay_in_scale_witness :
  Forall (fun it => 0 <= score it <= 20)
    [ UniversalOrchestrator.mkIteration 1 "<html>1</html>" 2 "Similarity score: 10/10";
      UniversalOrchestrator.mkIteration 2 "<html>2</html>" 2 "Similarity score: 10/10" ]
  /\ 0 <= res_bestScore (mkSessionResult 2 1 2 false) <= 20.
Proof.
  apply (parsed_scores_stay_in_scale (mkOrchestrator true 2 20 "dual" 3)
           enthusiasticJudge).
  - exact enthusiasticJudge_parsed.
  - vm_compute. reflexivity.
Defined.

End Judge.

(** ** Evaluation modes *)

Section Modes.
Import Exc UniversalOrchestrator.

Lemma evaluateIteration_self (o : Orchestrator) (sv : Services)
    (code : string) (n : nat) (ev : Evaluation) :
  evaluationMode o = "self" ->
  evaluateIteration o sv code n = Return ev ->
  ev_score ev = 0 \/ ev_score ev = 10.
Proof.
  intros Hmode. unfold evaluateIteration, bind. rewrite Hmode. simpl.
  destruct (compareImagesAndImprove sv n code) as [result|]; [|discriminate].
  intros [= <-]. simpl. destruct (success _); auto.
Qed.

(** In self mode an exception of the comparison is the exception of the
    evaluation: [evaluateIteration] has no handler of its own. *)
Lemma evaluateIteration_self_Throw (o : Orchestrator) (sv : Services)
    (code : string) (n : nat) (e : string) :
  evaluationMode o = "self" ->
  compareImagesAndImprove sv n code = Throw e ->
  evaluateIteration o sv code n = Throw e.
Proof.
  intros Hmode Hthrow. unfold evaluateIteration, bind. by rewrite Hmode, Hthrow.
Qed.

(** X17. A session with self-evaluation never reports a reached target
    above 10 (the defaults are self-evaluation and the target 15).  Where
    every call of the self-comparison throws, as with the generator of
    lib/geminiCodeGenerator.js, which defines no
    [compareImagesAndImprove], the session fails in its first round and
    records nothing; the error is the comparison's when the round got as
    far as the evaluation.  Where the call returns, the round is scored
    10 or 0, so that a session that returns has run all of its rounds and
    reports that the target was not reached. *)
Theorem self_evaluation_never_reaches_above_10 (config : Config) (o : Orchestrator)
    (sv : Services) :
  new config = Return o ->
  evaluationMode o = "self" ->
  (noSelfComparison sv -> exists e, runSession o sv = failed e [])
  /\ (forall generated finalCode e,
        setupSession sv = Return tt ->
        generateInitialCode sv = Return generated ->
        handleErrors o sv generated 1 = Return finalCode ->
        captureSketch sv 1 finalCode = Return tt ->
        compareImagesAndImprove sv 1 finalCode = Throw e ->
        runSession o sv = failed e [])
  /\ (forall result recorded,
        runSession o sv = completed result recorded ->
        Forall (fun it => score it = 0 \/ score it = 10) recorded
        /\ (10 < targetScore o ->
            targetReached result = false
            /\ Z.of_nat (length recorded) = maxIterations o
            /\ Z.of_nat (totalIterations result) = maxIterations o)).
Proof.
  intros Hnew Hmode. apply new_ranges in Hnew as [Hmax _].
  assert (Hrounds : exists rest, seq 1 (Z.to_nat (maxIterations o)) = 1%nat :: rest).
  { destruct (Z.to_nat (maxIterations o)) as [|m] eqn:Hm; [lia|]. simpl. eauto. }
  destruct Hrounds as [rest Hrest].
  split; [|split].
  - (* every comparison throws *)
    intros Hthrows. unfold runSession. destruct (setupSession sv) as [[]|e]; [|eauto].
    rewrite Hrest. cbn [runIterations].
    destruct (runIteration o sv 1 initialState) as [[st' stopped]|e] eqn:Hrun;
      [|eauto].
    apply runIteration_Return in Hrun as (finalCode & ev & Hev & _).
    destruct (Hthrows 1%nat finalCode) as [e He].
    rewrite (evaluateIteration_self_Throw o sv finalCode 1 e Hmode He) in Hev.
    discriminate.
  - (* the first round gets as far as the evaluation *)
    intros generated finalCode e Hsetup Hgen Hfix Hcap Hthrow.
    unfold runSession. rewrite Hsetup, Hrest. cbn [runIterations].
    unfold runIteration, generateCode, bind. simpl.
    rewrite Hgen, Hfix, Hcap.
    by rewrite (evaluateIteration_self_Throw o sv finalCode 1 e Hmode Hthrow).
  - (* the comparison returns *)
    intros result recorded. unfold runSession.
    destruct (setupSession sv); [|discriminate].
    pose proof (scores_in_recorded (fun s => s = 0 \/ s = 10) o sv
                  (fun code n ev => evaluateIteration_self o sv code n ev Hmode)
                  (seq 1 (Z.to_nat (maxIterations o))) initialState
                  (Forall_nil_2 _)) as Hscores.
    pose proof (runIterations_spec o sv (Z.to_nat (maxIterations o)) 0 initialState
                  roundsRecorded_initial) as Hspec.
    assert (Hinit : allBelow o (iterations initialState))
      by (intros it Hit; by apply elem_of_nil in Hit).
    specialize (Hspec Hinit).
    destruct (runIterations o sv (seq 1 (Z.to_nat (maxIterations o))) initialState)
      as [st|e st]; [|discriminate].
    destruct (createSessionSummary sv); [|discriminate].
    intros [= <- <-]. split; [exact Hscores|].
    intros Htarget. cbn [targetReached totalIterations].
    destruct Hspec as (k & Hrec & Hrange & Hend).
    pose proof (roundsRecorded_length _ _ Hrec) as Hlen.
    assert (Hall : k = Z.to_nat (maxIterations o) /\ allBelow o (iterations st)).
    { destruct Hend as [[Hk Hb]|(earlier & last & Hiter & _ & Hmet)]; [by split|].
      exfalso.
      assert (Hlast : last ∈ iterations st) by (rewrite Hiter; set_solver).
      eapply Forall_forall in Hscores; [|exact Hlast]. simpl in Hscores. lia. }
    destruct Hall as [Hk Hbelow]. split; [|split].
    + apply Z.leb_gt. pose proof (rec_best _ _ Hrec) as Hbest.
      unfold bestTracked in Hbest.
      destruct (iterations st) as [|first others] eqn:Hiters.
      * destruct Hbest as [-> _]. lia.
      * destruct Hbest as [-> _].
        assert (Hin : Js.max_list (map score (first :: others))
                      ∈ map score (first :: others))
          by (apply max_list_elem; discriminate).
        apply list_elem_of_fmap in Hin as (it & -> & Hit).
        by apply Hbelow.
    + lia.
    + rewrite (rec_current _ _ Hrec) by lia. lia.
Qed.

Lemma self_evaluation_never_reaches_above_10_witness :
  runSession defaultOrchestrator libGenerator
  = failed "this.geminiGenerator.compareImagesAndImprove is not a function" [].
Proof.
  refine (proj1 (proj2 (self_evaluation_never_reaches_above_10 defaultConfig
                          defaultOrchestrator libGenerator _ _))
            "<html>1</html>" "<html>1</html>" _ _ _ _ _ _);
    reflexivity.
Defined.

(** X18. A session whose evaluation mode cannot be used never completes.
    The constructor accepts the mode ["dual"] without a key for the
    second judge, and any mode name; the session then fails in its first
    round, after the code was generated, repaired and captured, and
    records no round. *)
Theorem unusable_mode_fails_first_round (config : Config) (o : Orchestrator)
    (sv : Services) :
  new config = Return o ->
  ~ usableMode o ->
  (exists e, runSession o sv = failed e [])
  /\ (forall code n, exists e, evaluateIteration o sv code n = Throw e)
  /\ (forall generated finalCode,
        setupSession sv = Return tt ->
        generateInitialCode sv = Return generated ->
        handleErrors o sv generated 1 = Return finalCode ->
        captureSketch sv 1 finalCode = Return tt ->
        runSession o sv
        = failed (if String.eqb (evaluationMode o) "dual"
                  then "Groq evaluator not initialized. Please provide GROQ_API_KEY for dual mode."
                  else "Unknown evaluation mode: " +:+ evaluationMode o) []).
Proof.
  intros Hnew Hmode. apply new_ranges in Hnew as [Hmax _].
  assert (Heval : forall code n,
            evaluateIteration o sv code n
            = Throw (if String.eqb (evaluationMode o) "dual"
                     then "Groq evaluator not initialized. Please provide GROQ_API_KEY for dual mode."
                     else "Unknown evaluation mode: " +:+ evaluationMode o)).
  { intros code n. unfold evaluateIteration, usableMode in *.
    destruct (String.eqb (evaluationMode o) "self") eqn:Hself.
    { apply String.eqb_eq in Hself. tauto. }
    destruct (String.eqb (evaluationMode o) "dual") eqn:Hdual; [|done].
    apply String.eqb_eq in Hdual.
    destruct (hasGroqEvaluator o); [tauto|done]. }
  assert (Hrounds : exists rest, seq 1 (Z.to_nat (maxIterations o)) = 1%nat :: rest).
  { destruct (Z.to_nat (maxIterations o)) as [|m] eqn:Hm; [lia|]. simpl. eauto. }
  destruct Hrounds as [rest Hrest].
  split; [|split].
  - unfold runSession. destruct (setupSession sv) as [[]|e]; [|eauto].
    rewrite Hrest. cbn [runIterations].
    destruct (runIteration o sv 1 initialState) as [[st' stopped]|e] eqn:Hrun;
      [|eauto].
    apply runIteration_Return in Hrun as (finalCode & ev & Hev & _).
    rewrite Heval in Hev. discriminate.
  - intros code n. rewrite Heval. eauto.
  - intros generated finalCode Hsetup Hgen Hfix Hcap.
    unfold runSession. rewrite Hsetup, Hrest. cbn [runIterations].
    unfold runIteration, generateCode, bind. simpl.
    rewrite Hgen, Hfix, Hcap, Heval. done.
Qed.

Lemma unusable_mode_fails_first_round_witness :
  (exists e, runSession (mkOrchestrator false 3 12 "dual" 3) succeedsInRoundThree
             = failed e [])
  /\ (forall code n, exists e,
        evaluateIteration (mkOrchestrator false 3 12 "dual" 3) succeedsInRoundThree code n
        = Throw e)
  /\ (forall generated finalCode,
        setupSession succeedsInRoundThree = Return tt ->
        generateInitialCode succeedsInRoundThree = Return generated ->
        handleErrors (mkOrchestrator false 3 12 "dual" 3) succeedsInRoundThree generated 1
        = Return finalCode ->
        captureSketch succeedsInRoundThree 1 finalCode = Return tt ->
        runSession (mkOrchestrator false 3 12 "dual" 3) succeedsInRoundThree
        = failed (if String.eqb (evaluationMode (mkOrchestrator false 3 12 "dual" 3)) "dual"
                  then "Groq evaluator not initialized. Please provide GROQ_API_KEY for dual mode."
                  else "Unknown evaluation mode: "
                       +:+ evaluationMode (mkOrchestrator false 3 12 "dual" 3)) []).
Proof.
  apply (unusable_mode_fails_first_round dualWithoutKey
           (mkOrchestrator false 3 12 "dual" 3) succeedsInRoundThree).
  - reflexivity.
  - unfold usableMode. simpl. intros [H|[_ H]]; discriminate.
Defined.

End Modes.

(** ** Repairs in the universal orchestrator *)

Section Repairs.
Import Exc ErrorDetector UniversalOrchestrator.

Lemma handleErrorsFrom_result (o : Orchestrator) (sv : Services) (n : nat)
    (attempts : list nat) :
  forall (code final : string),
    handleErrorsFrom o sv n attempts code = Return final ->
    (final = code
     \/ exists attempt broken report,
          fixJavaScriptErrors sv n attempt broken report = Return final
          /\ final <> broken)
    /\ (Js.truthy code = true -> Js.truthy final = true).
Proof.
  induction attempts as [|fixAttempt attempts IH]; intros code final; cbn [handleErrorsFrom].
  - intros [= <-]. auto.
  - unfold bind.
    destruct (detectErrors sv n fixAttempt code) as [report|]; [|discriminate].
    destruct (negb (hasErrors report) && canvasExists report); [intros [= <-]; auto|].
    destruct (Nat.eqb fixAttempt (maxFixAttempts o)); [intros [= <-]; auto|].
    destruct (fixJavaScriptErrors sv n fixAttempt code report) as [fixed|] eqn:Hfix;
      [|discriminate].
    destruct (Js.truthy fixed && negb (String.eqb fixed code)) eqn:Haccept;
      [|intros [= <-]; auto].
    apply andb_true_iff in Haccept as [Htruthy Hdiff].
    apply negb_true_iff, String.eqb_neq in Hdiff.
    intros Hrest. destruct (IH fixed final Hrest) as [Hfrom Hkeep].
    split; [|auto]. right.
    destruct Hfrom as [->|Hlater]; [|exact Hlater].
    exists fixAttempt, code, report. done.
Qed.

(** X19. What [handleErrors] of the universal orchestrator returns.  The
    code it returns is the code it was given or a code the repair service
    returned in this round, different from the code that was sent for
    repair; an empty answer of the repair service is never taken, so a
    non-empty code stays non-empty. *)
Theorem handleErrors_result (o : Orchestrator) (sv : Services) (code : string)
    (n : nat) (final : string) :
  handleErrors o sv code n = Return final ->
  (final = code
   \/ exists attempt broken report,
        fixJavaScriptErrors sv n attempt broken report = Return final
        /\ final <> broken)
  /\ (Js.truthy code = true -> Js.truthy final = true).
Proof. apply handleErrorsFrom_result. Qed.

Lemma handleErrors_result_witness :
  ("<html>1</html>" = "<html>1</html>"
   \/ exists attempt broken report,
        fixJavaScriptErrors succeedsInRoundThree 1 attempt broken report
        = Return "<html>1</html>"
        /\ "<html>1</html>" <> broken)
  /\ (Js.truthy "<html>1</html>" = true -> Js.truthy "<html>1</html>" = true).
Proof.
  apply (handleErrors_result defaultOrchestrator succeedsInRoundThree
           "<html>1</html>" 1 "<html>1</html>").
  reflexivity.
Defined.

End Repairs.

(** ** Creating a session *)

Section WebApiFacts.
Import Exc UniversalOrchestrator WebApi.

(** X20. What [POST /api/sessions/create] stores when it answers with a
    session: the orchestrator runs with exactly the limits and the mode
    of the configuration the answer reports, the limits are the
    requested ones (or 5 rounds and the target 15 where the request gives
    none, or gives 0), they lie in 1..7 and 1..20, and the mode is
    ["self"] or ["dual"].  The mode ["dual"] is accepted without a key
    for the second judge; such a session cannot be evaluated. *)
Theorem createSession_configuration (envGeminiKey envGroqKey : option string)
    (req : CreateRequest) (config : Config) (o : Orchestrator) :
  createSession envGeminiKey envGroqKey req = sessionCreated config o ->
  cfg_maxIterations config = Some (maxIterations o)
  /\ cfg_targetScore config = Some (targetScore o)
  /\ cfg_evaluationMode config = Some (evaluationMode o)
  /\ maxIterations o = orNumber (body_maxIterations req) 5
  /\ targetScore o = orNumber (body_targetScore req) 15
  /\ 1 <= maxIterations o <= 7
  /\ 1 <= targetScore o <= 20
  /\ (evaluationMode o = "self" \/ evaluationMode o = "dual")
  /\ (usableMode o
      <-> evaluationMode o = "self" \/ Js.truthy_opt envGroqKey = true).
Proof.
  unfold createSession.
  destruct (negb (hasFile req)); [discriminate|].
  destruct (body_customPrompts req); [|discriminate].
  set (m := orNumber (body_maxIterations req) 5).
  set (t := orNumber (body_targetScore req) 15).
  set (mode := orString (body_evaluationMode req) "self").
  destruct ((m <? 1) || (7 <? m)) eqn:Hm; [discriminate|].
  destruct ((t <? 1) || (20 <? t)) eqn:Ht; [discriminate|].
  destruct (String.eqb mode "self" || String.eqb mode "dual") eqn:Hmode;
    [|discriminate].
  cbn [negb]. unfold new. cbn [geminiApiKey groqApiKey cfg_maxIterations cfg_targetScore
                                cfg_evaluationMode].
  destruct (negb (Js.truthy_opt envGeminiKey)); [discriminate|].
  apply orb_false_iff in Hm as [Hm1 Hm2]. apply orb_false_iff in Ht as [Ht1 Ht2].
  assert (Hor_m : orNumber (Some m) 5 = m).
  { unfold orNumber. destruct (m =? 0) eqn:E; [lia|done]. }
  assert (Hor_t : orNumber (Some t) 15 = t).
  { unfold orNumber. destruct (t =? 0) eqn:E; [lia|done]. }
  assert (Hor_mode : orString (Some mode) "self" = mode).
  { unfold orString, Js.truthy.
    destruct (String.eqb mode "") eqn:E; [|done].
    apply String.eqb_eq in E. rewrite E in Hmode. discriminate. }
  assert (Hmodes : mode = "self" \/ mode = "dual").
  { apply orb_true_iff in Hmode as [H|H]; apply String.eqb_eq in H; auto. }
  intros [= <- <-]. cbn [cfg_maxIterations cfg_targetScore cfg_evaluationMode
                         maxIterations targetScore evaluationMode hasGroqEvaluator].
  unfold orNumber, orString in Hor_m, Hor_t, Hor_mode.
  rewrite Hor_m, Hor_t, Hor_mode.
  rewrite (Z.max_l m 1), (Z.min_l m 7), (Z.max_l t 1), (Z.min_l t 20) by lia.
  repeat split; try done; try lia.
  - unfold usableMode. cbn [evaluationMode hasGroqEvaluator].
    intros [H|[H1 H2]]; [by left|]. right.
    by apply andb_true_iff in H2 as [? _].
  - unfold usableMode. cbn [evaluationMode hasGroqEvaluator].
    intros [H|H]; [by left|].
    destruct Hmodes as [Hs|Hd]; [by left|]. right. split; [done|].
    rewrite H, Hd. by rewrite bool_decide_eq_true_2.
Qed.

Lemma createSession_configuration_witness :
  let config := mkConfig (Some "key") None (Some 5) (Some 12) (Some "self") in
  let o := mkOrchestrator false 5 12 "self" 3 in
  cfg_maxIterations config = Some (maxIterations o)
  /\ cfg_targetScore config = Some (targetScore o)
  /\ cfg_evaluationMode config = Some (evaluationMode o)
  /\ maxIterations o = orNumber (body_maxIterations zeroRounds) 5
  /\ targetScore o = orNumber (body_targetScore zeroRounds) 15
  /\ 1 <= maxIterations o <= 7
  /\ 1 <= targetScore o <= 20
  /\ (evaluationMode o = "self" \/ evaluationMode o = "dual")
  /\ (usableMode o
      <-> evaluationMode o = "self" \/ Js.truthy_opt None = true).
Proof.
  apply (createSession_configuration (Some "key") None zeroRounds).
  reflexivity.
Defined.

End WebApiFacts.

(** ** Progress of a session *)

Section ProgressFacts.
Import Exc UniversalOrchestrator WebApi.

Lemma findIndex_Some (n : Z) (l : list IterationData) (i : nat) :
  findIndex n l = Some i ->
  exists before old after,
    l = before ++ old :: after /\ length before = i /\ it_iteration old = n
    /\ Forall (fun iter => it_iteration iter <> n) before.
Proof.
  revert i. induction l as [|iter l IH]; simpl; intros i; [done|].
  destruct (it_iteration iter =? n) eqn:E.
  - intros [= <-]. exists [], iter, l. repeat split; [lia|constructor].
  - destruct (findIndex n l) as [j|]; [|done]. simpl. intros [= <-].
    destruct (IH j eq_refl) as (before & old & after & -> & Hlen & Hold & Hbefore).
    exists (iter :: before), old, after. repeat split; simpl; [lia|done|].
    constructor; [lia|done].
Qed.

Lemma findIndex_None (n : Z) (l : list IterationData) :
  findIndex n l = None -> Forall (fun iter => it_iteration iter <> n) l.
Proof.
  induction l as [|iter l IH]; simpl; [constructor|].
  destruct (it_iteration iter =? n) eqn:E; [done|].
  destruct (findIndex n l); [done|]. intros _. constructor; [lia|by apply IH].
Qed.

Lemma find_iteration_skip (k : Z) (l1 l2 : list IterationData) :
  Forall (fun iter => it_iteration iter <> k) l1 ->
  find (fun iter => it_iteration iter =? k) (l1 ++ l2)
  = find (fun iter => it_iteration iter =? k) l2.
Proof.
  induction 1 as [|iter l1 Hiter _ IH]; [done|]. simpl.
  destruct (it_iteration iter =? k) eqn:E; [lia|exact IH].
Qed.

Lemma find_iteration_other (k : Z) (before after : list IterationData)
    (old new : IterationData) :
  it_iteration old <> k -> it_iteration new <> k ->
  find (fun iter => it_iteration iter =? k) (before ++ new :: after)
  = find (fun iter => it_iteration iter =? k) (before ++ old :: after).
Proof.
  intros Hold Hnew. induction before as [|b before IH]; simpl.
  - destruct (it_iteration new =? k) eqn:E1; [lia|].
    destruct (it_iteration old =? k) eqn:E2; [lia|done].
  - destruct (it_iteration b =? k); [done|exact IH].
Qed.

Lemma find_iteration_snoc (k : Z) (l : list IterationData) (new : IterationData) :
  it_iteration new <> k ->
  find (fun iter => it_iteration iter =? k) (l ++ [new])
  = find (fun iter => it_iteration iter =? k) l.
Proof.
  intros Hnew. induction l as [|b l IH]; simpl.
  - destruct (it_iteration new =? k) eqn:E; [lia|done].
  - destruct (it_iteration b =? k); [done|exact IH].
Qed.

(** What one call of the callback does to the list of entries: the
    entries of the other iterations stay, and the reported iteration
    gets the new entry, in the place of its old one if it had one. *)
Lemma progressCallback_iterations (progress : Progress) (report : ProgressReport) :
  match rp_iteration report, rp_score report with
  | Some n, Some score =>
    if n =? 0 then pr_iterations (progressCallback progress report)
                   = pr_iterations progress
    else
      let new := mkIterationData n score (rp_status report) in
      (exists before old after,
         pr_iterations progress = before ++ old :: after
         /\ it_iteration old = n
         /\ Forall (fun iter => it_iteration iter <> n) before
         /\ pr_iterations (progressCallback progress report) = before ++ new :: after)
      \/ (Forall (fun iter => it_iteration iter <> n) (pr_iterations progress)
          /\ pr_iterations (progressCallback progress report)
             = pr_iterations progress ++ [new])
  | _, _ => pr_iterations (progressCallback progress report) = pr_iterations progress
  end.
Proof.
  unfold progressCallback.
  destruct (rp_iteration report) as [n|]; [|done].
  destruct (rp_score report) as [score|]; [|done].
  destruct (n =? 0); [done|]. cbn [pr_iterations].
  destruct (findIndex n (pr_iterations progress)) as [i|] eqn:Hfind.
  - left. apply findIndex_Some in Hfind
      as (before & old & after & Hl & Hlen & Hold & Hbefore).
    exists before, old, after. repeat split; try done.
    rewrite Hl, <- Hlen.
    rewrite (insert_app_r_alt before) by lia.
    by rewrite Nat.sub_diag.
  - right. split; [by apply findIndex_None|done].
Qed.

(** X21. The progress record of a session keeps one entry per iteration.
    A report that carries an iteration number (other than 0) and a score
    leaves that pair as the entry of the iteration, replacing the entry
    the iteration had; it keeps the entries of all other iterations, and
    the list of entries never holds two for one iteration.  A report
    without a number or without a score changes no entry.  No report
    changes the number of rounds or the target of the session. *)
Theorem progressCallback_entries (progress : Progress) (report : ProgressReport) :
  NoDup (map it_iteration (pr_iterations progress)) ->
  let progress' := progressCallback progress report in
  NoDup (map it_iteration (pr_iterations progress'))
  /\ totalIterations progress' = totalIterations progress
  /\ pr_targetScore progress' = pr_targetScore progress
  /\ isComplete progress' = isComplete progress
  /\ (forall n score,
        rp_iteration report = Some n -> n <> 0 -> rp_score report = Some score ->
        entryOf n progress' = Some (mkIterationData n score (rp_status report)))
  /\ (forall k,
        rp_iteration report <> Some k \/ k = 0 \/ rp_score report = None ->
        entryOf k progress' = entryOf k progress).
Proof.
  intros Hnodup. cbn zeta.
  pose proof (progressCallback_iterations progress report) as Hiter.
  assert (Hframe : totalIterations (progressCallback progress report)
                   = totalIterations progress
                   /\ pr_targetScore (progressCallback progress report)
                      = pr_targetScore progress
                   /\ isComplete (progressCallback progress report)
                      = isComplete progress).
  { unfold progressCallback.
    destruct (rp_iteration report) as [n|]; [|done].
    destruct (rp_score report) as [score|]; [|done].
    by destruct (n =? 0). }
  destruct Hframe as (Hf1 & Hf2 & Hf3).
  unfold entryOf.
  destruct (rp_iteration report) as [n|] eqn:Hn.
  2:{ rewrite Hiter. repeat split; try done. }
  destruct (rp_score report) as [score|] eqn:Hscore.
  2:{ rewrite Hiter. repeat split; try done. }
  destruct (n =? 0) eqn:Hzero.
  { rewrite Hiter. apply Z.eqb_eq in Hzero. repeat split; try done.
    intros n' score' [= <-] Hn'. done. }
  apply Z.eqb_neq in Hzero. cbn zeta in Hiter.
  destruct Hiter as [(before & old & after & Hl & Hold & Hbefore & ->)|[Hnone ->]].
  - rewrite Hl in Hnodup |- *.
    repeat split; try done.
    + rewrite fmap_app, fmap_cons in Hnodup |- *. simpl. by rewrite Hold in Hnodup.
    + intros n' score' [= <-] _ [= <-].
      rewrite find_iteration_skip by done. simpl. by rewrite Z.eqb_refl.
    + intros k Hk.
      assert (Hkn : n <> k) by (intros ->; destruct Hk as [?|[?|?]]; done).
      apply find_iteration_other; simpl; lia.
  - repeat split; try done.
    + rewrite fmap_app. simpl. apply NoDup_app. split; [done|].
      split; [|apply NoDup_singleton].
      intros x Hx Hx'. apply list_elem_of_singleton in Hx'. subst x.
      apply list_elem_of_fmap in Hx as (iter & Heq & Hin).
      eapply Forall_forall in Hnone; [|exact Hin]. simpl in Hnone. congruence.
    + intros n' score' [= <-] _ [= <-].
      rewrite find_iteration_skip by done. simpl. by rewrite Z.eqb_refl.
    + intros k Hk.
      assert (Hkn : n <> k) by (intros ->; destruct Hk as [?|[?|?]]; done).
      apply find_iteration_snoc. simpl. lia.
Qed.

Lemma progressCallback_entries_witness :
  let progress := mkProgress 1 5 0 15 false (Some "evaluating")
                    [ mkIterationData 1 0 (Some "completed") ] in
  let report := mkReport (Some 2) (Some "completed") (Some 10) (Some 10) in
  let progress' := progressCallback progress report in
  NoDup (map it_iteration (pr_iterations progress'))
  /\ totalIterations progress' = totalIterations progress
  /\ pr_targetScore progress' = pr_targetScore progress
  /\ isComplete progress' = isComplete progress
  /\ (forall n score,
        rp_iteration report = Some n -> n <> 0 -> rp_score report = Some score ->
        entryOf n progress' = Some (mkIterationData n score (rp_status report)))
  /\ (forall k,
        rp_iteration report <> Some k \/ k = 0 \/ rp_score report = None ->
        entryOf k progress' = entryOf k progress).
Proof.
  apply (progressCallback_entries
           (mkProgress 1 5 0 15 false (Some "evaluating")
              [ mkIterationData 1 0 (Some "completed") ])
           (mkReport (Some 2) (Some "completed") (Some 10) (Some 10))).
  simpl. apply NoDup_singleton.
Defined.

End ProgressFacts.

(** ** The pixel feedback loop *)

Section PixelLoop.
Import Exc ErrorDetector SimplifiedPixelAnalyzer PixelFeedbackLoopTest.

Lemma lastCleanRender_Some (log : list Render) (c : string) :
  lastCleanRender log = Some c -> mkRender c false ∈ log.
Proof.
  unfold lastCleanRender.
  destruct (find _ (reverse log)) as [l|] eqn:Hfind; [|done].
  intros [= <-].
  apply find_Some_split in Hfind as (l1 & l2 & Hrev & Hclean & _).
  assert (Hin : l ∈ reverse log) by (rewrite Hrev; set_solver).
  rewrite elem_of_reverse in Hin.
  destruct l as [c b]. destruct b; simpl in *; [discriminate|done].
Qed.

(** The repair loop appends its loads to the log; the code it ends with
    is the code of its last load, which had errors exactly when the loop
    reports that it did not fix them. *)
Lemma fixLoop_log (sv : Services) (n : nat) (attempts : list nat) :
  forall (code : string) (lw : option string) (log : list Render) (rp : Repair),
    last attempts = Some maxFixAttempts ->
    fixLoop sv n attempts code lw log = Return rp ->
    exists earlier,
      rp_renderLog rp
      = log ++ earlier ++ [ mkRender (finalCode rp) (negb (errorFixed rp)) ].
Proof.
  induction attempts as [|fixAttempt attempts IH]; intros code lw log rp Hlast;
    [done|].
  cbn [fixLoop]. unfold bind.
  destruct (detectErrors sv n fixAttempt code) as [errorResult|]; [|discriminate].
  destruct (hasErrors errorResult) eqn:Herr; cbn [negb].
  - destruct (Nat.eqb fixAttempt maxFixAttempts) eqn:Hmax.
    + intros [= <-]. exists []. done.
    + destruct attempts as [|next attempts].
      { simpl in Hlast. injection Hlast as ->. by rewrite Nat.eqb_refl in Hmax. }
      destruct (fixJavaScriptErrors sv n fixAttempt code _) as [fixed|];
        [|discriminate].
      intros Hrest. apply IH in Hrest as [earlier ->]; [|done].
      exists (mkRender code true :: earlier). by rewrite <- app_assoc.
  - intros [= <-]. exists []. done.
Qed.

Lemma last_seq_maxFixAttempts : last (seq 1 maxFixAttempts) = Some maxFixAttempts.
Proof. reflexivity. Qed.

Lemma calculateSimpleScore_0_100 (targetRegions generatedRegions : list Region) :
  0 <= calculateSimpleScore targetRegions generatedRegions <= 100.
Proof.
  rewrite calculateSimpleScore_unclamped.
  pose proof (foldl_scoreStep_bounds generatedRegions (take 4 targetRegions) 100) as Hb.
  assert (Hlen : (length (take 4 targetRegions) <= 4)%nat)
    by (rewrite length_take; lia).
  lia.
Qed.

Lemma pixelRounds_initial : pixelRounds 0 initialState.
Proof. split; simpl; try done. Qed.

Lemma pixelRounds_length (k : nat) (st : LoopState) :
  pixelRounds k st -> length (iterations st) = k.
Proof.
  intros [Hn _ _ _ _ _ _ _]. apply (f_equal length) in Hn.
  by rewrite length_map, length_seq in Hn.
Qed.

Lemma find_score_none_below (l : list Iteration) (s : Z) :
  Forall (fun it => score it < s) l ->
  find (fun it => score it =? s) l = None.
Proof.
  induction 1 as [|a l Ha _ IH]; simpl; [reflexivity|].
  destruct (score a =? s) eqn:E; [lia|exact IH].
Qed.

(** A round of the pixel loop that does not throw: what it records, and
    that it keeps the bookkeeping exact. *)
Lemma pixel_runIteration_recorded (sv : Services) (targetRegions : list Region)
    (k : nat) (st st' : LoopState) (stopped : bool) :
  pixelRounds k st ->
  runIteration sv targetRegions (S k) st = Return (st', stopped) ->
  pixelRounds (S k) st'
  /\ exists it generatedRegions,
       iterations st' = iterations st ++ [it]
       /\ iteration it = S k
       /\ score it = calculateSimpleScore targetRegions generatedRegions
       /\ instructions it = createSimpleInstructions targetRegions generatedRegions
       /\ stopped = (targetScore <=? score it)
       /\ (stopped = false ->
           previousCode st' = Some (code it)
           /\ pixelInstructions st'
              = Some (formatInstructionsForGemini (instructions it))).
Proof.
  intros [Hnum Hcur Hscores Hbest Hfall Hstart Hwork Hloaded].
  unfold runIteration, ensureRenderable, bind.
  destruct (generate sv (S k) st) as [generated|]; [|discriminate].
  destruct (fixLoop _ _ _ _ _ _) as [rp|] eqn:Hfix; [|discriminate].
  pose proof (fixLoop_spec _ _ _ _ _ _ _ Hfix) as Hspec.
  pose proof (fixLoop_log _ _ _ _ _ _ _ last_seq_maxFixAttempts Hfix) as [earlier Hlog].
  destruct (applyFallback rp (fallbackCount st)) as [rp' count'] eqn:Happly.
  destruct (captureSketch _ _ _); [|discriminate].
  destruct (analyzeGenerated _ _ _) as [generatedRegions|]; [|discriminate].
  set (score := calculateSimpleScore targetRegions generatedRegions).
  set (instr := createSimpleInstructions targetRegions generatedRegions).
  set (it := mkIteration (S k) (finalCode rp') score instr).
  pose proof (calculateSimpleScore_0_100 targetRegions generatedRegions) as Hrange.
  fold score in Hrange.
  (* what the fallback decides *)
  assert (Hfb : rp_renderLog rp' = rp_renderLog rp
                /\ rp_lastWorkingCode rp' = rp_lastWorkingCode rp
                /\ rp_lastWorkingCode rp = lastCleanRender (rp_renderLog rp)
                /\ finalCode rp' ∈ map rendered (rp_renderLog rp)
                /\ 0 <= count' <= maxFallbacks
                /\ count' <= Z.max 0 (Z.of_nat (S k) - 1)).
  { assert (Hw : rp_lastWorkingCode rp = lastCleanRender (rp_renderLog rp)).
    { destruct (errorFixed rp); destruct Hspec as [-> ->]; [done|exact Hwork]. }
    assert (Hown : finalCode rp ∈ map rendered (rp_renderLog rp)).
    { rewrite Hlog, !fmap_app. simpl. set_solver. }
    unfold applyFallback in Happly.
    destruct (negb (errorFixed rp) && Js.truthy_opt (rp_lastWorkingCode rp)
              && (fallbackCount st <? maxFallbacks)) eqn:Hcond.
    - injection Happly as <- <-. cbn [rp_renderLog rp_lastWorkingCode finalCode].
      apply andb_true_iff in Hcond as [Hcond Hbudget].
      apply andb_true_iff in Hcond as [Hbroken Htruthy].
      apply Z.ltb_lt in Hbudget.
      destruct (rp_lastWorkingCode rp) as [c|] eqn:Hc; [|done]. simpl.
      assert (Hk : (1 <= k)%nat).
      { destruct k as [|k']; [|lia]. exfalso.
        destruct (errorFixed rp); [done|]. destruct Hspec as [Hlw _].
        rewrite (Hstart eq_refl) in Hlw. congruence. }
      repeat split; try done; try lia.
      symmetry in Hw. apply lastCleanRender_Some in Hw.
      apply list_elem_of_fmap. by exists (mkRender c false).
    - injection Happly as <- <-. repeat split; try done; lia. }
  destruct Hfb as (Hlog' & Hlw' & Hw & Hcode & Hcount & Hcount').
  assert (Hloaded' : Forall (fun it0 => code it0 ∈ map rendered (rp_renderLog rp))
                       (iterations st ++ [it])).
  { apply Forall_app. split.
    - eapply Forall_impl; [exact Hloaded|]. intros x Hx. simpl in Hx.
      rewrite Hlog, fmap_app. apply elem_of_app. by left.
    - apply Forall_singleton. exact Hcode. }
  assert (Hbest' :
            let improved := bestScore st <? score in
            match iterations st ++ [it] with
            | [] => False
            | _ =>
              (if improved then score else bestScore st)
              = Js.max_list (map PixelFeedbackLoopTest.score (iterations st ++ [it]))
              /\ pixelEarliest (if improved then score else bestScore st)
                   (iterations st ++ [it])
                 = Some (if improved then S k else bestIteration st)
            end).
  { cbn zeta. destruct (iterations st) as [|first rest] eqn:Hrec.
    - destruct Hbest as [-> ->]. simpl in Hnum.
      assert (k = 0%nat) as -> by (by destruct k).
      simpl. unfold pixelEarliest. simpl.
      destruct (0 <? score) eqn:Hlt.
      + by rewrite Z.eqb_refl.
      + apply Z.ltb_ge in Hlt. assert (score = 0) as -> by lia. done.
    - destruct Hbest as [Hmax Hearliest]. rewrite <- Hrec in *.
      assert (Hne : map PixelFeedbackLoopTest.score (iterations st) <> [])
        by (rewrite Hrec; discriminate).
      assert (Hcons : exists hd tl, iterations st ++ [it] = hd :: tl)
        by (rewrite Hrec; simpl; eauto).
      destruct Hcons as (hd & tl & Hcons). rewrite Hcons, <- Hcons.
      rewrite map_app. change (map PixelFeedbackLoopTest.score [it]) with [score].
      rewrite (max_list_snoc _ _ Hne), <- Hmax.
      unfold pixelEarliest in *.
      destruct (bestScore st <? score) eqn:Hlt.
      + apply Z.ltb_lt in Hlt. split; [lia|].
        rewrite find_app_None.
        * simpl. by rewrite Z.eqb_refl.
        * apply find_score_none_below. apply Forall_forall. intros x Hx.
          assert (PixelFeedbackLoopTest.score x
                  <= Js.max_list (map PixelFeedbackLoopTest.score (iterations st)))
            by (apply max_list_ge, list_elem_of_fmap; eauto).
          lia.
      + apply Z.ltb_ge in Hlt. split; [lia|].
        destruct (find _ (iterations st)) as [found|] eqn:Hfind; [|discriminate].
        by rewrite (find_app_Some _ _ _ _ Hfind). }
  assert (Hrounds : forall prevCode prevInstr,
            pixelRounds (S k)
              (mkState prevCode prevInstr
                 (if bestScore st <? score then score else bestScore st)
                 (if bestScore st <? score then S k else bestIteration st)
                 (S k) (rp_lastWorkingCode rp') count'
                 (iterations st ++ [it]) (rp_renderLog rp'))).
  { intros prevCode prevInstr. split; cbn [iterations currentIteration bestScore
      bestIteration fallbackCount lastWorkingCode renderLog].
    - rewrite map_app, Hnum, seq_S. reflexivity.
    - done.
    - apply Forall_app. split; [exact Hscores|]. by apply Forall_singleton.
    - cbn zeta in Hbest'. by destruct (iterations st ++ [it]).
    - split; [exact Hcount|exact Hcount'].
    - done.
    - by rewrite Hlw', Hlog'.
    - by rewrite Hlog'. }
  destruct (targetScore <=? score) eqn:Hstop; intros [= <- <-].
  - split; [apply Hrounds|]. exists it, generatedRegions. repeat split; try done.
  - split; [apply Hrounds|]. exists it, generatedRegions. repeat split; try done.
Qed.

Lemma pixel_runIterations_spec (sv : Services) (targetRegions : list Region) (m : nat) :
  forall (k : nat) (st : LoopState),
    pixelRounds k st -> pixelBelow (iterations st) ->
    match runIterations sv targetRegions (seq (S k) m) st with
    | loop_done st' =>
      exists k', pixelRounds k' st' /\ (k <= k' <= k + m)%nat
                 /\ ((k' = (k + m)%nat /\ pixelBelow (iterations st'))
                     \/ exists earlier last,
                          iterations st' = earlier ++ [last]
                          /\ pixelBelow earlier
                          /\ targetScore <= score last)
    | loop_threw e st' =>
      exists k', pixelRounds k' st' /\ (k <= k' < k + m)%nat
                 /\ pixelBelow (iterations st')
    end.
Proof.
  induction m as [|m IH]; intros k st Hrec Hbelow; simpl.
  - exists k. split; [exact Hrec|]. split; [lia|]. left. split; [lia|exact Hbelow].
  - destruct (runIteration sv targetRegions (S k) st) as [[st' stopped]|e] eqn:Hrun.
    + destruct (pixel_runIteration_recorded sv targetRegions k st st' stopped Hrec Hrun)
        as (Hrec' & it & generatedRegions & Hiter & Hnum & _ & _ & Hstop & _).
      destruct stopped.
      * exists (S k). split; [exact Hrec'|]. split; [lia|]. right.
        exists (iterations st), it. split; [exact Hiter|]. split; [exact Hbelow|].
        symmetry in Hstop. by apply Z.leb_le in Hstop.
      * assert (Hbelow' : pixelBelow (iterations st')).
        { unfold pixelBelow. rewrite Hiter. apply Forall_app. split; [exact Hbelow|].
          apply Forall_singleton. symmetry in Hstop. by apply Z.leb_gt in Hstop. }
        specialize (IH (S k) st' Hrec' Hbelow').
        destruct (runIterations sv targetRegions (seq (S (S k)) m) st') as [st2|e st2].
        -- destruct IH as (k' & Hk' & Hrange & Hend).
           exists k'. split; [exact Hk'|]. split; [lia|].
           destruct Hend as [[-> Hb]|Hlast]; [left; split; [lia|exact Hb]|by right].
        -- destruct IH as (k' & Hk' & Hrange & Hb).
           exists k'. split; [exact Hk'|]. split; [lia|exact Hb].
    + exists k. split; [exact Hrec|]. split; [lia|exact Hbelow].
Qed.

Lemma reachable_pixelRounds (sv : Services) (targetRegions : list Region)
    (n : nat) (st : LoopState) :
  reachable sv targetRegions n st ->
  pixelRounds n st /\ pixelBelow (iterations st).
Proof.
  induction 1 as [|n st st' _ [IH1 IH2] Hrun].
  - split; [apply pixelRounds_initial|constructor].
  - destruct (pixel_runIteration_recorded sv targetRegions n st st' false IH1 Hrun)
      as (Hrec' & it & generatedRegions & Hiter & _ & _ & _ & Hstop & _).
    split; [exact Hrec'|]. unfold pixelBelow. rewrite Hiter.
    apply Forall_app. split; [exact IH2|].
    apply Forall_singleton. symmetry in Hstop. by apply Z.leb_gt in Hstop.
Qed.

(** X22. What a run of the pixel loop that returns [success: true]
    leaves behind.  Between 1 and 10 rounds are recorded, numbered
    consecutively from 1, each with a score between 0 and 100, and every
    round but the last scored below the target 95.  The best score
    reported is the largest recorded score and the best iteration the
    first round that reached it.  [targetReached] says whether the last
    round met the target, which is the case whenever fewer than 10 rounds
    were run. *)
Theorem pixel_loop_result (sv : Services) (result : LoopResult) :
  runPixelFeedbackLoop sv = result ->
  success result = true ->
  (1 <= length (recorded result) <= 10)%nat
  /\ map iteration (recorded result) = seq 1 (length (recorded result))
  /\ Forall (fun it => 0 <= score it <= 100) (recorded result)
  /\ res_bestScore result = Js.max_list (map score (recorded result))
  /\ pixelEarliest (res_bestScore result) (recorded result)
     = Some (res_bestIteration result)
  /\ exists earlier last,
       recorded result = earlier ++ [last]
       /\ pixelBelow earlier
       /\ targetReached result = (targetScore <=? score last)
       /\ ((length (recorded result) < 10)%nat -> targetReached result = true).
Proof.
  intros <-. unfold runPixelFeedbackLoop.
  destruct (setupSession sv); [|discriminate].
  destruct (analyzeTarget sv) as [targetRegions|]; [|discriminate].
  pose proof (pixel_runIterations_spec sv targetRegions maxIterations 0 initialState
                pixelRounds_initial (Forall_nil_2 _)) as Hspec.
  destruct (runIterations sv targetRegions (seq 1 maxIterations) initialState)
    as [st|e st]; [|discriminate].
  destruct (createSessionSummary sv); [|discriminate].
  intros _. cbn [recorded res_bestScore res_bestIteration targetReached].
  destruct Hspec as (k & Hrec & Hrange & Hend).
  pose proof (pixelRounds_length _ _ Hrec) as Hlen.
  destruct Hrec as [Hnum _ Hscores Hbest _ _ _ _].
  assert (Hk : (1 <= k)%nat).
  { destruct Hend as [[-> _]|(earlier & last & Hiter & _)]; [unfold maxIterations; lia|].
    rewrite Hiter, length_app in Hlen. simpl in Hlen. lia. }
  assert (Hsnoc : exists earlier last, iterations st = earlier ++ [last]).
  { destruct (decide (iterations st = [])) as [E|E];
      [rewrite E in Hlen; simpl in Hlen; lia|].
    destruct (exists_last E) as (earlier & last & Heq). eauto. }
  destruct Hsnoc as (earlier & last & Hiter).
  assert (Hne : iterations st <> []) by (rewrite Hiter; by destruct earlier).
  rewrite Hlen. split; [unfold maxIterations in Hrange; lia|].
  split; [exact Hnum|]. split; [exact Hscores|].
  destruct (iterations st) as [|first rest] eqn:Hiters; [done|].
  destruct Hbest as [Hmax Hearliest]. rewrite <- Hiters in *.
  split; [exact Hmax|]. split; [exact Hearliest|].
  exists earlier, last. split; [exact Hiter|].
  assert (Hlast_best : forall x, x ∈ iterations st -> score x <= bestScore st).
  { intros x Hx. rewrite Hmax. apply max_list_ge, list_elem_of_fmap. eauto. }
  assert (Hbest_in : exists x, x ∈ iterations st /\ score x = bestScore st).
  { assert (Hin : Js.max_list (map score (iterations st)) ∈ map score (iterations st)).
    { apply max_list_elem. rewrite Hiters. discriminate. }
    apply list_elem_of_fmap in Hin as (x & Hx & Hin). exists x. split; [done|]. lia. }
  destruct Hend as [[Hfull Hbelow]|(earlier' & last' & Hiter' & Hbelow & Hmet)].
  - (* all ten rounds, none met the target *)
    assert (Hb : pixelBelow earlier).
    { unfold pixelBelow in *. rewrite Hiter in Hbelow.
      by apply Forall_app in Hbelow as [? _]. }
    split; [exact Hb|].
    assert (Hlast : score last < targetScore).
    { unfold pixelBelow in Hbelow. rewrite Hiter in Hbelow.
      apply Forall_app in Hbelow as [_ Hl].
      exact (proj1 (Forall_singleton _ _) Hl). }
    destruct Hbest_in as (x & Hx & Hxs).
    assert (score x < targetScore).
    { eapply Forall_forall in Hbelow; [exact Hbelow|exact Hx]. }
    split.
    + transitivity false; [apply Z.leb_gt; lia|symmetry; apply Z.leb_gt; lia].
    + unfold maxIterations in *. lia.
  - (* the last round met the target *)
    rewrite Hiter in Hiter'. apply app_inj_tail in Hiter' as [<- <-].
    split; [exact Hbelow|].
    assert (Hl : last ∈ iterations st) by (rewrite Hiter; set_solver).
    specialize (Hlast_best last Hl).
    split.
    + transitivity true; [apply Z.leb_le; lia|symmetry; apply Z.leb_le; lia].
    + intros _. apply Z.leb_le. lia.
Qed.

Lemma pixel_loop_result_witness :
  let result := runPixelFeedbackLoop onlyFirstLoads in
  (1 <= length (recorded result) <= 10)%nat
  /\ map iteration (recorded result) = seq 1 (length (recorded result))
  /\ Forall (fun it => 0 <= score it <= 100) (recorded result)
  /\ res_bestScore result = Js.max_list (map score (recorded result))
  /\ pixelEarliest (res_bestScore result) (recorded result)
     = Some (res_bestIteration result)
  /\ exists earlier last,
       recorded result = earlier ++ [last]
       /\ pixelBelow earlier
       /\ targetReached result = (targetScore <=? score last)
       /\ ((length (recorded result) < 10)%nat -> targetReached result = true).
Proof.
  apply (pixel_loop_result onlyFirstLoads (runPixelFeedbackLoop onlyFirstLoads)).
  - reflexivity.
  - vm_compute. reflexivity.
Defined.

(** X23. The fallback is used sparingly.  In every state the pixel loop
    passes through between rounds, the number of fallbacks used so far
    is at most [maxFallbacks] = 3 and smaller than the number of rounds
    completed: the first round never falls back, and no round falls back
    twice. *)
Theorem fallbacks_are_bounded (sv : Services) (targetRegions : list Region)
    (n : nat) (st : LoopState) :
  reachable sv targetRegions n st ->
  0 <= fallbackCount st <= 3
  /\ fallbackCount st <= Z.max 0 (Z.of_nat n - 1).
Proof.
  intros Hreach. apply reachable_pixelRounds in Hreach as [[_ _ _ _ Hf _ _ _] _].
  exact Hf.
Qed.

Lemma fallbacks_are_bounded_witness :
  0 <= fallbackCount afterFourRounds <= 3
  /\ fallbackCount afterFourRounds <= Z.max 0 (Z.of_nat 4 - 1).
Proof.
  apply (fallbacks_are_bounded onlyFirstLoads [ redSquareAt 0 0 ] 4 afterFourRounds).
  exact onlyFirstLoads_reaches_round_five.
Defined.

(** X24. The pixel loop only ever scores code that the error detector
    has loaded: in every state between rounds, the code recorded for
    each round occurs in the log of page loads of the run, and the last
    working code is the code of the most recent load without errors. *)
Theorem recorded_code_was_loaded (sv : Services) (targetRegions : list Region)
    (n : nat) (st : LoopState) :
  reachable sv targetRegions n st ->
  Forall (fun it => code it ∈ map rendered (renderLog st)) (iterations st)
  /\ lastWorkingCode st = lastCleanRender (renderLog st)
  /\ (forall c, lastWorkingCode st = Some c -> mkRender c false ∈ renderLog st).
Proof.
  intros Hreach. apply reachable_pixelRounds in Hreach as [[_ _ _ _ _ _ Hw Hl] _].
  split; [exact Hl|]. split; [exact Hw|].
  intros c Hc. apply lastCleanRender_Some. congruence.
Qed.

Lemma recorded_code_was_loaded_witness :
  Forall (fun it => code it ∈ map rendered (renderLog afterFourRounds))
    (iterations afterFourRounds)
  /\ lastWorkingCode afterFourRounds = lastCleanRender (renderLog afterFourRounds)
  /\ (forall c, lastWorkingCode afterFourRounds = Some c ->
                mkRender c false ∈ renderLog afterFourRounds).
Proof.
  apply (recorded_code_was_loaded onlyFirstLoads [ redSquareAt 0 0 ] 4 afterFourRounds).
  exact onlyFirstLoads_reaches_round_five.
Defined.

Lemma formatInstructionsForGemini_not_perfect (instructions : list string) :
  instructions <> [] ->
  formatInstructionsForGemini instructions
  <> "Perfect! The image matches the target exactly.".
Proof.
  intros Hne. unfold formatInstructionsForGemini.
  destruct instructions as [|i rest]; [done|]. simpl. discriminate.
Qed.

(** X25. A round of the pixel loop after which the loop goes on scored
    below 95 and has at least one instruction: a round without
    instructions scores 100 and ends the loop.  So the feedback handed to
    the next generation request is never the text
    ["Perfect! The image matches the target exactly."]; it is the
    numbered list of the round's instructions, together with the code the
    round was scored on. *)
Theorem unfinished_round_has_instructions (sv : Services)
    (targetRegions : list Region) (n : nat) (st' : LoopState) :
  reachable sv targetRegions (S n) st' ->
  exists earlier it,
    iterations st' = earlier ++ [it]
    /\ iteration it = S n
    /\ score it < targetScore
    /\ instructions it <> []
    /\ previousCode st' = Some (code it)
    /\ pixelInstructions st' = Some (formatInstructionsForGemini (instructions it))
    /\ pixelInstructions st'
       <> Some "Perfect! The image matches the target exactly.".
Proof.
  inversion 1 as [|n0 st st0 Hreach Hrun]; subst.
  apply reachable_pixelRounds in Hreach as [Hrec _].
  destruct (pixel_runIteration_recorded sv targetRegions n st st' false Hrec Hrun)
    as (_ & it & generatedRegions & Hiter & Hnum & Hscore & Hinstr & Hstop & Hnext).
  destruct (Hnext eq_refl) as [Hcode Hfeedback].
  symmetry in Hstop. apply Z.leb_gt in Hstop.
  assert (Hne : instructions it <> []).
  { rewrite Hinstr. intros Hnil. apply createSimpleInstructions_perfect in Hnil.
    rewrite Hscore, Hnil in Hstop. unfold targetScore in Hstop. lia. }
  exists (iterations st), it. repeat split; try done.
  rewrite Hfeedback. intros [= Heq].
  by apply formatInstructionsForGemini_not_perfect in Heq.
Qed.

Lemma unfinished_round_has_instructions_witness :
  exists earlier it,
    iterations afterRoundOne = earlier ++ [it]
    /\ iteration it = 1%nat
    /\ score it < targetScore
    /\ instructions it <> []
    /\ previousCode afterRoundOne = Some (code it)
    /\ pixelInstructions afterRoundOne
       = Some (formatInstructionsForGemini (instructions it))
    /\ pixelInstructions afterRoundOne
       <> Some "Perfect! The image matches the target exactly.".
Proof.
  apply (unfinished_round_has_instructions onlyFirstLoads [ redSquareAt 0 0 ] 0
           afterRoundOne).
  eapply reach_round; [apply reach_start|vm_compute; reflexivity].
Defined.

End PixelLoop.
